(** * Web-Engine: inverted index construction and boolean-AND retrieval

    A shallow embedding of the index builders
    ([M1/ANALYST_OPTION/indexer.py], [M1/DEVELOPER_OPTION/disk_indexer.py])
    and of the query engine ([M3/SRC/search_engine_m3.py]).

    Python values are rendered as follows.
    - [dict] and [defaultdict]: [gmap]; a [set]: [gset].  Where the
      iteration order of a set is observable (ranking ties) it is a
      parameter of the model.
    - a [str]: the [string] of its UTF-8 bytes; the index file and the
      tokens are ASCII.
    - counters, term frequencies and document ids: [nat] (they start at
      zero and only grow).
    - a JSON file: the value [json.dump] was given, an object being the
      list of its members.  A dictionary is written with its members in
      the order of [map_to_list]; Python writes them in insertion order,
      and nothing modelled here reads that order back.  The query engine
      reads the index file as text.
    - [float] scores: real numbers, with [math.log] as [ln] and
      [math.sqrt] as [sqrt].
    - an exception: the [Raise] branch of [result]. *)

From Stdlib Require Import Reals Lra Ascii.
From Stdlib Require DecimalString DecimalNat.
From stdpp Require Import gmap strings list fin_maps sorting.

Set Default Proof Using "Type".
Set Warnings "-clear-no-such-hyp".
Local Open Scope nat_scope.

(** ** Exceptions *)

Inductive exn : Type :=
| FileNotFoundError
| ValueError
| AttributeError
| StopIteration.

Inductive result (A : Type) : Type :=
| Ok (a : A)
| Raise (e : exn).
Arguments Ok {A} a.
Arguments Raise {A} e.

Global Instance result_ret : MRet result := λ A a, Ok a.
Global Instance result_bind : MBind result := λ A B f m,
  match m with Ok a => f a | Raise e => Raise e end.
Global Instance result_fmap : FMap result := λ A B f m,
  match m with Ok a => Ok (f a) | Raise e => Raise e end.

Definition is_Ok {A} (r : result A) : Prop := ∃ a, r = Ok a.

(** ** Postings *)

(** The record [{'tf': n, 'is_important': b}] stored per (term, doc-id). *)
Record Posting : Type := mkPosting { tf : nat; is_important : bool }.

Global Instance Posting_eq_dec : EqDecision Posting.
Proof. solve_decision. Defined.

(** The value a [defaultdict(lambda: {'tf': 0, 'is_important': False})]
    hands out for a missing key. *)
Definition default_posting : Posting := mkPosting 0 false.

(** [index[term][doc_id]] read without creating the entry. *)
Definition posting_of (index : gmap string (gmap nat Posting))
    (term : string) (doc_id : nat) : option Posting :=
  index !! term ≫= λ postings, postings !! doc_id.

(** [index[term][doc_id] = p] on a [defaultdict] of [defaultdict]s: the
    inner dictionary is created when the term is new. *)
Definition set_posting (index : gmap string (gmap nat Posting))
    (term : string) (doc_id : nat) (p : Posting) : gmap string (gmap nat Posting) :=
  <[term := <[doc_id := p]> (default ∅ (index !! term))]> index.

(** ** [str] and [int] on document ids, and the [:03d] format *)

Definition py_str (n : nat) : string :=
  DecimalString.NilZero.string_of_uint (Nat.to_uint n).

(** [int(s)] on the strings [str] produces: decimal digits, leading zeros
    allowed.  Anything else is a [ValueError] here; Python also accepts a
    sign, surrounding blanks and underscores, which [str] never writes. *)
Definition py_int (s : string) : result nat :=
  match DecimalString.NilZero.uint_of_string s with
  | Some d => Ok (Nat.of_uint d)
  | None => Raise ValueError
  end.

Fixpoint zeros (n : nat) : string :=
  match n with
  | O => EmptyString
  | S n => String "0"%char (zeros n)
  end.

(** [f'{n:03d}'] *)
Definition fmt_03d (n : nat) : string :=
  let s := py_str n in zeros (3 - String.length s) +:+ s.

(** ** Token counting, shared by both builders *)

(** [counts = defaultdict(int); for token in tokens: counts[token] += 1] *)
Definition count_tokens (tokens : list string) : gmap string nat :=
  foldl (λ counts token, <[token := S (default 0 (counts !! token))]> counts) ∅ tokens.

(** The body of the loop [for token in all_tokens] of [add_document]. *)
Definition post_token (doc_id : nat) (token_counts important_token_counts : gmap string nat)
    (important_set : gset string)
    (index : gmap string (gmap nat Posting)) (token : string)
    : gmap string (gmap nat Posting) :=
  let tf_normal := default 0 (token_counts !! token) in
  let tf_important := default 0 (important_token_counts !! token) in
  let total_tf := tf_normal + tf_important in
  let is_important := bool_decide (token ∈ important_set) || bool_decide (0 < tf_important) in
  set_posting index token doc_id (mkPosting total_tf is_important).

(** Lines "Create a set of important tokens" to "Update index" of
    [add_document], identical in both builders.  The loop runs over the
    set [set(tokens) | set(important_tokens)]; each round writes another
    term, so the order of the set does not show in the result. *)
Definition post_tokens (index : gmap string (gmap nat Posting)) (doc_id : nat)
    (tokens important_tokens : list string) : gmap string (gmap nat Posting) :=
  let important_set : gset string := list_to_set important_tokens in
  let token_counts := count_tokens tokens in
  let important_token_counts := count_tokens important_tokens in
  let all_tokens : gset string := list_to_set tokens ∪ list_to_set important_tokens in
  foldl (post_token doc_id token_counts important_token_counts important_set)
        index (elements all_tokens).

(** Number of occurrences of a term in a token list. *)
Definition occurrences (term : string) (tokens : list string) : nat :=
  length (filter (λ t, t = term) tokens).

(** ** The in-memory builder, [InvertedIndex] *)

Module InvertedIndex.

Record t : Type := mk {
  index : gmap string (gmap nat Posting);
  doc_ids : gmap string nat;
  doc_id_to_url : gmap nat string;
  next_doc_id : nat }.

Definition __init__ : t := mk ∅ ∅ ∅ 0.

Definition add_document (self : t) (url : string)
    (tokens important_tokens : list string) : t :=
  let '(doc_id, self) :=
    match doc_ids self !! url with
    | None =>
        let doc_id := next_doc_id self in
        (doc_id, mk (index self) (<[url := doc_id]> (doc_ids self))
                    (<[doc_id := url]> (doc_id_to_url self)) (S (next_doc_id self)))
    | Some doc_id => (doc_id, self)
    end in
  mk (post_tokens (index self) doc_id tokens important_tokens)
     (doc_ids self) (doc_id_to_url self) (next_doc_id self).

Definition get_num_documents (self : t) : nat := size (doc_ids self).

Definition get_num_unique_tokens (self : t) : nat := size (index self).

End InvertedIndex.

(** ** The files of the disk-based builder *)

(** What [json.dump(index_data, f)] writes: terms, and under each term
    the postings keyed by [str(doc_id)]. *)
Definition IndexJson : Type := list (string * list (string * Posting)).

(** What the doc-mapping files hold: ['url_to_id'] and ['id_to_url'], the
    latter keyed by [str(doc_id)]. *)
Record MappingJson : Type := mkMappingJson {
  json_url_to_id : list (string * nat);
  json_id_to_url : list (string * string) }.

(** The directory [partial_indexes]: the segment files and the mapping
    snapshots in it, by file name. *)
Record PartialDir : Type := mkPartialDir {
  partial_index_files : gmap string IndexJson;
  partial_mapping_files : gmap string MappingJson }.

(** The output directory.  [partial_dir] is [None] when the directory
    [partial_indexes] does not exist; the two final files are [None] when
    absent. *)
Record Disk : Type := mkDisk {
  partial_dir : option PartialDir;
  inverted_index_json : option IndexJson;
  doc_mapping_json : option MappingJson }.

Definition empty_disk : Disk := mkDisk None None None.

(** [{str(doc_id): posting_data for doc_id, posting_data in postings.items()}] *)
Definition json_postings (postings : gmap nat Posting) : list (string * Posting) :=
  (λ kv, (py_str kv.1, kv.2)) <$> map_to_list postings.

(** The "Convert to JSON-serializable format" loop. *)
Definition json_index (index : gmap string (gmap nat Posting)) : IndexJson :=
  (λ kv, (kv.1, json_postings kv.2)) <$> map_to_list index.

(** [{'url_to_id': doc_ids, 'id_to_url': {str(k): v for k, v in ...}}] *)
Definition json_mapping (doc_ids : gmap string nat) (doc_id_to_url : gmap nat string)
    : MappingJson :=
  mkMappingJson (map_to_list doc_ids)
                ((λ kv, (py_str kv.1, kv.2)) <$> map_to_list doc_id_to_url).

Definition partial_index_name (i : nat) : string :=
  "partial_index_" +:+ fmt_03d i +:+ ".json".

Definition partial_mapping_name (i : nat) : string :=
  "partial_mapping_" +:+ fmt_03d i +:+ ".json".

(** The "Merge postings" assignment of [_merge_partial_indexes]. *)
Definition merge_posting (existing posting_data : Posting) : Posting :=
  mkPosting (tf existing + tf posting_data)
            (is_important existing || is_important posting_data).

(** One round of the inner loop [for doc_id_str, posting_data in postings.items()]. *)
Definition merge_entry (term : string) (merged_index : gmap string (gmap nat Posting))
    (entry : string * Posting) : result (gmap string (gmap nat Posting)) :=
  doc_id ← py_int entry.1;
  let existing := default default_posting (posting_of merged_index term doc_id) in
  Ok (set_posting merged_index term doc_id (merge_posting existing entry.2)).

Fixpoint merge_postings (term : string) (merged_index : gmap string (gmap nat Posting))
    (postings : list (string * Posting)) : result (gmap string (gmap nat Posting)) :=
  match postings with
  | [] => Ok merged_index
  | entry :: postings =>
      merged_index ← merge_entry term merged_index entry;
      merge_postings term merged_index postings
  end.

(** The "Merge into main index" loop over one loaded partial index. *)
Fixpoint merge_partial_index (merged_index : gmap string (gmap nat Posting))
    (partial_index : IndexJson) : result (gmap string (gmap nat Posting)) :=
  match partial_index with
  | [] => Ok merged_index
  | (term, postings) :: partial_index =>
      merged_index ← merge_postings term merged_index postings;
      merge_partial_index merged_index partial_index
  end.

(** [open(name)] followed by [json.load] on a segment file. *)
Definition load_partial_index (d : Disk) (name : string) : result IndexJson :=
  match partial_dir d with
  | None => Raise FileNotFoundError
  | Some dir =>
      match partial_index_files dir !! name with
      | None => Raise FileNotFoundError
      | Some data => Ok data
      end
  end.

(** The loop [for i in range(self.partial_index_count)] of
    [_merge_partial_indexes], over the ordinals still to load. *)
Fixpoint merge_loop (d : Disk) (ordinals : list nat)
    (merged_index : gmap string (gmap nat Posting))
    : result (gmap string (gmap nat Posting)) :=
  match ordinals with
  | [] => Ok merged_index
  | i :: ordinals =>
      partial_index ← load_partial_index d (partial_index_name i);
      merged_index ← merge_partial_index merged_index partial_index;
      merge_loop d ordinals merged_index
  end.

(** The loop of [_save_doc_mappings] over the mapping snapshots; a missing
    snapshot is skipped ([os.path.exists]). *)
Definition update_from_snapshot (d : Disk)
    (acc : gmap string nat * gmap nat string) (i : nat)
    : result (gmap string nat * gmap nat string) :=
  match partial_dir d ≫= λ dir, partial_mapping_files dir !! partial_mapping_name i with
  | None => Ok acc
  | Some mapping_data =>
      let all_doc_ids := foldl (λ m kv, <[kv.1 := kv.2]> m) acc.1 (json_url_to_id mapping_data) in
      all_doc_id_to_url ←
        foldl (λ r kv, m ← r; k ← py_int kv.1; Ok (<[k := kv.2]> m))
              (Ok acc.2) (json_id_to_url mapping_data);
      Ok (all_doc_ids, all_doc_id_to_url)
  end.

Fixpoint collect_snapshots (d : Disk) (ordinals : list nat)
    (acc : gmap string nat * gmap nat string)
    : result (gmap string nat * gmap nat string) :=
  match ordinals with
  | [] => Ok acc
  | i :: ordinals =>
      acc ← update_from_snapshot d acc i;
      collect_snapshots d ordinals acc
  end.

(** [dict.update]: the entries of [other] win. *)
Definition dict_update `{Countable K} {V} (m other : gmap K V) : gmap K V := other ∪ m.

(** ** The disk-based builder, [DiskBasedIndexer] *)

Module DiskBasedIndexer.

(** The builder together with its output directory.  A threshold below
    zero makes every comparison [docs_in_memory >= max_docs_in_memory]
    true, as the threshold 0 does. *)
Record t : Type := mk {
  max_docs_in_memory : nat;
  index : gmap string (gmap nat Posting);
  doc_ids : gmap string nat;
  doc_id_to_url : gmap nat string;
  next_doc_id : nat;
  docs_in_memory : nat;
  partial_index_count : nat;
  disk : Disk }.

(** [os.makedirs(self.partial_index_dir, exist_ok=True)] keeps a directory
    that is already there, with its files. *)
Definition makedirs (d : Disk) : Disk :=
  mkDisk (Some (default (mkPartialDir ∅ ∅) (partial_dir d)))
         (inverted_index_json d) (doc_mapping_json d).

Definition __init__ (d : Disk) (max_docs_in_memory : nat) : t :=
  mk max_docs_in_memory ∅ ∅ ∅ 0 0 0 (makedirs d).

Definition _offload_to_disk (self : t) : result t :=
  if decide (size (index self) = 0) then Ok self
  else
    match partial_dir (disk self) with
    | None => Raise FileNotFoundError
    | Some dir =>
        let dir :=
          mkPartialDir
            (<[partial_index_name (partial_index_count self) := json_index (index self)]>
               (partial_index_files dir))
            (<[partial_mapping_name (partial_index_count self) :=
                 json_mapping (doc_ids self) (doc_id_to_url self)]>
               (partial_mapping_files dir)) in
        Ok (mk (max_docs_in_memory self) ∅ (doc_ids self) (doc_id_to_url self)
               (next_doc_id self) 0 (S (partial_index_count self))
               (mkDisk (Some dir) (inverted_index_json (disk self))
                       (doc_mapping_json (disk self))))
    end.

(** [add_document] up to and including [self.docs_in_memory += 1]. *)
Definition record_document (self : t) (url : string)
    (tokens important_tokens : list string) : t :=
  let '(doc_id, self) :=
    match doc_ids self !! url with
    | None =>
        let doc_id := next_doc_id self in
        (doc_id, mk (max_docs_in_memory self) (index self)
                    (<[url := doc_id]> (doc_ids self))
                    (<[doc_id := url]> (doc_id_to_url self))
                    (S (next_doc_id self)) (docs_in_memory self)
                    (partial_index_count self) (disk self))
    | Some doc_id => (doc_id, self)
    end in
  mk (max_docs_in_memory self)
     (post_tokens (index self) doc_id tokens important_tokens)
     (doc_ids self) (doc_id_to_url self) (next_doc_id self)
     (S (docs_in_memory self)) (partial_index_count self) (disk self).

Definition add_document (self : t) (url : string)
    (tokens important_tokens : list string) : result t :=
  let self := record_document self url tokens important_tokens in
  if decide (max_docs_in_memory self ≤ docs_in_memory self)
  then _offload_to_disk self
  else Ok self.

Definition _save_final_index_from_dict (self : t)
    (index_dict : gmap string (gmap nat Posting)) : t :=
  mk (max_docs_in_memory self) (index self) (doc_ids self) (doc_id_to_url self)
     (next_doc_id self) (docs_in_memory self) (partial_index_count self)
     (mkDisk (partial_dir (disk self)) (Some (json_index index_dict))
             (doc_mapping_json (disk self))).

Definition _save_final_index (self : t) : t :=
  _save_final_index_from_dict self (index self).

Definition _merge_partial_indexes (self : t) : result t :=
  if decide (partial_index_count self = 0) then Ok (_save_final_index self)
  else
    merged_index ← merge_loop (disk self) (seq 0 (partial_index_count self)) ∅;
    Ok (_save_final_index_from_dict self merged_index).

Definition _save_doc_mappings (self : t) : result t :=
  all ← collect_snapshots (disk self) (seq 0 (partial_index_count self)) (∅, ∅);
  let all_doc_ids := dict_update all.1 (doc_ids self) in
  let all_doc_id_to_url := dict_update all.2 (doc_id_to_url self) in
  Ok (mk (max_docs_in_memory self) (index self) (doc_ids self) (doc_id_to_url self)
         (next_doc_id self) (docs_in_memory self) (partial_index_count self)
         (mkDisk (partial_dir (disk self)) (inverted_index_json (disk self))
                 (Some (json_mapping all_doc_ids all_doc_id_to_url)))).

(** [shutil.rmtree(self.partial_index_dir)], guarded by [os.path.exists]. *)
Definition rmtree_partial_dir (self : t) : t :=
  mk (max_docs_in_memory self) (index self) (doc_ids self) (doc_id_to_url self)
     (next_doc_id self) (docs_in_memory self) (partial_index_count self)
     (mkDisk None (inverted_index_json (disk self)) (doc_mapping_json (disk self))).

Definition finalize (self : t) : result t :=
  self ← (if decide (0 < size (index self)) then _offload_to_disk self else Ok self);
  self ← _merge_partial_indexes self;
  self ← _save_doc_mappings self;
  Ok (rmtree_partial_dir self).

Definition get_num_documents (self : t) : nat :=
  if decide (partial_index_count self = 0) then size (doc_ids self)
  else next_doc_id self.

Definition get_partial_index_count (self : t) : nat := partial_index_count self.

(** [get_num_unique_tokens()] for the builder's own output directory:
    the number of keys of the object in the final index file, or of the
    accumulator when that file is not there. *)
Definition get_num_unique_tokens (self : t) : nat :=
  match inverted_index_json (disk self) with
  | None => size (index self)
  | Some index_data => size (list_to_set index_data.*1 : gset string)
  end.

(** A build as [build_index_disk] drives it: the documents are added in
    turn; the first exception ends the run. *)
Fixpoint add_documents (self : t) (docs : list (string * list string * list string))
    : result t :=
  match docs with
  | [] => Ok self
  | (url, tokens, important_tokens) :: docs =>
      self ← add_document self url tokens important_tokens;
      add_documents self docs
  end.

End DiskBasedIndexer.

(** ** Tokenizer and query normalisation *)

Definition is_alnum (c : ascii) : bool :=
  let n := nat_of_ascii c in
  ((48 <=? n) && (n <=? 57)) || ((65 <=? n) && (n <=? 90)) || ((97 <=? n) && (n <=? 122)).

(** [str.lower] on an ASCII character. *)
Definition lower (c : ascii) : ascii :=
  let n := nat_of_ascii c in
  if (65 <=? n) && (n <=? 90) then ascii_of_nat (n + 32) else c.

Definition flush (run : string) : list string :=
  match run with EmptyString => [] | _ => [run] end.

(** [re.findall('[a-zA-Z0-9]+', text)]: the maximal runs, left to right;
    [run] is the run being read. *)
Fixpoint findall_alnum (text run : string) : list string :=
  match text with
  | EmptyString => flush run
  | String c text =>
      if is_alnum c then findall_alnum text (run +:+ String c EmptyString)
      else flush run ++ findall_alnum text EmptyString
  end.

Fixpoint string_map (f : ascii → ascii) (s : string) : string :=
  match s with
  | EmptyString => EmptyString
  | String c s => String (f c) (string_map f s)
  end.

(** [str.lower] on the UTF-8 bytes of a text.  ASCII capitals become
    small letters.  Two characters outside ASCII lower to ASCII letters:
    KELVIN SIGN (U+212A, bytes 226 132 170) becomes [k], and LATIN CAPITAL
    LETTER I WITH DOT ABOVE (U+0130, bytes 196 176) becomes [i] followed by
    U+0307 (bytes 204 135).  Every other character outside ASCII lowers to
    characters outside ASCII, which the token pattern does not match
    either; its bytes are kept as they are. *)
Fixpoint str_lower (text : string) : string :=
  match text with
  | EmptyString => EmptyString
  | String c rest =>
      match rest with
      | EmptyString => String (lower c) EmptyString
      | String c1 rest1 =>
          if decide (c = "196"%char ∧ c1 = "176"%char)
          then String "i"%char (String "204"%char (String "135"%char (str_lower rest1)))
          else
            match rest1 with
            | EmptyString => String (lower c) (str_lower rest)
            | String c2 rest2 =>
                if decide (c = "226"%char ∧ c1 = "132"%char ∧ c2 = "170"%char)
                then String "k"%char (str_lower rest2)
                else String (lower c) (str_lower rest)
            end
      end
  end.

(** [Tokenizer.tokenize] *)
Definition tokenize (text : string) : list string :=
  match text with
  | EmptyString => []
  | _ => findall_alnum (str_lower text) EmptyString
  end.

(** The "Remove duplicates while preserving order" loop of [_process_query]. *)
Fixpoint unique_tokens (seen : gset string) (stemmed_tokens : list string) : list string :=
  match stemmed_tokens with
  | [] => []
  | token :: stemmed_tokens =>
      if decide (token ∈ seen) then unique_tokens seen stemmed_tokens
      else token :: unique_tokens ({[token]} ∪ seen) stemmed_tokens
  end.

(** ** Python's [sorted] and slices *)

(** [sorted] is stable: an element goes behind those that must come before
    it and ahead of everything else it met, so equal keys keep their
    order.  [before y x] says that [y] must come before [x]. *)
Fixpoint insert_sorted {A} (before : A → A → bool) (x : A) (l : list A) : list A :=
  match l with
  | [] => [x]
  | y :: l' => if before y x then y :: insert_sorted before x l' else x :: l
  end.

Definition py_sorted {A} (before : A → A → bool) (l : list A) : list A :=
  foldr (insert_sorted before) [] l.

(** [l[:k]]; a negative [k] counts from the end. *)
Definition py_slice_to {A} (l : list A) (k : Z) : list A :=
  if decide (0 ≤ k)%Z then take (Z.to_nat k) l
  else take (length l - Z.to_nat (- k)) l.

(** Lookup in a dictionary kept as the list of its items. *)
Fixpoint items_get {V} (items : list (string * V)) (key : string) : option V :=
  match items with
  | [] => None
  | (k, v) :: items => if decide (k = key) then Some v else items_get items key
  end.

Global Instance Rlt_decision (x y : R) : Decision (x < y)%R := Rlt_dec x y.
Global Instance R_eq_dec : EqDecision R := Req_dec_T.

(** ** The query engine, [M3SearchEngine]: ranking *)

Module M3SearchEngine.

(** [_calculate_enhanced_tf_idf] *)
Definition _calculate_enhanced_tf_idf (tf df total_docs : nat) (is_important : bool) : R :=
  if decide (df = 0 ∨ total_docs = 0) then 0%R
  else
    let tf_score := if decide (0 < tf) then (1 + ln (INR tf))%R else 0%R in
    let idf_score := (ln (INR (total_docs + 1) / INR (df + 1)) + 1)%R in
    let base_score := (tf_score * idf_score)%R in
    if is_important then (base_score * 2)%R else base_score.

Section Search.

(** [PorterStemmer.stem] of nltk. *)
Variable stem : string → string.

(** The order in which [for doc_id in candidate_docs] visits a set. *)
Variable set_iter : gset nat → list nat.

(** What [self._get_postings(term)] returns for the index on disk: the
    postings by doc-id, each read as the record the builder writes.  The
    reader answers a term the same way in every state it can reach (the
    cache only replays the file), so it enters the ranker as a function of
    the term. *)
Variable _get_postings : string → gmap nat Posting.

(** [self.doc_mappings['id_to_url']] and [self.total_docs]. *)
Variable id_to_url : gmap nat string.
Variable total_docs : nat.

(** [_get_document_frequency]: [df_cache] memoizes this value. *)
Definition _get_document_frequency (term : string) : nat :=
  size (_get_postings term).

Definition _process_query (query : string) : list string :=
  unique_tokens ∅ (stem <$> tokenize query).

(** The "Get postings for each term" loop; the query terms are distinct,
    so every assignment adds a new key. *)
Definition fetch_postings (query_terms : list string) : list (string * gmap nat Posting) :=
  omap (λ term, let postings := _get_postings term in
                if decide (size postings = 0) then None else Some (term, postings))
       query_terms.

(** The loop [for term, postings in sorted_terms[1:]]. *)
Definition intersect_postings (candidate_docs : gset nat)
    (sorted_terms : list (string * gmap nat Posting)) : gset nat :=
  foldl (λ candidate_docs tp, candidate_docs ∩ dom tp.2) candidate_docs sorted_terms.

(** One round of [for term in query_terms] in the scoring loop; the pair
    is [(score, matching_terms)]. *)
Definition score_term (term_postings : list (string * gmap nat Posting)) (doc_id : nat)
    (acc : R * nat) (term : string) : R * nat :=
  match items_get term_postings term ≫= λ postings, postings !! doc_id with
  | Some posting =>
      let df := _get_document_frequency term in
      let term_score :=
        _calculate_enhanced_tf_idf (tf posting) df total_docs (is_important posting) in
      ((acc.1 + term_score)%R, S acc.2)
  | None => acc
  end.

(** The body of [for doc_id in candidate_docs]. *)
Definition doc_score (query_terms : list string)
    (term_postings : list (string * gmap nat Posting)) (doc_id : nat) : R :=
  let '(score, matching_terms) := foldl (score_term term_postings doc_id) (0%R, 0) query_terms in
  let score := if decide (matching_terms = length query_terms) then (score * 1.15)%R else score in
  if decide (1 < length query_terms) then (score / sqrt (INR (length query_terms)))%R
  else score.

(** [sorted(doc_scores.items(), key=lambda x: x[1], reverse=True)], or the
    empty list on the early returns of [search]. *)
Definition sorted_docs (query : string) : list (nat * R) :=
  let query_terms := _process_query query in
  match query_terms with
  | [] => []
  | _ =>
    let term_postings := fetch_postings query_terms in
    match py_sorted (λ y x, bool_decide (size y.2 < size x.2)) term_postings with
    | [] => []
    | (first_term, first_postings) :: rest =>
        let candidate_docs := intersect_postings (dom first_postings) rest in
        if decide (candidate_docs = ∅) then []
        else
          let doc_scores :=
            (λ doc_id, (doc_id, doc_score query_terms term_postings doc_id))
              <$> set_iter candidate_docs in
          py_sorted (λ y x, bool_decide (x.2 < y.2)%R) doc_scores
    end
  end.

(** [search] *)
Definition search (query : string) (top_k : Z) : list (string * R) :=
  omap (λ ds, (λ url, (url, ds.2)) <$> id_to_url !! ds.1)
       (py_slice_to (sorted_docs query) top_k).

End Search.

End M3SearchEngine.

(** ** The query engine: start-up and the posting reader *)

(** A value returned by [json.loads]. *)
#[warnings="-register-all"]
Inductive Json : Type :=
| JNull
| JBool (b : bool)
| JNumber (n : Z)
| JString (s : string)
| JArray (items : list Json)
| JObject (members : list (string * Json)).

(** Python's truth value, as in [if term_data:]. *)
Definition truthy (v : option Json) : bool :=
  match v with
  | None | Some JNull => false
  | Some (JBool b) => b
  | Some (JNumber n) => bool_decide (n ≠ 0%Z)
  | Some (JString s) => bool_decide (s ≠ EmptyString)
  | Some (JArray items) => bool_decide (items ≠ [])
  | Some (JObject members) => bool_decide (members ≠ [])
  end.

(** [v.get(key, {})]; only a dictionary has [get]. *)
Definition json_get (v : Json) (key : string) : result Json :=
  match v with
  | JObject members => Ok (default (JObject []) (items_get members key))
  | _ => Raise AttributeError
  end.

(** [v.items()] *)
Definition json_items (v : Json) : result (list (string * Json)) :=
  match v with
  | JObject members => Ok members
  | _ => Raise AttributeError
  end.

Definition dquote : string := String (ascii_of_nat 34) EmptyString.

(** ['{' + f'"{term}": {obj}' + '}'] *)
Definition wrap_term (term obj : string) : string :=
  "{" +:+ dquote +:+ term +:+ dquote +:+ ": " +:+ obj +:+ "}".

(** [s.find(c, start)] for a single character. *)
Fixpoint find_char (c : ascii) (s : string) (start i : N) : option N :=
  match s with
  | EmptyString => None
  | String a s =>
      if bool_decide (start ≤ i)%N && bool_decide (a = c) then Some i
      else find_char c s start (N.succ i)
  end.

Fixpoint drop_string (n : nat) (s : string) : string :=
  match n, s with
  | S n, String _ s => drop_string n s
  | _, _ => s
  end.

(** The directory the engine is pointed at: the text of
    [inverted_index.json] and the value in [doc_mapping.json], each [None]
    when the file is missing. *)
Record IndexDir : Type := mkIndexDir {
  index_file : option string;
  doc_mapping_file : option MappingJson }.

Module Reader.

Record t : Type := mk {
  id_to_url : gmap nat string;
  total_docs : nat;
  df_cache : gmap string nat;
  postings_cache : list (string * gmap nat Json);
  cache_max_size : nat;
  index_file_size : nat }.

Section Reader.

(** [re.search(pattern, file_content)] for the pattern [_extract_term_from_json]
    builds from the term: the start of the match and its group 1, or
    [None] when the pattern matches nowhere. *)
Variable re_search : string → string → option (N * string).

(** [json.loads]; [None] stands for [JSONDecodeError]. *)
Variable json_loads : string → option Json.

(** The [while] loop of [_extract_term_robust]: [rest] is the text from
    position [i] on, [taken] the text from [brace_start] up to [i]. *)
Fixpoint match_braces (term : string) (rest : string) (i limit : N) (brace_count : Z)
    (taken : string) : result (option Json) :=
  match rest with
  | EmptyString => Ok None
  | String c rest =>
      if decide (limit ≤ i)%N then Ok None
      else
        let taken := taken +:+ String c EmptyString in
        if decide (c = "{"%char) then match_braces term rest (N.succ i) limit (brace_count + 1) taken
        else if decide (c = "}"%char) then
          let brace_count := (brace_count - 1)%Z in
          if decide (brace_count = 0%Z) then
            match json_loads (wrap_term term taken) with
            | Some term_data => Some <$> json_get term_data term
            | None => Ok None
            end
          else match_braces term rest (N.succ i) limit brace_count taken
        else match_braces term rest (N.succ i) limit brace_count taken
  end.

Definition _extract_term_robust (term file_content : string) (start_pos : N)
    : result (option Json) :=
  match find_char "{"%char file_content start_pos 0 with
  | None => Ok None
  | Some brace_start =>
      match_braces term (drop_string (N.to_nat brace_start) file_content) brace_start
                   (brace_start + 200000)%N 0 EmptyString
  end.

Definition _extract_term_from_json (term file_content : string) : result (option Json) :=
  match re_search term file_content with
  | None => Ok None
  | Some (start, term_json_str) =>
      match json_loads (wrap_term term term_json_str) with
      | Some term_data => Some <$> json_get term_data term
      | None => _extract_term_robust term file_content start
      end
  end.

(** The "Convert to our format" loop. *)
Fixpoint convert_postings (items : list (string * Json)) (postings : gmap nat Json)
    : result (gmap nat Json) :=
  match items with
  | [] => Ok postings
  | (doc_id_str, posting_data) :: items =>
      doc_id ← py_int doc_id_str;
      convert_postings items (<[doc_id := posting_data]> postings)
  end.

(** The [try] block of [_get_postings_from_disk], after the file was read. *)
Definition read_postings (self : t) (term content : string) : result (gmap nat Json * t) :=
  term_data ← _extract_term_from_json term content;
  if truthy term_data then
    items ← json_items (default JNull term_data);
    postings ← convert_postings items ∅;
    cache ←
      (if decide (cache_max_size self ≤ length (postings_cache self))
       then match postings_cache self with
            | [] => Raise StopIteration
            | _ :: cache => Ok cache
            end
       else Ok (postings_cache self));
    Ok (postings, mk (id_to_url self) (total_docs self) (df_cache self)
                     (cache ++ [(term, postings)]) (cache_max_size self)
                     (index_file_size self))
  else Ok (∅, self).

Definition _get_postings_from_disk (d : IndexDir) (self : t) (term : string)
    : gmap nat Json * t :=
  match items_get (postings_cache self) term with
  | Some postings => (postings, self)
  | None =>
      match index_file d with
      | None => (∅, self)
      | Some content =>
          match read_postings self term content with
          | Ok r => r
          | Raise _ => (∅, self)
          end
      end
  end.

(** [_load_doc_mappings]: the dictionary [id_to_url] with its keys turned
    into ints. *)
Fixpoint int_keys (items : list (string * string)) (m : gmap nat string)
    : result (gmap nat string) :=
  match items with
  | [] => Ok m
  | (k, v) :: items => doc_id ← py_int k; int_keys items (<[doc_id := v]> m)
  end.

Definition __init__ (d : IndexDir) : result t :=
  let index_file_size := default 0 (String.length <$> index_file d) in
  match doc_mapping_file d with
  | None => Raise FileNotFoundError
  | Some data =>
      id_to_url ← int_keys (json_id_to_url data) ∅;
      Ok (mk id_to_url (length (json_url_to_id data)) ∅ [] 500 index_file_size)
  end.

(** The engine states a run can be in: the fresh one, and those reached
    by posting lookups. *)
Inductive reachable (d : IndexDir) : t → Prop :=
| reachable_init self : __init__ d = Ok self → reachable d self
| reachable_lookup self term :
    reachable d self → reachable d (_get_postings_from_disk d self term).2.

End Reader.

End Reader.

(** The posting a segment file holds for a term and a document. *)
Definition segment_posting (data : IndexJson) (term : string) (doc_id : nat)
    : option Posting :=
  items_get data term ≫= λ postings, items_get postings (py_str doc_id).

(** Where [add_document] left the posting of a term: in the accumulator,
    or, when the call spilled, in the segment file it wrote. *)
Definition stored_posting (before after : DiskBasedIndexer.t)
    (term : string) (doc_id : nat) : option Posting :=
  if decide (DiskBasedIndexer.partial_index_count after
             = DiskBasedIndexer.partial_index_count before)
  then posting_of (DiskBasedIndexer.index after) term doc_id
  else
    dir ← partial_dir (DiskBasedIndexer.disk after);
    data ← partial_index_files dir
             !! partial_index_name (DiskBasedIndexer.partial_index_count before);
    segment_posting data term doc_id.

(** Every posting of an accumulator counts at least one occurrence. *)
Definition tf_positive (index : gmap string (gmap nat Posting)) : Prop :=
  ∀ term doc_id p, posting_of index term doc_id = Some p → 1 ≤ tf p.

(** The posting [add_document] computes for a term of the document. *)
Definition document_posting (tokens important_tokens : list string) (term : string)
    : Posting :=
  mkPosting (occurrences term tokens + occurrences term important_tokens)
            (bool_decide (term ∈ important_tokens)).

(** ** The coalescing rule, as the specification words it *)

(** The postings a segment file lists under a term for a document, in file
    order: those whose key reads as the document's id. *)
Definition postings_entries (postings : list (string * Posting)) (doc_id : nat)
    : list Posting :=
  omap (λ kv, match py_int kv.1 with
              | Ok d => if decide (d = doc_id) then Some kv.2 else None
              | Raise _ => None
              end) postings.

Definition segment_entries (data : IndexJson) (term : string) (doc_id : nat)
    : list Posting :=
  data ≫= λ tp, if decide (tp.1 = term) then postings_entries tp.2 doc_id else [].

Definition segments_entries (segments : list IndexJson) (term : string) (doc_id : nat)
    : list Posting :=
  segments ≫= λ data, segment_entries data term doc_id.

(** [tf := sum of tfs; is_important := logical-OR of is_importants]; no
    posting when no segment has one. *)
Definition coalesce (entries : list Posting) : option Posting :=
  match entries with
  | [] => None
  | _ => Some (mkPosting (sum_list (tf <$> entries)) (existsb is_important entries))
  end.

(** Merging a run of postings into what is there: [None] stays [None]
    only when the run is empty. *)
Definition fold_entries (existing : option Posting) (entries : list Posting)
    : option Posting :=
  foldl (λ o p, Some (merge_posting (default default_posting o) p)) existing entries.

(** ** Sample builds *)

(** The document of the importance-boost scenario: body "alpha beta",
    heading "alpha". *)
Definition boost_before : DiskBasedIndexer.t :=
  DiskBasedIndexer.__init__ empty_disk 2.

Definition boost_after : DiskBasedIndexer.t :=
  DiskBasedIndexer.mk 2
    {[ "alpha" := {[ 0 := mkPosting 2 true ]}; "beta" := {[ 0 := mkPosting 1 false ]} ]}
    {[ "http://a/x" := 0 ]} {[ 0 := "http://a/x" ]} 1 1 0
    (mkDisk (Some (mkPartialDir ∅ ∅)) None None).

(** One URL indexed in two spill windows: the body token "a" first, the
    heading token "a" after the first spill. *)
Definition readded_docs : list (string * list string * list string) :=
  [("http://a/x", ["a"], []); ("http://a/x", [], ["a"])].

Definition readded_mapping : MappingJson :=
  mkMappingJson [("http://a/x", 0)] [("0", "http://a/x")].

Definition readded_built : DiskBasedIndexer.t :=
  DiskBasedIndexer.mk 1 ∅ {[ "http://a/x" := 0 ]} {[ 0 := "http://a/x" ]} 1 0 2
    (mkDisk
       (Some (mkPartialDir
          {[ "partial_index_000.json" := [("a", [("0", mkPosting 1 false)])];
             "partial_index_001.json" := [("a", [("0", mkPosting 1 true)])] ]}
          {[ "partial_mapping_000.json" := readded_mapping;
             "partial_mapping_001.json" := readded_mapping ]}))
       None None).

Definition readded_merged : DiskBasedIndexer.t :=
  DiskBasedIndexer.mk 1 ∅ {[ "http://a/x" := 0 ]} {[ 0 := "http://a/x" ]} 1 0 2
    (mkDisk (partial_dir (DiskBasedIndexer.disk readded_built))
            (Some [("a", [("0", mkPosting 2 true)])]) None).

(** A page without any alphanumeric text, added to a fresh builder with
    threshold 1. *)
Definition blank_after : DiskBasedIndexer.t :=
  DiskBasedIndexer.mk 1 ∅ {[ "http://a/blank" := 0 ]} {[ 0 := "http://a/blank" ]} 1 1 0
    (mkDisk (Some (mkPartialDir ∅ ∅)) None None).

(** ** Builds *)

(** [ceil(n / d)] *)
Definition ceil_div (n d : nat) : nat := (n + d - 1) / d.

(** A document with at least one token in one of its streams. *)
Definition has_token (doc : string * list string * list string) : Prop :=
  doc.1.2 ≠ [] ∨ doc.2 ≠ [].

(** The segment files and mapping snapshots the builder counts are in the
    partial-index directory and are of its own making. *)
Definition segments_written (self : DiskBasedIndexer.t) : Prop :=
  ∃ dir,
    partial_dir (DiskBasedIndexer.disk self) = Some dir
    ∧ ∀ i, i < DiskBasedIndexer.partial_index_count self →
        (∃ index, partial_index_files dir !! partial_index_name i = Some (json_index index))
        ∧ (∃ doc_ids doc_id_to_url,
             partial_mapping_files dir !! partial_mapping_name i
             = Some (json_mapping doc_ids doc_id_to_url)).

(** After [k] documents with tokens, under threshold [T]: [k div T] spills
    have run and [k mod T] documents are in memory. *)
Definition spill_count_inv (T k : nat) (self : DiskBasedIndexer.t) : Prop :=
  DiskBasedIndexer.max_docs_in_memory self = T
  ∧ DiskBasedIndexer.next_doc_id self ≤ k
  ∧ size (DiskBasedIndexer.doc_ids self) ≤ k
  ∧ ∃ q r,
      k = q * T + r ∧ r < T
      ∧ DiskBasedIndexer.partial_index_count self = q
      ∧ DiskBasedIndexer.docs_in_memory self = r
      ∧ (r = 0 ↔ DiskBasedIndexer.index self = ∅).

(** Two pages without text, then one with the word "a", under threshold 2. *)
Definition blank_docs : list (string * list string * list string) :=
  [("http://a/1", [], []); ("http://a/2", [], []); ("http://a/3", ["a"], [])].

Definition blank_built : DiskBasedIndexer.t :=
  DiskBasedIndexer.mk 2 ∅
    {[ "http://a/1" := 0; "http://a/2" := 1; "http://a/3" := 2 ]}
    {[ 0 := "http://a/1"; 1 := "http://a/2"; 2 := "http://a/3" ]} 3 0 1
    (mkDisk
       (Some (mkPartialDir
          {[ "partial_index_000.json" := [("a", [("2", mkPosting 1 false)])] ]}
          {[ "partial_mapping_000.json" := json_mapping
               {[ "http://a/1" := 0; "http://a/2" := 1; "http://a/3" := 2 ]}
               {[ 0 := "http://a/1"; 1 := "http://a/2"; 2 := "http://a/3" ]} ]}))
       None None).

Definition blank_final : DiskBasedIndexer.t :=
  DiskBasedIndexer.mk 2 ∅
    {[ "http://a/1" := 0; "http://a/2" := 1; "http://a/3" := 2 ]}
    {[ 0 := "http://a/1"; 1 := "http://a/2"; 2 := "http://a/3" ]} 3 0 1
    (mkDisk None
       (Some [("a", [("2", mkPosting 1 false)])])
       (Some (json_mapping
               {[ "http://a/1" := 0; "http://a/2" := 1; "http://a/3" := 2 ]}
               {[ 0 := "http://a/1"; 1 := "http://a/2"; 2 := "http://a/3" ]}))).

(** ** The scoring formula, as the specification words it *)

(** [tf_weight(t,d) = 1 + ln(tf)] if [tf > 0], else [0]. *)
Definition tf_weight (tf : nat) : R :=
  if decide (0 < tf) then (1 + ln (INR tf))%R else 0%R.

(** [idf(t) = ln((N + 1) / (df(t) + 1)) + 1] *)
Definition idf (N df : nat) : R := (ln ((INR N + 1) / (INR df + 1)) + 1)%R.

(** [boost(t,d) = 2.0] if the posting is flagged important, else [1.0]. *)
Definition boost (important : bool) : R := if important then 2%R else 1%R.

Definition sum_R (l : list R) : R := foldr Rplus 0%R l.

Section Formula.

Variable postings : string → gmap nat Posting.
Variable N : nat.

(** [Q']: the query terms whose posting list contains the document. *)
Definition matched_terms (query_terms : list string) (doc_id : nat) : list string :=
  filter (λ t, is_Some (postings t !! doc_id)) query_terms.

(** [boost(t,d) · tf_weight(t,d) · idf(t)], with [df(t)] the length of the
    posting list. *)
Definition term_weight (doc_id : nat) (term : string) : R :=
  match postings term !! doc_id with
  | Some p => (boost (is_important p) * tf_weight (tf p) * idf N (size (postings term)))%R
  | None => 0%R
  end.

(** [score(d) = 1.15 · (1 / sqrt(q')) · Σ_{t ∈ Q'} boost · tf_weight · idf] *)
Definition spec_score (query_terms : list string) (doc_id : nat) : R :=
  let Q' := matched_terms query_terms doc_id in
  (1.15 * (1 / sqrt (INR (length Q'))) * sum_R (term_weight doc_id <$> Q'))%R.

(** The same with the bonus gated on a complete match and the
    normalisation by the number [q] of query terms. *)
Definition gated_score (query_terms : list string) (doc_id : nat) : R :=
  let Q' := matched_terms query_terms doc_id in
  ((if decide (length Q' = length query_terms) then 1.15 else 1)
   * (1 / sqrt (INR (length query_terms)))
   * sum_R (term_weight doc_id <$> Q'))%R.

End Formula.

(** ** A sample index *)

(** CPython keeps a set of a few small ints in a table of eight slots, the
    int [n] in slot [n mod 8], and iterates over the slots in order; this
    is the order for sets whose members fall into different slots. *)
Definition slot_order (s : gset nat) : list nat :=
  py_sorted (λ y x, bool_decide (y mod 8 < x mod 8)) (elements s).

(** Nine documents, "cat" once in the body of documents 1 and 8. *)
Definition pets_index : gmap string (gmap nat Posting) :=
  {[ "cat" := {[ 1 := mkPosting 1 false; 8 := mkPosting 1 false ]} ]}.

Definition pets_postings (term : string) : gmap nat Posting :=
  default ∅ (pets_index !! term).

Definition pets_urls : gmap nat string :=
  list_to_map ((λ i, (i, "http://a/" +:+ py_str i)) <$> seq 0 9).

(** The same mapping without an entry for document 8. *)
Definition pets_urls_short : gmap nat string := delete 8 pets_urls.

(** Porter's algorithm leaves the words "cat" and "zzz" as they are. *)
Definition stem_unchanged (token : string) : string := token.

(** The score of document 1 for the query "cat", and for the query
    "cat zzz", whose second term is in no document. *)
Definition pets_score : R := gated_score pets_postings 9 ["cat"] 1.
Definition pets_score_dropped : R := gated_score pets_postings 9 ["cat"; "zzz"] 1.

(** ** Sample index directories *)

(** A directory with a doc mapping and no [inverted_index.json], and the
    engine [__init__] builds on it. *)
Definition no_index_dir : IndexDir := mkIndexDir None (Some readded_mapping).

Definition no_index_engine : Reader.t :=
  Reader.mk {[ 0 := "http://a/x" ]} 1 ∅ [] 500 0.

(** The extraction found a posting list: a non-empty object whose keys
    all read as doc-ids. *)
Definition found_postings (term_data : result (option Json)) : Prop :=
  ∃ members,
    term_data = Ok (Some (JObject members))
    ∧ members ≠ []
    ∧ Forall (λ key, is_Ok (py_int key)) members.*1.

(** Every cached term was found in the index file, with a posting list. *)
Definition cache_from_index (re_search : string → string → option (N * string))
    (json_loads : string → option Json) (d : IndexDir) (self : Reader.t) : Prop :=
  ∀ term, term ∈ (Reader.postings_cache self).*1 →
    ∃ content,
      index_file d = Some content
      ∧ found_postings (Reader._extract_term_from_json re_search json_loads term content).

(** What a lookup of [term] reads from the index file when the cache has
    no entry for it. *)
Definition read_term (re_search : string → string → option (N * string))
    (json_loads : string → option Json) (d : IndexDir) (term : string)
    : gmap nat Json :=
  match index_file d with
  | None => ∅
  | Some content =>
      match
        term_data ← Reader._extract_term_from_json re_search json_loads term content;
        if truthy term_data then
          items ← json_items (default JNull term_data);
          Reader.convert_postings items ∅
        else Ok ∅
      with
      | Ok postings => postings
      | Raise _ => ∅
      end
  end.

(** The cache only replays what was read. *)
Definition cache_replays (re_search : string → string → option (N * string))
    (json_loads : string → option Json) (d : IndexDir) (self : Reader.t) : Prop :=
  0 < Reader.cache_max_size self
  ∧ ∀ term postings, (term, postings) ∈ Reader.postings_cache self →
      postings = read_term re_search json_loads d term.

(** ** Token lists as text *)

(** A character of a token: a digit or a lowercase letter. *)
Definition is_token_char (c : ascii) : bool :=
  let n := nat_of_ascii c in
  ((48 <=? n) && (n <=? 57)) || ((97 <=? n) && (n <=? 122)).

(** A character that is no capital letter: if the token pattern matches
    it, it is a character of a token. *)
Definition no_capital (c : ascii) : bool := implb (is_alnum c) (is_token_char c).

Definition is_ascii_byte (c : ascii) : bool := nat_of_ascii c <? 128.

Fixpoint string_forall (P : ascii → bool) (s : string) : bool :=
  match s with
  | EmptyString => true
  | String c s => P c && string_forall P s
  end.

Fixpoint string_filter (P : ascii → bool) (s : string) : string :=
  match s with
  | EmptyString => EmptyString
  | String c s => if P c then String c (string_filter P s) else string_filter P s
  end.

(** [''.join(tokens)] and [' '.join(tokens)] *)
Definition join_empty (tokens : list string) : string :=
  foldr String.append EmptyString tokens.

Fixpoint join_space (tokens : list string) : string :=
  match tokens with
  | [] => EmptyString
  | [token] => token
  | token :: tokens => token +:+ " " +:+ join_space tokens
  end.

(** ** Matching documents *)

(** A document matches a query when some query term has a posting list
    and the document is in the posting list of every query term that has
    one. *)
Definition matches_query (_get_postings : string → gmap nat Posting)
    (query_terms : list string) (doc_id : nat) : Prop :=
  (∃ t, t ∈ query_terms ∧ _get_postings t ≠ ∅)
  ∧ ∀ t, t ∈ query_terms → _get_postings t ≠ ∅ → is_Some (_get_postings t !! doc_id).

(** ** A sample index file *)

(** The index file [{"cat": {"1": {"tf": 1, "is_important": false}}}]. *)
Definition cat_postings_text : string :=
  "{" +:+ dquote +:+ "1" +:+ dquote +:+ ": {" +:+ dquote +:+ "tf" +:+ dquote +:+ ": 1, "
  +:+ dquote +:+ "is_important" +:+ dquote +:+ ": false}}".

Definition cat_index_text : string := wrap_term "cat" cat_postings_text.

Definition cat_index_dir : IndexDir := mkIndexDir (Some cat_index_text) (Some readded_mapping).

(** On this file the term pattern matches for "cat" at offset 1; its
    group stops at the first closing brace, one brace short of the
    object. *)
Definition cat_search (term file_content : string) : option (N * string) :=
  if decide (term = "cat" ∧ file_content = cat_index_text)
  then Some (1%N, "{" +:+ dquote +:+ "1" +:+ dquote +:+ ": {" +:+ dquote +:+ "tf" +:+ dquote
                  +:+ ": 1, " +:+ dquote +:+ "is_important" +:+ dquote +:+ ": false}")
  else None.

(** [json.loads] on the two texts the reader hands it for this file: the
    complete object parses, the truncated one does not. *)
Definition cat_loads (text : string) : option Json :=
  if decide (text = cat_index_text)
  then Some (JObject [("cat", JObject [("1", JObject [("tf", JNumber 1);
                                                        ("is_important", JBool false)])])])
  else None.

(** The posting record of document 1 in that file. *)
Definition cat_record_text : string :=
  "{" +:+ dquote +:+ "tf" +:+ dquote +:+ ": 1, "
  +:+ dquote +:+ "is_important" +:+ dquote +:+ ": false}".

(** The same file looked up for "1", which is no term of the index: the
    term pattern matches at offset 9, at the doc-id key in the posting
    list of "cat"; its group is the posting record, and the text handed
    to [json.loads] parses to an object with that record under "1". *)
Definition doc_id_search (term file_content : string) : option (N * string) :=
  if decide (term = "1" ∧ file_content = cat_index_text)
  then Some (9%N, cat_record_text)
  else cat_search term file_content.

Definition doc_id_loads (text : string) : option Json :=
  if decide (text = wrap_term "1" cat_record_text)
  then Some (JObject [("1", JObject [("tf", JNumber 1); ("is_important", JBool false)])])
  else cat_loads text.

(** The engine started on this directory, and the engine after it has
    looked "cat" up. *)
Definition cat_engine : Reader.t :=
  Reader.mk {[ 0 := "http://a/x" ]} 1 ∅ [] 500 (String.length cat_index_text).

Definition cat_postings : gmap nat Json :=
  {[ 1 := JObject [("tf", JNumber 1); ("is_important", JBool false)] ]}.

Definition cat_engine_warm : Reader.t :=
  Reader.mk {[ 0 := "http://a/x" ]} 1 ∅ [("cat", cat_postings)] 500
    (String.length cat_index_text).

(** The cache invariant of the reader. *)
Definition cache_bounded (self : Reader.t) : Prop :=
  Reader.cache_max_size self = 500
  ∧ length (Reader.postings_cache self) ≤ 500
  ∧ NoDup (Reader.postings_cache self).*1
  ∧ ∀ term postings, (term, postings) ∈ Reader.postings_cache self → postings ≠ ∅.

(** ** What a build keeps *)

(** The in-memory builder run over the documents, as [build_index] drives
    it. *)
Definition analyst_add_documents (self : InvertedIndex.t)
    (docs : list (string * list string * list string)) : InvertedIndex.t :=
  foldl (λ self doc, InvertedIndex.add_document self doc.1.1 doc.1.2 doc.2) self docs.

(** The doc-id bookkeeping: the two mappings are inverse to one another
    and the ids handed out are the numbers below [next_doc_id]. *)
Definition ids_consistent (self : DiskBasedIndexer.t) : Prop :=
  (∀ url i, DiskBasedIndexer.doc_ids self !! url = Some i
            ↔ DiskBasedIndexer.doc_id_to_url self !! i = Some url)
  ∧ (∀ i, is_Some (DiskBasedIndexer.doc_id_to_url self !! i)
          ↔ i < DiskBasedIndexer.next_doc_id self)
  ∧ size (DiskBasedIndexer.doc_ids self) = DiskBasedIndexer.next_doc_id self.

(** The accumulators spilled so far, oldest first, are what the segment
    files hold, and the snapshots beside them are parts of the mappings
    the builder has. *)
Definition spilled (self : DiskBasedIndexer.t)
    (segs : list (gmap string (gmap nat Posting))) : Prop :=
  length segs = DiskBasedIndexer.partial_index_count self
  ∧ ∃ dir,
      partial_dir (DiskBasedIndexer.disk self) = Some dir
      ∧ (∀ i index, segs !! i = Some index →
           partial_index_files dir !! partial_index_name i = Some (json_index index))
      ∧ (∀ i, i < DiskBasedIndexer.partial_index_count self →
           ∃ doc_ids doc_id_to_url,
             partial_mapping_files dir !! partial_mapping_name i
             = Some (json_mapping doc_ids doc_id_to_url)
             ∧ doc_ids ⊆ DiskBasedIndexer.doc_ids self
             ∧ doc_id_to_url ⊆ DiskBasedIndexer.doc_id_to_url self).

(** Every posting of an accumulator is for a doc-id handed out and counts
    at least one occurrence. *)
Definition postings_bounded (next_doc_id : nat) (index : gmap string (gmap nat Posting))
    : Prop :=
  ∀ term doc_id p, posting_of index term doc_id = Some p → doc_id < next_doc_id ∧ 1 ≤ tf p.

Definition build_inv (self : DiskBasedIndexer.t)
    (segs : list (gmap string (gmap nat Posting))) : Prop :=
  ids_consistent self ∧ spilled self segs
  ∧ Forall (postings_bounded (DiskBasedIndexer.next_doc_id self))
           (segs ++ [DiskBasedIndexer.index self]).

(** The postings a list of accumulators holds for a term and a document,
    in the order of the accumulators. *)
Definition accumulator_entries (indexes : list (gmap string (gmap nat Posting)))
    (term : string) (doc_id : nat) : list Posting :=
  indexes ≫= λ index, option_list (posting_of index term doc_id).

(** [InvertedIndex.save_to_disk]: both files are written into the output
    directory, whatever it held. *)
Definition analyst_save_to_disk (self : InvertedIndex.t) (d : Disk) : Disk :=
  mkDisk (partial_dir d)
         (Some (json_index (InvertedIndex.index self)))
         (Some (json_mapping (InvertedIndex.doc_ids self) (InvertedIndex.doc_id_to_url self))).

(** The disk-based builder and the in-memory builder have numbered the
    same documents, and the accumulators of the former hold, for a term
    and a document, the one posting the latter holds. *)
Definition same_postings (self : DiskBasedIndexer.t)
    (segs : list (gmap string (gmap nat Posting))) (analyst : InvertedIndex.t) : Prop :=
  DiskBasedIndexer.doc_ids self = InvertedIndex.doc_ids analyst
  ∧ DiskBasedIndexer.doc_id_to_url self = InvertedIndex.doc_id_to_url analyst
  ∧ DiskBasedIndexer.next_doc_id self = InvertedIndex.next_doc_id analyst
  ∧ ∀ term doc_id,
      accumulator_entries (segs ++ [DiskBasedIndexer.index self]) term doc_id
      = option_list (posting_of (InvertedIndex.index analyst) term doc_id).

(** Two pages with different URLs. *)
Definition two_docs : list (string * list string * list string) :=
  [("http://a/1", ["cat"; "cat"], ["cat"]); ("http://a/2", ["dog"], [])].

(** The same build after [finalize]. *)
Definition readded_final : DiskBasedIndexer.t :=
  DiskBasedIndexer.mk 1 ∅ {[ "http://a/x" := 0 ]} {[ 0 := "http://a/x" ]} 1 0 2
    (mkDisk None (Some [("a", [("0", mkPosting 2 true)])]) (Some readded_mapping)).

(** ** The build script, [build_index_disk.py] *)

(** ['#' in url] *)
Fixpoint has_hash (url : string) : bool :=
  match url with
  | EmptyString => false
  | String c url => if decide (c = "#"%char) then true else has_hash url
  end.

(** [url.split('#')[0]]: the text before the first ['#']. *)
Fixpoint before_hash (url : string) : string :=
  match url with
  | EmptyString => EmptyString
  | String c url => if decide (c = "#"%char) then EmptyString else String c (before_hash url)
  end.

(** "Remove fragment part from URL" in [process_json_file]. *)
Definition strip_fragment (url : string) : string :=
  if has_hash url then before_hash url else url.

(** The threshold the script picks for a data directory with
    [total_files] JSON files. *)
Definition choose_max_docs (total_files : N) : N :=
  if decide (20000 < total_files)%N then N.max 5000 (total_files / 10)
  else if decide (10000 < total_files)%N then N.max 3000 (total_files / 8)
  else if decide (5000 < total_files)%N then N.max 1500 (total_files / 4)
  else N.max 300 (total_files / 4).

(** Every term of an index has a posting. *)
Definition inner_nonempty (index : gmap string (gmap nat Posting)) : Prop :=
  ∀ term postings, index !! term = Some postings → postings ≠ ∅.

(** The terms of the documents, body and important tokens alike. *)
Definition all_tokens (docs : list (string * list string * list string)) : list string :=
  docs ≫= λ doc, doc.1.2 ++ doc.2.

(** * Properties *)

(** ** The error monad *)

Lemma bind_Ok {A B} (f : A → result B) (m : result A) (b : B) :
  m ≫= f = Ok b ↔ ∃ a, m = Ok a ∧ f a = Ok b.
Proof.
  destruct m as [a|e]; simpl.
  - split; [eauto|]. by intros (? & [= ->] & ?).
  - split; [intros [=] | intros (? & [=] & ?)].
Qed.

Ltac inv_Ok :=
  repeat match goal with
  | H : _ ≫= _ = Ok _ |- _ => apply bind_Ok in H; destruct H as (? & ? & H)
  | H : Ok _ = Ok _ |- _ => injection H as H; try subst
  | H : Raise _ = Ok _ |- _ => discriminate H
  end.

(** ** Counting tokens *)

Lemma occurrences_cons term token tokens :
  occurrences term (token :: tokens)
  = (if decide (token = term) then 1 else 0) + occurrences term tokens.
Proof. unfold occurrences. rewrite filter_cons. by case_decide. Qed.

Lemma occurrences_pos term tokens : 0 < occurrences term tokens ↔ term ∈ tokens.
Proof.
  induction tokens as [|token tokens IH].
  { rewrite elem_of_nil. unfold occurrences. simpl. lia. }
  rewrite occurrences_cons, elem_of_cons. case_decide; subst.
  - split; [auto | lia].
  - simpl. rewrite IH. split; [by right | by intros [->|?]].
Qed.

Lemma count_tokens_from (counts : gmap string nat) tokens term :
  default 0 (foldl (λ counts token, <[token := S (default 0 (counts !! token))]> counts)
                   counts tokens !! term)
  = default 0 (counts !! term) + occurrences term tokens.
Proof.
  revert counts. induction tokens as [|token tokens IH]; intros counts; simpl.
  - unfold occurrences. simpl. lia.
  - rewrite IH, occurrences_cons. case_decide; subst.
    + rewrite lookup_insert_eq. simpl. lia.
    + by rewrite lookup_insert_ne.
Qed.

Lemma count_tokens_lookup tokens term :
  default 0 (count_tokens tokens !! term) = occurrences term tokens.
Proof. unfold count_tokens. by rewrite count_tokens_from, lookup_empty. Qed.

(** ** Writing the postings of a document *)

Lemma posting_of_set_posting index term doc_id p term' doc_id' :
  posting_of (set_posting index term doc_id p) term' doc_id'
  = if decide (term = term' ∧ doc_id = doc_id') then Some p
    else posting_of index term' doc_id'.
Proof.
  unfold posting_of, set_posting.
  destruct (decide (term = term')) as [->|Hterm].
  - rewrite lookup_insert_eq. simpl.
    destruct (decide (doc_id = doc_id')) as [->|Hdoc].
    + rewrite lookup_insert_eq. by rewrite decide_True.
    + rewrite lookup_insert_ne by done. rewrite decide_False by (by intros [_ ?]).
      destruct (index !! term') as [postings|]; simpl; [done|apply lookup_empty].
  - rewrite lookup_insert_ne by done. by rewrite decide_False by (by intros [? _]).
Qed.

Lemma post_token_posting doc_id tokens important_tokens index token term doc_id' :
  posting_of (post_token doc_id (count_tokens tokens) (count_tokens important_tokens)
                         (list_to_set important_tokens) index token) term doc_id'
  = if decide (token = term ∧ doc_id = doc_id')
    then Some (document_posting tokens important_tokens term)
    else posting_of index term doc_id'.
Proof.
  unfold post_token. rewrite posting_of_set_posting.
  case_decide as Heq; [|done]. destruct Heq as [-> ->].
  rewrite !count_tokens_lookup. unfold document_posting. f_equal.
  rewrite (bool_decide_ext (term ∈ list_to_set important_tokens) (term ∈ important_tokens))
    by apply elem_of_list_to_set.
  rewrite (bool_decide_ext (0 < occurrences term important_tokens) (term ∈ important_tokens))
    by apply occurrences_pos.
  by rewrite orb_diag.
Qed.

Lemma post_tokens_posting index doc_id tokens important_tokens term doc_id' :
  posting_of (post_tokens index doc_id tokens important_tokens) term doc_id'
  = if decide (term ∈ tokens ++ important_tokens ∧ doc_id = doc_id')
    then Some (document_posting tokens important_tokens term)
    else posting_of index term doc_id'.
Proof.
  unfold post_tokens.
  assert (Hall : ∀ l index,
    posting_of (foldl (post_token doc_id (count_tokens tokens)
                         (count_tokens important_tokens)
                         (list_to_set important_tokens)) index l) term doc_id'
    = if decide (term ∈ l ∧ doc_id = doc_id')
      then Some (document_posting tokens important_tokens term)
      else posting_of index term doc_id').
  { induction l as [|token l IH]; intros idx; cbn [foldl].
    - rewrite decide_False; [done|]. rewrite elem_of_nil. tauto.
    - rewrite IH, post_token_posting.
      repeat case_decide; try done; set_solver. }
  rewrite Hall. apply decide_ext.
  rewrite elem_of_elements, elem_of_union, !elem_of_list_to_set, elem_of_app. tauto.
Qed.

(** ** [str], [int] and file names *)

Lemma py_int_str n : py_int (py_str n) = Ok n.
Proof.
  unfold py_int, py_str. pose proof (DecimalNat.Unsigned.of_to n) as Hn.
  destruct (Nat.to_uint n) eqn:Hd; [simpl in *; by rewrite <- Hn|..];
    (rewrite DecimalString.NilZero.usu by done; by rewrite Hn).
Qed.

Global Instance py_str_inj : Inj (=) (=) py_str.
Proof.
  intros n m Heq. pose proof (py_int_str n) as Hn.
  rewrite Heq, py_int_str in Hn. by injection Hn.
Qed.

Lemma string_length_app s t : String.length (s +:+ t) = String.length s + String.length t.
Proof. induction s as [|c s IH]; simpl; [done|by rewrite IH]. Qed.

Lemma string_app_inj_r s1 s2 t : s1 +:+ t = s2 +:+ t → s1 = s2.
Proof.
  revert s2. induction s1 as [|c s1 IH]; intros [|c2 s2] Heq; simpl in *.
  - done.
  - apply (f_equal String.length) in Heq. simpl in Heq.
    rewrite !string_length_app in Heq. simpl in Heq. lia.
  - apply (f_equal String.length) in Heq. simpl in Heq.
    rewrite !string_length_app in Heq. simpl in Heq. lia.
  - injection Heq as -> Heq. f_equal. by apply IH.
Qed.

Lemma py_int_zeros k s n : py_int s = Ok n → py_int (zeros k +:+ s) = Ok n.
Proof.
  intros Hs. induction k as [|k IH]; [done|].
  unfold py_int in *. simpl.
  destruct (zeros k +:+ s) eqn:Hz.
  { destruct k, s; simpl in *; discriminate. }
  rewrite <- Hz in *.
  assert (Hne : DecimalString.NilZero.uint_of_string (zeros k +:+ s)
                = DecimalString.NilEmpty.uint_of_string (zeros k +:+ s)).
  { rewrite Hz. done. }
  rewrite <- Hne.
  destruct (DecimalString.NilZero.uint_of_string (zeros k +:+ s)); [|done].
  simpl. injection IH as <-. done.
Qed.

Lemma py_int_fmt_03d n : py_int (fmt_03d n) = Ok n.
Proof. apply py_int_zeros, py_int_str. Qed.

Global Instance fmt_03d_inj : Inj (=) (=) fmt_03d.
Proof.
  intros n m Heq. pose proof (py_int_fmt_03d n) as Hn.
  rewrite Heq, py_int_fmt_03d in Hn. by injection Hn.
Qed.

Global Instance partial_index_name_inj : Inj (=) (=) partial_index_name.
Proof.
  intros i j Heq. unfold partial_index_name in Heq.
  apply (inj (String.app _)) in Heq. by apply string_app_inj_r, (inj fmt_03d) in Heq.
Qed.

Global Instance partial_mapping_name_inj : Inj (=) (=) partial_mapping_name.
Proof.
  intros i j Heq. unfold partial_mapping_name in Heq.
  apply (inj (String.app _)) in Heq. by apply string_app_inj_r, (inj fmt_03d) in Heq.
Qed.

(** ** Dictionaries written as JSON objects *)

Lemma items_get_Some {V} (items : list (string * V)) key v :
  NoDup items.*1 → items_get items key = Some v ↔ (key, v) ∈ items.
Proof.
  induction items as [|[k w] items IH]; simpl; intros Hnd.
  - split; [done|]. by rewrite elem_of_nil.
  - apply NoDup_cons in Hnd as [Hk Hnd]. rewrite elem_of_cons.
    case_decide as Hkey; subst.
    + split; [intros [= ->]; by left|].
      intros [[= ->]|Hin]; [done|].
      exfalso. apply Hk. apply list_elem_of_fmap. by exists (key, v).
    + rewrite IH by done. split; [by right|]. intros [[= -> ->]|?]; done.
Qed.

Lemma items_get_None {V} (items : list (string * V)) key :
  items_get items key = None ↔ key ∉ items.*1.
Proof.
  induction items as [|[k w] items IH]; simpl.
  - split; [intros _; apply not_elem_of_nil|done].
  - rewrite not_elem_of_cons. case_decide; subst.
    + split; [done|]. by intros [? _].
    + rewrite IH. split; [done|]. by intros [_ ?].
Qed.

Lemma items_get_map_to_list `{Countable K} {V W} (g : K → string) `{!Inj (=) (=) g}
    (f : V → W) (m : gmap K V) k :
  items_get ((λ kv, (g kv.1, f kv.2)) <$> map_to_list m) (g k) = f <$> m !! k.
Proof.
  destruct (m !! k) as [v|] eqn:Hk; simpl.
  - apply items_get_Some.
    + rewrite <- list_fmap_compose.
      rewrite (list_fmap_ext _ (g ∘ fst) (map_to_list m)) by done.
      rewrite list_fmap_compose. apply NoDup_fmap_2; [done|].
      apply NoDup_fst_map_to_list.
    + apply list_elem_of_fmap. exists (k, v). split; [done|].
      by apply elem_of_map_to_list.
  - apply items_get_None. rewrite <- list_fmap_compose.
    intros ([k' v'] & Hg & Hin)%list_elem_of_fmap. simpl in Hg.
    apply (inj g) in Hg as <-. apply elem_of_map_to_list in Hin. congruence.
Qed.

Lemma segment_posting_json_index index term doc_id :
  segment_posting (json_index index) term doc_id = posting_of index term doc_id.
Proof.
  unfold segment_posting, posting_of, json_index.
  pose proof (items_get_map_to_list Datatypes.id json_postings index term) as Hterm.
  unfold Datatypes.id in Hterm. rewrite Hterm.
  destruct (index !! term) as [postings|]; simpl; [|done].
  unfold json_postings.
  pose proof (items_get_map_to_list py_str Datatypes.id postings doc_id) as Hdoc.
  unfold Datatypes.id in Hdoc. rewrite Hdoc.
  by destruct (postings !! doc_id).
Qed.

(** ** Postings after [add_document] *)

Lemma document_posting_tf tokens important_tokens term :
  term ∈ tokens ++ important_tokens →
  1 ≤ tf (document_posting tokens important_tokens term).
Proof.
  intros [Hin|Hin]%elem_of_app; apply occurrences_pos in Hin; simpl; lia.
Qed.

Lemma tf_positive_empty : tf_positive ∅.
Proof. intros term doc_id p. unfold posting_of. by rewrite lookup_empty. Qed.

Lemma tf_positive_post_tokens index doc_id tokens important_tokens :
  tf_positive index → tf_positive (post_tokens index doc_id tokens important_tokens).
Proof.
  intros Hpos term doc_id' p. rewrite post_tokens_posting.
  case_decide as Hin; [|apply Hpos].
  intros [= <-]. apply document_posting_tf, Hin.
Qed.

Lemma analyst_add_document_index self url tokens important_tokens :
  ∃ doc_id,
    InvertedIndex.doc_ids (InvertedIndex.add_document self url tokens important_tokens)
      !! url = Some doc_id
    ∧ InvertedIndex.index (InvertedIndex.add_document self url tokens important_tokens)
      = post_tokens (InvertedIndex.index self) doc_id tokens important_tokens.
Proof.
  unfold InvertedIndex.add_document.
  destruct (InvertedIndex.doc_ids self !! url) as [doc_id|] eqn:Hurl; simpl.
  - by exists doc_id.
  - exists (InvertedIndex.next_doc_id self). by rewrite lookup_insert_eq.
Qed.

Lemma record_document_index self url tokens important_tokens :
  ∃ doc_id,
    DiskBasedIndexer.doc_ids
      (DiskBasedIndexer.record_document self url tokens important_tokens) !! url
    = Some doc_id
    ∧ DiskBasedIndexer.index
        (DiskBasedIndexer.record_document self url tokens important_tokens)
      = post_tokens (DiskBasedIndexer.index self) doc_id tokens important_tokens.
Proof.
  unfold DiskBasedIndexer.record_document.
  destruct (DiskBasedIndexer.doc_ids self !! url) as [doc_id|] eqn:Hurl; simpl.
  - by exists doc_id.
  - exists (DiskBasedIndexer.next_doc_id self). by rewrite lookup_insert_eq.
Qed.

Lemma record_document_partial_index_count self url tokens important_tokens :
  DiskBasedIndexer.partial_index_count
    (DiskBasedIndexer.record_document self url tokens important_tokens)
  = DiskBasedIndexer.partial_index_count self.
Proof.
  unfold DiskBasedIndexer.record_document.
  by destruct (DiskBasedIndexer.doc_ids self !! url).
Qed.

(** What a call of [_offload_to_disk] that returns has done. *)
Lemma _offload_to_disk_Ok self self' :
  DiskBasedIndexer._offload_to_disk self = Ok self' →
  (size (DiskBasedIndexer.index self) = 0 ∧ self' = self)
  ∨ (size (DiskBasedIndexer.index self) ≠ 0
     ∧ ∃ dir,
         partial_dir (DiskBasedIndexer.disk self) = Some dir
         ∧ self' =
           DiskBasedIndexer.mk (DiskBasedIndexer.max_docs_in_memory self) ∅
             (DiskBasedIndexer.doc_ids self) (DiskBasedIndexer.doc_id_to_url self)
             (DiskBasedIndexer.next_doc_id self) 0
             (S (DiskBasedIndexer.partial_index_count self))
             (mkDisk
                (Some (mkPartialDir
                   (<[partial_index_name (DiskBasedIndexer.partial_index_count self)
                      := json_index (DiskBasedIndexer.index self)]>
                      (partial_index_files dir))
                   (<[partial_mapping_name (DiskBasedIndexer.partial_index_count self)
                      := json_mapping (DiskBasedIndexer.doc_ids self)
                                      (DiskBasedIndexer.doc_id_to_url self)]>
                      (partial_mapping_files dir))))
                (inverted_index_json (DiskBasedIndexer.disk self))
                (doc_mapping_json (DiskBasedIndexer.disk self)))).
Proof.
  unfold DiskBasedIndexer._offload_to_disk. case_decide as Hsize.
  - intros [= <-]. by left.
  - destruct (partial_dir (DiskBasedIndexer.disk self)) as [dir|]; [|done].
    intros [= <-]. right. split; [done|]. by exists dir.
Qed.

(** C3 (both builders): after [add_document] the posting stored for a
    term of the document and the document's id has
    tf = occurrences in the body tokens + occurrences in the important
    tokens, and is flagged important exactly when the term occurs among
    the important tokens; the term frequency of that posting, and of every
    posting of the accumulator, is at least 1. *)
Theorem add_document_posting
    (analyst : InvertedIndex.t) (self self' : DiskBasedIndexer.t)
    (url : string) (tokens important_tokens : list string) (term : string) :
  term ∈ tokens ++ important_tokens →
  DiskBasedIndexer.add_document self url tokens important_tokens = Ok self' →
  tf_positive (InvertedIndex.index analyst) →
  tf_positive (DiskBasedIndexer.index self) →
  let analyst' := InvertedIndex.add_document analyst url tokens important_tokens in
  (∃ doc_id p,
      InvertedIndex.doc_ids analyst' !! url = Some doc_id
      ∧ posting_of (InvertedIndex.index analyst') term doc_id = Some p
      ∧ tf p = occurrences term tokens + occurrences term important_tokens
      ∧ (is_important p = true ↔ term ∈ important_tokens)
      ∧ 1 ≤ tf p)
  ∧ (∃ doc_id p,
      DiskBasedIndexer.doc_ids self' !! url = Some doc_id
      ∧ stored_posting self self' term doc_id = Some p
      ∧ tf p = occurrences term tokens + occurrences term important_tokens
      ∧ (is_important p = true ↔ term ∈ important_tokens)
      ∧ 1 ≤ tf p)
  ∧ tf_positive (InvertedIndex.index analyst')
  ∧ tf_positive (DiskBasedIndexer.index self').
Proof.
  intros Hterm Hadd Hpos_a Hpos_d analyst'.
  assert (Hp : ∀ index doc_id,
    ∃ p, posting_of (post_tokens index doc_id tokens important_tokens) term doc_id = Some p
      ∧ tf p = occurrences term tokens + occurrences term important_tokens
      ∧ (is_important p = true ↔ term ∈ important_tokens)
      ∧ 1 ≤ tf p).
  { intros index doc_id. exists (document_posting tokens important_tokens term).
    rewrite post_tokens_posting, decide_True by done.
    repeat split; simpl; try done.
    - apply bool_decide_eq_true_1.
    - apply bool_decide_eq_true_2.
    - by apply document_posting_tf. }
  destruct (analyst_add_document_index analyst url tokens important_tokens)
    as (doc_a & Hurl_a & Hidx_a).
  destruct (record_document_index self url tokens important_tokens)
    as (doc_d & Hurl_d & Hidx_d).
  pose proof (record_document_partial_index_count self url tokens important_tokens)
    as Hcount.
  split; [|split; [|split]].
  - destruct (Hp (InvertedIndex.index analyst) doc_a) as (p & Hpost & Hrest).
    exists doc_a, p. subst analyst'. by rewrite Hurl_a, Hidx_a.
  - destruct (Hp (DiskBasedIndexer.index self) doc_d) as (p & Hpost & Hrest).
    exists doc_d, p. unfold DiskBasedIndexer.add_document in Hadd.
    case_decide as Hfull.
    + apply _offload_to_disk_Ok in Hadd as [[Hsize ->]|(Hsize & dir & Hdir & ->)].
      * unfold stored_posting. rewrite Hcount, decide_True by done.
        by rewrite Hurl_d, Hidx_d.
      * unfold stored_posting. simpl. rewrite decide_False by lia. simpl.
        rewrite Hcount, lookup_insert_eq. simpl.
        by rewrite segment_posting_json_index, Hurl_d, Hidx_d.
    + injection Hadd as <-. unfold stored_posting.
      rewrite Hcount, decide_True by done. by rewrite Hurl_d, Hidx_d.
  - subst analyst'. rewrite Hidx_a. by apply tf_positive_post_tokens.
  - unfold DiskBasedIndexer.add_document in Hadd. case_decide as Hfull.
    + apply _offload_to_disk_Ok in Hadd as [[Hsize ->]|(Hsize & dir & Hdir & ->)].
      * rewrite Hidx_d. by apply tf_positive_post_tokens.
      * apply tf_positive_empty.
    + injection Hadd as <-. rewrite Hidx_d. by apply tf_positive_post_tokens.
Qed.

Lemma add_document_posting_witness :
  "alpha" ∈ ["alpha"; "beta"] ++ ["alpha"]
  ∧ DiskBasedIndexer.add_document boost_before "http://a/x" ["alpha"; "beta"] ["alpha"]
    = Ok boost_after
  ∧ ∃ doc_id p,
      DiskBasedIndexer.doc_ids boost_after !! "http://a/x" = Some doc_id
      ∧ stored_posting boost_before boost_after "alpha" doc_id = Some p
      ∧ tf p = occurrences "alpha" ["alpha"; "beta"] + occurrences "alpha" ["alpha"]
      ∧ (is_important p = true ↔ "alpha" ∈ ["alpha"])
      ∧ 1 ≤ tf p.
Proof.
  assert (Hin : "alpha" ∈ ["alpha"; "beta"] ++ ["alpha"]) by (simpl; left).
  assert (Hadd : DiskBasedIndexer.add_document boost_before "http://a/x"
                   ["alpha"; "beta"] ["alpha"] = Ok boost_after)
    by (vm_compute; reflexivity).
  split; [exact Hin|]. split; [exact Hadd|].
  exact (proj1 (proj2 (add_document_posting InvertedIndex.__init__ boost_before
    boost_after "http://a/x" ["alpha"; "beta"] ["alpha"] "alpha" Hin Hadd
    tf_positive_empty tf_positive_empty))).
Defined.

(** ** The merger *)

Example readded_build :
  DiskBasedIndexer.add_documents (DiskBasedIndexer.__init__ empty_disk 1) readded_docs
  = Ok readded_built.
Proof. vm_compute. reflexivity. Qed.

Lemma fold_entries_app existing entries1 entries2 :
  fold_entries existing (entries1 ++ entries2)
  = fold_entries (fold_entries existing entries1) entries2.
Proof. apply foldl_app. Qed.

Lemma fold_entries_Some p entries :
  fold_entries (Some p) entries
  = Some (mkPosting (tf p + sum_list (tf <$> entries))
                    (is_important p || existsb is_important entries)).
Proof.
  revert p. induction entries as [|e entries IH]; intros [n b]; simpl.
  - by rewrite Nat.add_0_r, orb_false_r.
  - unfold fold_entries in IH. rewrite IH. simpl.
    by rewrite Nat.add_assoc, orb_assoc.
Qed.

Lemma fold_entries_coalesce entries : fold_entries None entries = coalesce entries.
Proof.
  destruct entries as [|e entries]; [done|].
  unfold fold_entries. simpl. fold (fold_entries (Some (merge_posting default_posting e)) entries).
  by rewrite fold_entries_Some.
Qed.

Lemma postings_entries_cons entry postings doc_id :
  postings_entries (entry :: postings) doc_id
  = postings_entries [entry] doc_id ++ postings_entries postings doc_id.
Proof.
  unfold postings_entries. simpl.
  destruct (py_int entry.1) as [d|]; [|done]. by case_decide.
Qed.

Lemma merge_entry_posting term merged_index entry merged_index' term' doc_id :
  merge_entry term merged_index entry = Ok merged_index' →
  posting_of merged_index' term' doc_id
  = if decide (term' = term)
    then fold_entries (posting_of merged_index term' doc_id)
                      (postings_entries [entry] doc_id)
    else posting_of merged_index term' doc_id.
Proof.
  unfold merge_entry, postings_entries. intros Hm. simpl.
  destruct (py_int entry.1) as [d|] eqn:Hd; [|done]. simpl in Hm.
  injection Hm as <-. rewrite posting_of_set_posting.
  destruct (decide (term' = term)) as [->|Hterm].
  - destruct (decide (d = doc_id)) as [->|Hdoc].
    + by rewrite decide_True.
    + by rewrite decide_False by (by intros [_ ?]).
  - by rewrite decide_False by (by intros [? _]).
Qed.

Lemma merge_postings_posting term postings merged_index merged_index' term' doc_id :
  merge_postings term merged_index postings = Ok merged_index' →
  posting_of merged_index' term' doc_id
  = if decide (term' = term)
    then fold_entries (posting_of merged_index term' doc_id)
                      (postings_entries postings doc_id)
    else posting_of merged_index term' doc_id.
Proof.
  revert merged_index. induction postings as [|entry postings IH]; intros merged_index Hm.
  - injection Hm as <-. by case_decide.
  - simpl in Hm. inv_Ok.
    rewrite (IH _ Hm), postings_entries_cons, fold_entries_app.
    match goal with H : merge_entry _ _ _ = Ok _ |- _ =>
      rewrite (merge_entry_posting _ _ _ _ term' doc_id H) end.
    by case_decide.
Qed.

Lemma merge_partial_index_posting partial_index merged_index merged_index' term doc_id :
  merge_partial_index merged_index partial_index = Ok merged_index' →
  posting_of merged_index' term doc_id
  = fold_entries (posting_of merged_index term doc_id)
                 (segment_entries partial_index term doc_id).
Proof.
  revert merged_index.
  induction partial_index as [|[t postings] partial_index IH]; intros merged_index Hm.
  - by injection Hm as <-.
  - simpl in Hm. inv_Ok. rewrite (IH _ Hm).
    unfold segment_entries. rewrite bind_cons, fold_entries_app. simpl.
    match goal with H : merge_postings _ _ _ = Ok _ |- _ =>
      rewrite (merge_postings_posting _ _ _ _ term doc_id H) end.
    destruct (decide (t = term)) as [->|Hne].
    + by rewrite decide_True.
    + by rewrite decide_False.
Qed.

Lemma merge_loop_posting d ordinals merged_index merged_index' :
  merge_loop d ordinals merged_index = Ok merged_index' →
  ∃ segments,
    Forall2 (λ i data, load_partial_index d (partial_index_name i) = Ok data)
            ordinals segments
    ∧ ∀ term doc_id,
        posting_of merged_index' term doc_id
        = fold_entries (posting_of merged_index term doc_id)
                       (segments_entries segments term doc_id).
Proof.
  revert merged_index. induction ordinals as [|i ordinals IH]; intros merged_index Hm.
  - injection Hm as <-. exists []. by split; [constructor|].
  - simpl in Hm. inv_Ok.
    destruct (IH _ Hm) as (segments & Hload & Hpost).
    match goal with
    | Hl : load_partial_index _ _ = Ok ?data, Hp : merge_partial_index _ _ = Ok _ |- _ =>
        exists (data :: segments); split; [by constructor|];
        intros term doc_id; rewrite Hpost;
        rewrite (merge_partial_index_posting _ _ _ term doc_id Hp)
    end.
    unfold segments_entries. by rewrite bind_cons, fold_entries_app.
Qed.

(** C4: when the Merger has combined the segments, the final index holds
    for every (term, doc-id) the coalesced posting: tf is the sum of the
    tfs the segments list for that term and document, is_important the OR
    of their flags (and no posting when no segment lists one); so a flag
    that is true in some segment is true in the merged posting. *)
Theorem merge_coalesces (self self' : DiskBasedIndexer.t) :
  DiskBasedIndexer.partial_index_count self ≠ 0 →
  DiskBasedIndexer._merge_partial_indexes self = Ok self' →
  ∃ segments final_index,
    Forall2 (λ i data,
               load_partial_index (DiskBasedIndexer.disk self) (partial_index_name i)
               = Ok data)
            (seq 0 (DiskBasedIndexer.partial_index_count self)) segments
    ∧ inverted_index_json (DiskBasedIndexer.disk self') = Some final_index
    ∧ ∀ term doc_id,
        segment_posting final_index term doc_id
        = coalesce (segments_entries segments term doc_id)
        ∧ ∀ p, p ∈ segments_entries segments term doc_id →
               is_important p = true →
               ∃ q, segment_posting final_index term doc_id = Some q
                    ∧ is_important q = true.
Proof.
  intros Hcount Hmerge. unfold DiskBasedIndexer._merge_partial_indexes in Hmerge.
  rewrite decide_False in Hmerge by done. inv_Ok.
  match goal with H : merge_loop _ _ _ = Ok ?m |- _ =>
    rename m into x;
    destruct (merge_loop_posting _ _ _ _ H) as (segments & Hload & Hpost);
    exists segments, (json_index x) end.
  split; [done|]. split; [done|]. intros term doc_id.
  assert (Hfinal : segment_posting (json_index x) term doc_id
                   = coalesce (segments_entries segments term doc_id)).
  { rewrite segment_posting_json_index, Hpost. unfold posting_of.
    rewrite lookup_empty. apply fold_entries_coalesce. }
  rewrite Hfinal. split; [done|]. intros p Hp Himp.
  destruct (segments_entries segments term doc_id) as [|e entries] eqn:He.
  { by apply elem_of_nil in Hp. }
  eexists. split; [reflexivity|]. cbn [is_important].
  apply existsb_exists. exists p. split; [|done]. by apply list_elem_of_In.
Qed.

Lemma merge_coalesces_witness :
  DiskBasedIndexer.partial_index_count readded_built ≠ 0
  ∧ DiskBasedIndexer._merge_partial_indexes readded_built = Ok readded_merged
  ∧ ∃ segments final_index,
      Forall2 (λ i data,
                 load_partial_index (DiskBasedIndexer.disk readded_built)
                                    (partial_index_name i) = Ok data)
              (seq 0 (DiskBasedIndexer.partial_index_count readded_built)) segments
      ∧ inverted_index_json (DiskBasedIndexer.disk readded_merged) = Some final_index
      ∧ ∀ term doc_id,
          segment_posting final_index term doc_id
          = coalesce (segments_entries segments term doc_id)
          ∧ ∀ p, p ∈ segments_entries segments term doc_id →
                 is_important p = true →
                 ∃ q, segment_posting final_index term doc_id = Some q
                      ∧ is_important q = true.
Proof.
  assert (Hcount : DiskBasedIndexer.partial_index_count readded_built ≠ 0)
    by (simpl; lia).
  assert (Hmerge : DiskBasedIndexer._merge_partial_indexes readded_built
                   = Ok readded_merged) by (vm_compute; reflexivity).
  split; [exact Hcount|]. split; [exact Hmerge|].
  exact (merge_coalesces readded_built readded_merged Hcount Hmerge).
Defined.

(** ** The spill policy *)

Lemma fmt_03d_length n : 3 ≤ String.length (fmt_03d n).
Proof.
  unfold fmt_03d. rewrite string_length_app.
  assert (Hz : ∀ k, String.length (zeros k) = k).
  { induction k as [|k IH]; simpl; [done|by rewrite IH]. }
  rewrite Hz. lia.
Qed.

Lemma record_document_fields self url tokens important_tokens :
  let recorded := DiskBasedIndexer.record_document self url tokens important_tokens in
  DiskBasedIndexer.max_docs_in_memory recorded = DiskBasedIndexer.max_docs_in_memory self
  ∧ DiskBasedIndexer.docs_in_memory recorded = S (DiskBasedIndexer.docs_in_memory self)
  ∧ DiskBasedIndexer.partial_index_count recorded
    = DiskBasedIndexer.partial_index_count self
  ∧ DiskBasedIndexer.disk recorded = DiskBasedIndexer.disk self.
Proof.
  unfold DiskBasedIndexer.record_document.
  by destruct (DiskBasedIndexer.doc_ids self !! url).
Qed.

(** C6, counterexample: a document without tokens added to an empty
    accumulator brings the counter to the threshold, no spill runs, and the
    call returns with the counter at the threshold. *)
Lemma spill_skipped_at_threshold :
  DiskBasedIndexer.add_document (DiskBasedIndexer.__init__ empty_disk 1)
    "http://a/blank" [] [] = Ok blank_after
  ∧ ¬ (DiskBasedIndexer.docs_in_memory blank_after
       < DiskBasedIndexer.max_docs_in_memory blank_after)
  ∧ DiskBasedIndexer.partial_index_count blank_after = 0.
Proof. split; [vm_compute; reflexivity|]. simpl. split; [lia|done]. Qed.

(** C6, amended: [add_document] returns whenever the partial-index
    directory exists.  When the counter has reached the threshold and the
    accumulator holds a term, the spill has run: the accumulator is in the
    segment file [partial_index_NNN.json], [NNN] the zero-padded ordinal, a
    doc-mapping snapshot is beside it, the accumulator is empty, the
    counter is zero and the segment count is one higher.  After the call,
    for a positive threshold, the counter is below the threshold whenever
    the accumulator is not empty. *)
Theorem add_document_spills (self : DiskBasedIndexer.t) (url : string)
    (tokens important_tokens : list string) (dir : PartialDir) :
  0 < DiskBasedIndexer.max_docs_in_memory self →
  partial_dir (DiskBasedIndexer.disk self) = Some dir →
  let recorded := DiskBasedIndexer.record_document self url tokens important_tokens in
  let ordinal := DiskBasedIndexer.partial_index_count self in
  ∃ self',
    DiskBasedIndexer.add_document self url tokens important_tokens = Ok self'
    ∧ (DiskBasedIndexer.max_docs_in_memory self ≤ S (DiskBasedIndexer.docs_in_memory self) →
       size (DiskBasedIndexer.index recorded) ≠ 0 →
       ∃ dir',
         partial_dir (DiskBasedIndexer.disk self') = Some dir'
         ∧ partial_index_files dir' !! ("partial_index_" +:+ fmt_03d ordinal +:+ ".json")
           = Some (json_index (DiskBasedIndexer.index recorded))
         ∧ partial_mapping_files dir' !! ("partial_mapping_" +:+ fmt_03d ordinal +:+ ".json")
           = Some (json_mapping (DiskBasedIndexer.doc_ids recorded)
                                (DiskBasedIndexer.doc_id_to_url recorded))
         ∧ 3 ≤ String.length (fmt_03d ordinal)
         ∧ py_int (fmt_03d ordinal) = Ok ordinal
         ∧ DiskBasedIndexer.index self' = ∅
         ∧ DiskBasedIndexer.docs_in_memory self' = 0
         ∧ DiskBasedIndexer.partial_index_count self' = S ordinal)
    ∧ (DiskBasedIndexer.docs_in_memory self' < DiskBasedIndexer.max_docs_in_memory self'
       ∨ DiskBasedIndexer.index self' = ∅).
Proof.
  intros Hmax Hdir recorded ordinal.
  destruct (record_document_fields self url tokens important_tokens)
    as (Hmax_r & Hdocs_r & Hcount_r & Hdisk_r). fold recorded in Hmax_r, Hdocs_r, Hcount_r, Hdisk_r.
  unfold DiskBasedIndexer.add_document. fold recorded.
  rewrite Hmax_r, Hdocs_r. case_decide as Hfull.
  - unfold DiskBasedIndexer._offload_to_disk. case_decide as Hsize.
    + exists recorded. split; [done|]. split; [done|].
      right. by apply map_size_empty_iff.
    + rewrite Hdisk_r, Hdir. eexists. split; [reflexivity|]. simpl.
      split; [|left; lia]. intros _ _. eexists. split; [reflexivity|]. simpl.
      rewrite Hcount_r. fold ordinal.
      change ("partial_index_" +:+ fmt_03d ordinal +:+ ".json")
        with (partial_index_name ordinal).
      change ("partial_mapping_" +:+ fmt_03d ordinal +:+ ".json")
        with (partial_mapping_name ordinal).
      rewrite !lookup_insert_eq.
      repeat split; auto using fmt_03d_length, py_int_fmt_03d.
  - exists recorded. split; [done|]. split; [lia|]. left. lia.
Qed.

Lemma add_document_spills_witness :
  0 < DiskBasedIndexer.max_docs_in_memory (DiskBasedIndexer.__init__ empty_disk 1)
  ∧ partial_dir (DiskBasedIndexer.disk (DiskBasedIndexer.__init__ empty_disk 1))
    = Some (mkPartialDir ∅ ∅)
  ∧ ∃ self',
      DiskBasedIndexer.add_document (DiskBasedIndexer.__init__ empty_disk 1)
        "http://a/x" ["alpha"; "beta"] ["alpha"] = Ok self'
      ∧ (DiskBasedIndexer.docs_in_memory self' < DiskBasedIndexer.max_docs_in_memory self'
         ∨ DiskBasedIndexer.index self' = ∅).
Proof.
  assert (Hmax : 0 < DiskBasedIndexer.max_docs_in_memory
                       (DiskBasedIndexer.__init__ empty_disk 1)) by (simpl; lia).
  assert (Hdir : partial_dir (DiskBasedIndexer.disk (DiskBasedIndexer.__init__ empty_disk 1))
                 = Some (mkPartialDir ∅ ∅)) by reflexivity.
  split; [exact Hmax|]. split; [exact Hdir|].
  destruct (add_document_spills (DiskBasedIndexer.__init__ empty_disk 1) "http://a/x"
              ["alpha"; "beta"] ["alpha"] (mkPartialDir ∅ ∅) Hmax Hdir)
    as (self' & Hadd & _ & Hafter).
  exists self'. split; [exact Hadd | exact Hafter].
Defined.

(** ** Whole builds *)

Example blank_build :
  DiskBasedIndexer.add_documents (DiskBasedIndexer.__init__ empty_disk 2) blank_docs
  = Ok blank_built
  ∧ DiskBasedIndexer.finalize blank_built = Ok blank_final.
Proof. split; vm_compute; reflexivity. Qed.

Lemma segments_written_init d max_docs :
  segments_written (DiskBasedIndexer.__init__ d max_docs).
Proof. eexists. split; [reflexivity|]. simpl. lia. Qed.

Lemma segments_written_offload self :
  segments_written self →
  ∃ self', DiskBasedIndexer._offload_to_disk self = Ok self' ∧ segments_written self'.
Proof.
  intros (dir & Hdir & Hfiles). unfold DiskBasedIndexer._offload_to_disk.
  case_decide as Hsize.
  { exists self. split; [done|]. by exists dir. }
  rewrite Hdir. eexists. split; [reflexivity|].
  eexists. split; [reflexivity|]. simpl. intros i Hi.
  destruct (decide (i = DiskBasedIndexer.partial_index_count self)) as [->|Hne].
  - rewrite !lookup_insert_eq. eauto.
  - rewrite !lookup_insert_ne by (by intros ?%(inj _)). apply Hfiles. lia.
Qed.

Lemma segments_written_record self url tokens important_tokens :
  segments_written self →
  segments_written (DiskBasedIndexer.record_document self url tokens important_tokens).
Proof.
  intros (dir & Hdir & Hfiles).
  destruct (record_document_fields self url tokens important_tokens)
    as (_ & _ & Hcount & Hdisk).
  exists dir. rewrite Hdisk, Hcount. by split.
Qed.

Lemma segments_written_add_document self url tokens important_tokens :
  segments_written self →
  ∃ self',
    DiskBasedIndexer.add_document self url tokens important_tokens = Ok self'
    ∧ segments_written self'.
Proof.
  intros Hw. unfold DiskBasedIndexer.add_document.
  pose proof (segments_written_record self url tokens important_tokens Hw) as Hr.
  case_decide; [by apply segments_written_offload|eauto].
Qed.

Lemma segments_written_add_documents docs self :
  segments_written self →
  ∃ self', DiskBasedIndexer.add_documents self docs = Ok self' ∧ segments_written self'.
Proof.
  revert self. induction docs as [|[[url tokens] important_tokens] docs IH]; intros self Hw.
  - by exists self.
  - destruct (segments_written_add_document self url tokens important_tokens Hw)
      as (self1 & Hadd & Hw1).
    destruct (IH self1 Hw1) as (self' & Hadds & Hw').
    exists self'. split; [|done]. simpl. by rewrite Hadd.
Qed.

(** The merger reads back what [_offload_to_disk] wrote. *)
Lemma merge_postings_json_postings term postings merged_index :
  is_Ok (merge_postings term merged_index (json_postings postings)).
Proof.
  unfold json_postings. revert merged_index.
  induction (map_to_list postings) as [|[d p] l IH]; intros merged_index.
  - by eexists.
  - cbn [fmap list_fmap merge_postings]. unfold merge_entry at 1. simpl.
    rewrite py_int_str. simpl. apply IH.
Qed.

Lemma merge_partial_index_json_index index merged_index :
  is_Ok (merge_partial_index merged_index (json_index index)).
Proof.
  unfold json_index. revert merged_index.
  induction (map_to_list index) as [|[term postings] l IH]; intros merged_index.
  - by eexists.
  - cbn [fmap list_fmap merge_partial_index]. simpl.
    destruct (merge_postings_json_postings term postings merged_index) as [m ->].
    simpl. apply IH.
Qed.

Lemma merge_loop_written self ordinals merged_index :
  segments_written self →
  Forall (λ i, i < DiskBasedIndexer.partial_index_count self) ordinals →
  is_Ok (merge_loop (DiskBasedIndexer.disk self) ordinals merged_index).
Proof.
  intros (dir & Hdir & Hfiles) Hall. revert merged_index.
  induction Hall as [|i ordinals Hi Hall IH]; intros merged_index.
  - by eexists.
  - simpl. unfold load_partial_index. rewrite Hdir.
    destruct (Hfiles i Hi) as [[index ->] _]. simpl.
    destruct (merge_partial_index_json_index index merged_index) as [m ->].
    simpl. apply IH.
Qed.

Lemma int_keys_snapshot (urls : gmap nat string) (m : gmap nat string) :
  is_Ok (foldl (λ r kv, m ← r; k ← py_int kv.1; Ok (<[k := kv.2]> m)) (Ok m)
               ((λ kv, (py_str kv.1, kv.2)) <$> map_to_list urls)).
Proof.
  revert m. induction (map_to_list urls) as [|[d url] l IH]; intros m.
  - by eexists.
  - cbn [fmap list_fmap foldl]. simpl. rewrite py_int_str. simpl. apply IH.
Qed.

Lemma collect_snapshots_written self ordinals acc :
  segments_written self →
  Forall (λ i, i < DiskBasedIndexer.partial_index_count self) ordinals →
  is_Ok (collect_snapshots (DiskBasedIndexer.disk self) ordinals acc).
Proof.
  intros (dir & Hdir & Hfiles) Hall. revert acc.
  induction Hall as [|i ordinals Hi Hall IH]; intros acc.
  - by eexists.
  - simpl. unfold update_from_snapshot. rewrite Hdir. simpl.
    destruct (Hfiles i Hi) as [_ (ids & urls & ->)]. simpl.
    destruct (int_keys_snapshot urls acc.2) as [m ->]. simpl. apply IH.
Qed.

Lemma seq_below n : Forall (λ i, i < n) (seq 0 n).
Proof. apply Forall_forall. intros i Hi%elem_of_seq. lia. Qed.

(** [finalize] returns on a builder whose segments are in place: the
    partial-index directory is gone and both final files are there. *)
Lemma finalize_written self :
  segments_written self →
  ∃ self',
    DiskBasedIndexer.finalize self = Ok self'
    ∧ partial_dir (DiskBasedIndexer.disk self') = None
    ∧ is_Some (inverted_index_json (DiskBasedIndexer.disk self'))
    ∧ is_Some (doc_mapping_json (DiskBasedIndexer.disk self'))
    ∧ DiskBasedIndexer.next_doc_id self' = DiskBasedIndexer.next_doc_id self
    ∧ DiskBasedIndexer.doc_ids self' = DiskBasedIndexer.doc_ids self
    ∧ DiskBasedIndexer.partial_index_count self'
      = if decide (0 < size (DiskBasedIndexer.index self))
        then S (DiskBasedIndexer.partial_index_count self)
        else DiskBasedIndexer.partial_index_count self.
Proof.
  intros Hw. unfold DiskBasedIndexer.finalize.
  assert (Hoff : ∃ self1,
    (if decide (0 < size (DiskBasedIndexer.index self))
     then DiskBasedIndexer._offload_to_disk self else Ok self) = Ok self1
    ∧ segments_written self1
    ∧ DiskBasedIndexer.next_doc_id self1 = DiskBasedIndexer.next_doc_id self
    ∧ DiskBasedIndexer.doc_ids self1 = DiskBasedIndexer.doc_ids self
    ∧ DiskBasedIndexer.partial_index_count self1
      = if decide (0 < size (DiskBasedIndexer.index self))
        then S (DiskBasedIndexer.partial_index_count self)
        else DiskBasedIndexer.partial_index_count self).
  { case_decide as Hsize; [|by exists self].
    destruct (segments_written_offload self Hw) as (self1 & Hoff & Hw1).
    exists self1. split; [done|]. split; [done|].
    apply _offload_to_disk_Ok in Hoff as [[Hz _]|(_ & dir & _ & ->)]; [lia|done]. }
  destruct Hoff as (self1 & -> & Hw1 & Hnext & Hids & Hcount). simpl.
  assert (Hmerge : ∃ self2,
    DiskBasedIndexer._merge_partial_indexes self1 = Ok self2
    ∧ (∃ final_index : IndexJson, ∀ r,
         DiskBasedIndexer._save_doc_mappings self2 = Ok r →
         inverted_index_json (DiskBasedIndexer.disk r) = Some final_index)
    ∧ segments_written self2
    ∧ DiskBasedIndexer.next_doc_id self2 = DiskBasedIndexer.next_doc_id self1
    ∧ DiskBasedIndexer.doc_ids self2 = DiskBasedIndexer.doc_ids self1
    ∧ DiskBasedIndexer.partial_index_count self2
      = DiskBasedIndexer.partial_index_count self1).
  { unfold DiskBasedIndexer._merge_partial_indexes.
    destruct (decide (DiskBasedIndexer.partial_index_count self1 = 0)) as [Hzero|Hzero].
    - eexists. split; [reflexivity|]. split; [|done].
      eexists. intros r Hr. unfold DiskBasedIndexer._save_doc_mappings in Hr.
      inv_Ok. reflexivity.
    - destruct (merge_loop_written self1 _ ∅ Hw1 (seq_below _)) as [m ->]. simpl.
      eexists. split; [reflexivity|]. split; [|done].
      eexists. intros r Hr. unfold DiskBasedIndexer._save_doc_mappings in Hr.
      inv_Ok. reflexivity. }
  destruct Hmerge as (self2 & -> & [final_index Hfinal] & Hw2 & Hnext2 & Hids2 & Hcount2).
  simpl. unfold DiskBasedIndexer._save_doc_mappings in *.
  destruct (collect_snapshots_written self2 _ (∅, ∅) Hw2 (seq_below _)) as [all Hall].
  rewrite Hall in *. simpl. eexists. split; [reflexivity|]. simpl.
  split; [done|]. split.
  { specialize (Hfinal _ eq_refl). simpl in Hfinal. by rewrite Hfinal. }
  split; [done|]. by rewrite Hnext2, Hids2, Hcount2.
Qed.

Lemma post_tokens_nonempty index doc_id tokens important_tokens :
  tokens ≠ [] ∨ important_tokens ≠ [] →
  post_tokens index doc_id tokens important_tokens ≠ ∅.
Proof.
  intros Hdoc Hempty.
  assert (∃ term, term ∈ tokens ++ important_tokens) as [term Hterm].
  { destruct tokens as [|t ?]; [|exists t; by left].
    destruct important_tokens as [|t ?]; [by destruct Hdoc|exists t; by left]. }
  pose proof (post_tokens_posting index doc_id tokens important_tokens term doc_id) as Hp.
  rewrite decide_True in Hp by done. rewrite Hempty in Hp.
  unfold posting_of in Hp. by rewrite lookup_empty in Hp.
Qed.

Lemma record_document_ids self url tokens important_tokens :
  let recorded := DiskBasedIndexer.record_document self url tokens important_tokens in
  DiskBasedIndexer.next_doc_id recorded ≤ S (DiskBasedIndexer.next_doc_id self)
  ∧ size (DiskBasedIndexer.doc_ids recorded) ≤ S (size (DiskBasedIndexer.doc_ids self)).
Proof.
  unfold DiskBasedIndexer.record_document.
  destruct (DiskBasedIndexer.doc_ids self !! url) eqn:Hurl; simpl; [lia|].
  rewrite map_size_insert_None by done. lia.
Qed.

Lemma spill_count_inv_init d T : 0 < T → spill_count_inv T 0 (DiskBasedIndexer.__init__ d T).
Proof.
  intros HT. split; [done|]. split; [done|]. split; [simpl; by rewrite map_size_empty|].
  exists 0, 0. simpl. by repeat split.
Qed.

Lemma spill_count_inv_add_document T k self self' url tokens important_tokens :
  0 < T → tokens ≠ [] ∨ important_tokens ≠ [] →
  spill_count_inv T k self →
  DiskBasedIndexer.add_document self url tokens important_tokens = Ok self' →
  spill_count_inv T (S k) self'.
Proof.
  intros HT Hdoc (Hmax & Hnext & Hsize & q & r & Hk & Hr & Hcount & Hdocs & Hempty) Hadd.
  destruct (record_document_fields self url tokens important_tokens)
    as (Hmax_r & Hdocs_r & Hcount_r & Hdisk_r).
  destruct (record_document_index self url tokens important_tokens)
    as (doc_id & _ & Hidx_r).
  destruct (record_document_ids self url tokens important_tokens) as [Hnext_r Hsize_r].
  pose proof (post_tokens_nonempty (DiskBasedIndexer.index self) doc_id tokens
                important_tokens Hdoc) as Hne. rewrite <- Hidx_r in Hne.
  unfold DiskBasedIndexer.add_document in Hadd.
  rewrite Hmax_r, Hdocs_r in Hadd. case_decide as Hfull.
  - apply _offload_to_disk_Ok in Hadd as [[Hz _]|(_ & dir & _ & ->)].
    { by apply map_size_empty_iff in Hz. }
    unfold spill_count_inv. simpl. split; [lia|]. split; [lia|]. split; [lia|].
    exists (S q), 0. repeat split; try lia.
  - injection Hadd as <-. unfold spill_count_inv.
    split; [lia|]. split; [lia|]. split; [lia|].
    exists q, (S r). rewrite Hdocs_r, Hcount_r. repeat split; try lia; done.
Qed.

Lemma spill_count_inv_add_documents T docs k self self' :
  0 < T → Forall has_token docs →
  spill_count_inv T k self →
  DiskBasedIndexer.add_documents self docs = Ok self' →
  spill_count_inv T (k + length docs) self'.
Proof.
  intros HT Hdocs. revert k self.
  induction Hdocs as [|[[url tokens] important_tokens] docs Hdoc Hdocs IH];
    intros k self Hinv Hadd.
  - injection Hadd as <-. by rewrite Nat.add_0_r.
  - simpl in Hadd. inv_Ok. simpl. rewrite <- Nat.add_succ_comm.
    eapply IH; [|done]. by eapply spill_count_inv_add_document.
Qed.

Lemma ceil_div_split T q r :
  0 < T → r < T → ceil_div (q * T + r) T = if decide (r = 0) then q else S q.
Proof.
  intros HT Hr. unfold ceil_div. case_decide as Hz.
  - subst. replace (q * T + 0 + T - 1) with (T - 1 + q * T) by lia.
    rewrite Nat.div_add by lia. rewrite Nat.div_small by lia. done.
  - replace (q * T + r + T - 1) with (r - 1 + S q * T) by lia.
    rewrite Nat.div_add by lia. rewrite Nat.div_small by lia. done.
Qed.

Lemma ceil_div_mono a b T : a ≤ b → ceil_div a T ≤ ceil_div b T.
Proof.
  intros Hab. unfold ceil_div. destruct T as [|T]; [done|].
  apply Nat.Div0.div_le_mono. lia.
Qed.

(** C7, counterexample: three documents under threshold 2, the first two
    without tokens.  The counter passes the threshold while the accumulator
    is empty, so only one segment is written, fewer than ceil(3/2) = 2. *)
Lemma blank_pages_spill_less :
  DiskBasedIndexer.add_documents (DiskBasedIndexer.__init__ empty_disk 2) blank_docs
  = Ok blank_built
  ∧ DiskBasedIndexer.finalize blank_built = Ok blank_final
  ∧ 2 < length blank_docs
  ∧ DiskBasedIndexer.get_num_documents blank_final = 3
  ∧ ¬ (ceil_div (length blank_docs) 2
       ≤ DiskBasedIndexer.get_partial_index_count blank_final).
Proof.
  split; [vm_compute; reflexivity|]. split; [vm_compute; reflexivity|].
  split; [simpl; lia|]. split; [reflexivity|].
  vm_compute. lia.
Qed.

(** C7, amended: every build returns, and [finalize] after it returns:
    afterwards the partial-index directory is gone and the final index
    file and the doc-mapping file exist.  When the threshold is positive
    and every document has at least one token, [n] calls of [add_document]
    followed by [finalize] have written exactly ceil(n / threshold) segment
    files, which is at least ceil(total_docs / threshold) for the reported
    document count. *)
Theorem build_spill_count (d : Disk) (T : nat)
    (docs : list (string * list string * list string)) :
  ∃ built final,
    DiskBasedIndexer.add_documents (DiskBasedIndexer.__init__ d T) docs = Ok built
    ∧ DiskBasedIndexer.finalize built = Ok final
    ∧ partial_dir (DiskBasedIndexer.disk final) = None
    ∧ is_Some (inverted_index_json (DiskBasedIndexer.disk final))
    ∧ is_Some (doc_mapping_json (DiskBasedIndexer.disk final))
    ∧ (0 < T → Forall has_token docs →
       DiskBasedIndexer.get_partial_index_count final = ceil_div (length docs) T
       ∧ ceil_div (DiskBasedIndexer.get_num_documents final) T
         ≤ DiskBasedIndexer.get_partial_index_count final).
Proof.
  destruct (segments_written_add_documents docs _ (segments_written_init d T))
    as (built & Hbuilt & Hw).
  destruct (finalize_written built Hw)
    as (final & Hfinal & Hdir & Hindex & Hmapping & Hnext & Hids & Hcount).
  exists built, final. repeat (split; [done|]). intros HT Hdocs.
  pose proof (spill_count_inv_add_documents T docs 0 _ built HT Hdocs
                (spill_count_inv_init d T HT) Hbuilt) as Hinv.
  destruct Hinv as (_ & Hnext_b & Hsize_b & q & r & Hk & Hr & Hq & _ & Hempty).
  simpl in Hk.
  assert (Hfinal_count : DiskBasedIndexer.partial_index_count final
                         = ceil_div (length docs) T).
  { rewrite Hcount, Hk, ceil_div_split by done. rewrite Hq.
    destruct (decide (r = 0)) as [Hz|Hnz].
    - apply Hempty in Hz. rewrite Hz, map_size_empty. by rewrite decide_False by lia.
    - rewrite decide_True; [done|].
      assert (size (DiskBasedIndexer.index built) ≠ 0); [|lia].
      rewrite map_size_empty_iff. by rewrite <- Hempty. }
  unfold DiskBasedIndexer.get_partial_index_count.
  split; [done|].
  rewrite Hfinal_count. apply ceil_div_mono.
  unfold DiskBasedIndexer.get_num_documents. rewrite Hnext, Hids.
  destruct (decide (DiskBasedIndexer.partial_index_count final = 0)); lia.
Qed.

Lemma build_spill_count_witness :
  0 < 2
  ∧ Forall has_token [("http://a/1", ["cat"], ["cat"]); ("http://a/2", ["dog"], []);
                      ("http://a/3", [], ["cat"])]
  ∧ (∃ built final,
      DiskBasedIndexer.add_documents (DiskBasedIndexer.__init__ empty_disk 2)
        [("http://a/1", ["cat"], ["cat"]); ("http://a/2", ["dog"], []);
         ("http://a/3", [], ["cat"])] = Ok built
      ∧ DiskBasedIndexer.finalize built = Ok final
      ∧ partial_dir (DiskBasedIndexer.disk final) = None
      ∧ DiskBasedIndexer.get_partial_index_count final = ceil_div 3 2)
  ∧ ∃ built final,
      DiskBasedIndexer.add_documents (DiskBasedIndexer.__init__ empty_disk 2) blank_docs
      = Ok built
      ∧ DiskBasedIndexer.finalize built = Ok final
      ∧ partial_dir (DiskBasedIndexer.disk final) = None
      ∧ is_Some (inverted_index_json (DiskBasedIndexer.disk final))
      ∧ is_Some (doc_mapping_json (DiskBasedIndexer.disk final)).
Proof.
  assert (HT : 0 < 2) by lia.
  assert (Hdocs : Forall has_token
            [("http://a/1", ["cat"], ["cat"]); ("http://a/2", ["dog"], []);
             ("http://a/3", [], ["cat"])]).
  { rewrite !Forall_cons, Forall_nil. unfold has_token. simpl.
    repeat split; (by left) || (by right). }
  split; [exact HT|]. split; [exact Hdocs|]. split.
  - destruct (build_spill_count empty_disk 2
                [("http://a/1", ["cat"], ["cat"]); ("http://a/2", ["dog"], []);
                 ("http://a/3", [], ["cat"])])
      as (built & final & Hbuilt & Hfinal & Hdir & _ & _ & Hcount).
    exists built, final. split; [exact Hbuilt|]. split; [exact Hfinal|].
    split; [exact Hdir | exact (proj1 (Hcount HT Hdocs))].
  - destruct (build_spill_count empty_disk 2 blank_docs)
      as (built & final & Hbuilt & Hfinal & Hdir & Hindex & Hmapping & _).
    exists built, final. split; [exact Hbuilt|]. split; [exact Hfinal|].
    split; [exact Hdir|]. split; [exact Hindex | exact Hmapping].
Defined.

(** ** Documents without tokens *)




(** ** [sorted] *)

Section py_sorted.
Context {A : Type} (before : A → A → bool).

Lemma insert_sorted_Permutation x l : insert_sorted before x l ≡ₚ x :: l.
Proof.
  induction l as [|y l IH]; simpl; [done|].
  destruct (before y x); [|done]. rewrite IH. apply Permutation_swap.
Qed.

Lemma py_sorted_Permutation l : py_sorted before l ≡ₚ l.
Proof.
  induction l as [|x l IH]; simpl; [done|].
  by rewrite insert_sorted_Permutation, IH.
Qed.

Lemma elem_of_py_sorted x l : x ∈ py_sorted before l ↔ x ∈ l.
Proof. by rewrite py_sorted_Permutation. Qed.

Lemma length_py_sorted l : length (py_sorted before l) = length l.
Proof. by rewrite py_sorted_Permutation. Qed.

(** The order [sorted] establishes: no element must come before one that
    precedes it in the result. *)
Lemma insert_sorted_sorted (rel : A → A → Prop) x l :
  Transitive rel →
  (∀ y z, before y z = true → rel y z) →
  (∀ y z, before y z = false → rel z y) →
  StronglySorted rel l → StronglySorted rel (insert_sorted before x l).
Proof.
  intros Htrans Htrue Hfalse. induction 1 as [|y l Hsorted IH Hall]; simpl.
  - repeat constructor.
  - destruct (before y x) eqn:Hyx.
    + constructor; [done|].
      rewrite insert_sorted_Permutation. constructor; [by apply Htrue|done].
    + constructor; [by constructor|].
      constructor; [by apply Hfalse|].
      eapply Forall_impl; [exact Hall|]. intros z Hyz. simpl.
      by transitivity y; [apply Hfalse|].
Qed.

Lemma py_sorted_sorted (rel : A → A → Prop) l :
  Transitive rel →
  (∀ y z, before y z = true → rel y z) →
  (∀ y z, before y z = false → rel z y) →
  StronglySorted rel (py_sorted before l).
Proof.
  intros Htrans Htrue Hfalse. induction l as [|x l IH]; simpl; [constructor|].
  by apply insert_sorted_sorted.
Qed.

(** Stability: elements that need not be reordered among themselves keep
    their order.  [P] selects a class of elements none of which must come
    before another. *)
Lemma insert_sorted_filter (P : A → Prop) `{!∀ x, Decision (P x)} x l :
  (∀ y, P x → P y → before y x = false) →
  filter P (insert_sorted before x l) = filter P (x :: l).
Proof.
  intros Hclass. induction l as [|y l IH]; simpl; [done|].
  destruct (before y x) eqn:Hyx; [|done].
  rewrite filter_cons, IH, !filter_cons.
  destruct (decide (P x)) as [Hx|Hx]; [|done].
  destruct (decide (P y)) as [Hy|Hy]; [|done].
  rewrite Hclass in Hyx by done. done.
Qed.

Lemma py_sorted_filter (P : A → Prop) `{!∀ x, Decision (P x)} l :
  (∀ x y, P x → P y → before y x = false) →
  filter P (py_sorted before l) = filter P l.
Proof.
  intros Hclass. induction l as [|x l IH]; simpl; [done|].
  rewrite insert_sorted_filter by auto. by rewrite !filter_cons, IH.
Qed.

End py_sorted.

(** ** The ranker *)

Lemma _calculate_enhanced_tf_idf_weight tf df total_docs important :
  df ≠ 0 → total_docs ≠ 0 →
  M3SearchEngine._calculate_enhanced_tf_idf tf df total_docs important
  = (boost important * tf_weight tf * idf total_docs df)%R.
Proof.
  intros Hdf HN. unfold M3SearchEngine._calculate_enhanced_tf_idf, tf_weight, idf, boost.
  rewrite decide_False by (intros [?|?]; done).
  rewrite !plus_INR. simpl (INR 1).
  destruct important; lra.
Qed.

Section SearchProps.

Variable stem : string → string.
Variable set_iter : gset nat → list nat.
Variable _get_postings : string → gmap nat Posting.
Variable id_to_url : gmap nat string.
Variable total_docs : nat.

(** Iterating over a set visits its members. *)
Hypothesis set_iter_spec : ∀ (X : gset nat) d, d ∈ set_iter X ↔ d ∈ X.

Local Abbreviation fetch_postings := (M3SearchEngine.fetch_postings _get_postings).
Local Abbreviation sorted_docs := (M3SearchEngine.sorted_docs stem set_iter _get_postings total_docs).
Local Abbreviation search :=
  (M3SearchEngine.search stem set_iter _get_postings id_to_url total_docs).
Local Abbreviation doc_score := (M3SearchEngine.doc_score _get_postings total_docs).

Lemma elem_of_fetch_postings query_terms term postings :
  (term, postings) ∈ fetch_postings query_terms
  ↔ term ∈ query_terms ∧ postings = _get_postings term ∧ postings ≠ ∅.
Proof.
  unfold M3SearchEngine.fetch_postings. rewrite list_elem_of_omap. split.
  - intros (t & Ht & Hsome). case_decide as Hsize; [done|].
    injection Hsome as <- <-. by rewrite <- map_size_non_empty_iff.
  - intros (Ht & -> & Hne). exists term. split; [done|].
    by rewrite decide_False by (by apply map_size_non_empty_iff).
Qed.

Lemma items_get_fetch_postings query_terms term doc_id :
  term ∈ query_terms →
  items_get (fetch_postings query_terms) term ≫= (λ postings, postings !! doc_id)
  = _get_postings term !! doc_id.
Proof.
  unfold M3SearchEngine.fetch_postings.
  induction query_terms as [|t query_terms IH]; intros Hin.
  - by apply elem_of_nil in Hin.
  - simpl. destruct (decide (size (_get_postings t) = 0)) as [Hsize|Hsize].
    + destruct (decide (term ∈ query_terms)) as [Hin'|Hin']; [by apply IH|].
      apply elem_of_cons in Hin as [Heq|Hin]; [subst t|done].
      apply map_size_empty_iff in Hsize. rewrite Hsize, lookup_empty.
      replace (items_get _ term) with (@None (gmap nat Posting)); [done|].
      symmetry. apply items_get_None.
      intros ([t p] & Heq & Htp%list_elem_of_omap)%list_elem_of_fmap.
      simpl in Heq. subst t.
      destruct Htp as (t' & Ht' & Hsome). case_decide; [done|].
      injection Hsome as Ht _. by subst t'.
    + simpl. destruct (decide (t = term)) as [Heq|Hne]; [by subst t|].
      apply elem_of_cons in Hin as [Heq|Hin]; [by subst t|by apply IH].
Qed.

Lemma elem_of_intersect_postings d candidate_docs sorted_terms :
  d ∈ M3SearchEngine.intersect_postings candidate_docs sorted_terms
  ↔ d ∈ candidate_docs ∧ ∀ tp, tp ∈ sorted_terms → d ∈ dom tp.2.
Proof.
  unfold M3SearchEngine.intersect_postings. revert candidate_docs.
  induction sorted_terms as [|tp sorted_terms IH]; intros candidate_docs; simpl.
  - split; [intros ?; split; [done|]; by intros ? ?%elem_of_nil|by intros [? _]].
  - rewrite IH, elem_of_intersection. split.
    + intros [[Hc Htp] Hrest]. split; [done|].
      intros tp' [->|?]%elem_of_cons; auto.
    + intros [Hc Hall]. split; [split; [done|]|].
      * apply Hall. by left.
      * intros tp' ?. apply Hall. by right.
Qed.

(** The ranking lists the documents that are in the posting list of every
    fetched term, each with its score. *)
Lemma elem_of_sorted_docs query d s :
  (d, s) ∈ sorted_docs query
  ↔ s = doc_score (M3SearchEngine._process_query stem query)
                  (fetch_postings (M3SearchEngine._process_query stem query)) d
    ∧ fetch_postings (M3SearchEngine._process_query stem query) ≠ []
    ∧ ∀ tp, tp ∈ fetch_postings (M3SearchEngine._process_query stem query) →
            d ∈ dom tp.2.
Proof using set_iter_spec.
  unfold M3SearchEngine.sorted_docs.
  destruct (M3SearchEngine._process_query stem query) as [|t query_terms] eqn:Hq.
  { rewrite elem_of_nil. split; [done|]. by intros (_ & ? & _). }
  set (term_postings := fetch_postings (t :: query_terms)).
  pose proof (py_sorted_Permutation
    (λ y x : string * gmap nat Posting, bool_decide (size y.2 < size x.2)) term_postings)
    as Hperm.
  destruct (py_sorted _ term_postings) as [|[first_term first_postings] rest].
  { apply Permutation_nil_l in Hperm. rewrite <- Hperm, elem_of_nil.
    split; [done|]. by intros (_ & ? & _). }
  assert (Hcand : ∀ d',
    d' ∈ M3SearchEngine.intersect_postings (dom first_postings) rest
    ↔ ∀ tp, tp ∈ term_postings → d' ∈ dom tp.2).
  { intros d'. rewrite elem_of_intersect_postings. split.
    - intros [Hfirst Hrest] tp. rewrite <- Hperm.
      intros [->|?]%elem_of_cons; auto.
    - intros Hall. split.
      + apply (Hall (first_term, first_postings)). rewrite <- Hperm. by left.
      + intros tp Htp. apply Hall. rewrite <- Hperm. by right. }
  assert (Hne : term_postings ≠ []).
  { intros Heq. rewrite Heq in Hperm. by apply Permutation_nil_r in Hperm. }
  case_decide as Hempty.
  - rewrite elem_of_nil. split; [done|]. intros (_ & _ & Hall).
    apply Hcand in Hall. by rewrite Hempty in Hall.
  - rewrite elem_of_py_sorted, list_elem_of_fmap. split.
    + intros (d' & [= -> ->] & Hd'). split; [done|]. split; [done|].
      by apply Hcand, set_iter_spec.
    + intros (-> & _ & Hall). exists d. split; [done|].
      by apply set_iter_spec, Hcand.
Qed.

Lemma score_terms_matched query_terms doc_id terms (acc : R * nat) :
  total_docs ≠ 0 → terms ⊆ query_terms →
  foldl (M3SearchEngine.score_term _get_postings total_docs
           (fetch_postings query_terms) doc_id) acc terms
  = ((acc.1 + sum_R (term_weight _get_postings total_docs doc_id
                       <$> matched_terms _get_postings terms doc_id))%R,
     acc.2 + length (matched_terms _get_postings terms doc_id)).
Proof.
  intros HN. revert acc.
  induction terms as [|t terms IH]; intros [score matching_terms] Hsub; simpl.
  - f_equal; [lra|lia].
  - rewrite IH by (intros x Hx; apply Hsub; by right).
    unfold M3SearchEngine.score_term.
    rewrite items_get_fetch_postings by (apply Hsub; by left).
    unfold matched_terms. rewrite filter_cons. simpl.
    destruct (_get_postings t !! doc_id) as [p|] eqn:Hp.
    + rewrite decide_True by done. simpl.
      unfold term_weight at 2. rewrite Hp.
      f_equal; [|lia]. rewrite Rplus_assoc. do 2 f_equal.
      apply _calculate_enhanced_tf_idf_weight; [|done].
      unfold M3SearchEngine._get_document_frequency.
      apply map_size_non_empty_iff. intros Heq. by rewrite Heq, lookup_empty in Hp.
    + rewrite decide_False by (by intros [? ?]). done.
Qed.

(** The score [search] assigns, in closed form. *)
Lemma doc_score_gated query_terms doc_id :
  total_docs ≠ 0 →
  doc_score query_terms (fetch_postings query_terms) doc_id
  = gated_score _get_postings total_docs query_terms doc_id.
Proof.
  intros HN. unfold M3SearchEngine.doc_score, gated_score.
  rewrite score_terms_matched by done. simpl. rewrite Rplus_0_l.
  set (Q' := matched_terms _get_postings query_terms doc_id).
  set (total := sum_R _).
  destruct (decide (length Q' = length query_terms)) as [Hall|Hpart];
    destruct (decide (1 < length query_terms)) as [Hlong|Hshort];
    unfold Rdiv; try ring.
  - assert (length query_terms = 0 ∨ length query_terms = 1) as [Hlen|Hlen] by lia.
    + rewrite Hlen in Hall. apply nil_length_inv in Hall.
      subst total. rewrite Hall. simpl. ring.
    + rewrite Hlen. simpl (INR 1). rewrite sqrt_1, Rinv_1. ring.
  - assert (length query_terms = 0 ∨ length query_terms = 1) as [Hlen|Hlen] by lia.
    + apply nil_length_inv in Hlen. subst Q'. by rewrite Hlen in Hpart.
    + rewrite Hlen. simpl (INR 1). rewrite sqrt_1, Rinv_1. ring.
Qed.

Lemma set_iter_empty (X : gset nat) : X = ∅ → set_iter X = [].
Proof using set_iter_spec.
  intros ->. destruct (set_iter ∅) as [|d l] eqn:Hl; [done|].
  assert (d ∈ set_iter ∅) as Hd%set_iter_spec by (rewrite Hl; by left).
  by apply not_elem_of_empty in Hd.
Qed.

(** The ranking is the scored candidate set, sorted. *)
Lemma sorted_docs_shape query :
  ∃ candidate_docs : gset nat,
    sorted_docs query
    = py_sorted (λ y x : nat * R, bool_decide (x.2 < y.2)%R)
        ((λ d, (d, doc_score (M3SearchEngine._process_query stem query)
                     (fetch_postings (M3SearchEngine._process_query stem query)) d))
           <$> set_iter candidate_docs).
Proof using set_iter_spec.
  unfold M3SearchEngine.sorted_docs.
  destruct (M3SearchEngine._process_query stem query) as [|t query_terms].
  { exists ∅. by rewrite set_iter_empty. }
  destruct (py_sorted _ (fetch_postings (t :: query_terms)))
    as [|[first_term first_postings] rest].
  { exists ∅. by rewrite set_iter_empty. }
  case_decide as Hempty; [|by eexists].
  exists ∅. by rewrite set_iter_empty.
Qed.

Lemma elem_of_py_slice_to {A} (x : A) l k : x ∈ py_slice_to l k → x ∈ l.
Proof. unfold py_slice_to. case_decide; apply subseteq_take. Qed.

Lemma elem_of_search query top_k url s :
  (url, s) ∈ search query top_k
  ↔ ∃ d, (d, s) ∈ py_slice_to (sorted_docs query) top_k ∧ id_to_url !! d = Some url.
Proof.
  unfold M3SearchEngine.search. rewrite list_elem_of_omap. split.
  - intros ([d s'] & Hin & Hurl). simpl in Hurl.
    destruct (id_to_url !! d) as [url'|] eqn:Hd; [|done].
    injection Hurl as <- <-. by exists d.
  - intros (d & Hin & Hurl). exists (d, s). split; [done|]. simpl. by rewrite Hurl.
Qed.


Lemma filter_iff_elem_of {A} (P1 P2 : A → Prop)
    `{!∀ x, Decision (P1 x), !∀ x, Decision (P2 x)} (l : list A) :
  (∀ x, x ∈ l → P1 x ↔ P2 x) → filter P1 l = filter P2 l.
Proof.
  induction l as [|a l IH]; intros Hiff; [done|].
  rewrite !filter_cons, IH by (intros x ?; apply Hiff; by right).
  assert (P1 a ↔ P2 a) as Ha by (apply Hiff; by left).
  destruct (decide (P1 a)), (decide (P2 a)); tauto.
Qed.

Lemma gated_score_complete query_terms doc_id :
  length (matched_terms _get_postings query_terms doc_id) = length query_terms →
  gated_score _get_postings total_docs query_terms doc_id
  = spec_score _get_postings total_docs query_terms doc_id.
Proof.
  intros Hall. unfold gated_score, spec_score. by rewrite decide_True, Hall.
Qed.

Lemma matched_terms_all query_terms doc_id :
  (∀ t, t ∈ query_terms → is_Some (_get_postings t !! doc_id)) →
  matched_terms _get_postings query_terms doc_id = query_terms.
Proof.
  intros Hall. unfold matched_terms.
  induction query_terms as [|t query_terms IH]; [done|].
  rewrite filter_cons, decide_True by (apply Hall; by left).
  f_equal. apply IH. intros t' ?. apply Hall. by right.
Qed.

(** C2, amended: with N > 0 documents, a ranked document d has
    score(d) = bonus · (1/sqrt(q)) · Σ boost · tf_weight · idf, the sum
    over the query terms whose posting list contains d, q the number of
    query terms, bonus = 1.15 when every query term matched and 1
    otherwise; the matched terms are the query terms that have a posting
    list.  When every query term has a posting list this is
    1.15 · (1/sqrt(q')) · Σ boost · tf_weight · idf. *)
Theorem search_score (query : string) (d : nat) (s : R) :
  total_docs ≠ 0 →
  (d, s) ∈ sorted_docs query →
  let query_terms := M3SearchEngine._process_query stem query in
  s = gated_score _get_postings total_docs query_terms d
  ∧ matched_terms _get_postings query_terms d
    = filter (λ t, _get_postings t ≠ ∅) query_terms
  ∧ ((∀ t, t ∈ query_terms → _get_postings t ≠ ∅) →
     s = spec_score _get_postings total_docs query_terms d).
Proof using set_iter_spec.
  intros HN (-> & _ & Hall)%elem_of_sorted_docs query_terms. fold query_terms in Hall.
  assert (Hmatch : ∀ t, t ∈ query_terms →
            is_Some (_get_postings t !! d) ↔ _get_postings t ≠ ∅).
  { intros t Ht. split.
    - intros [p Hp] Heq. by rewrite Heq, lookup_empty in Hp.
    - intros Hne. apply elem_of_dom, (Hall (t, _get_postings t)).
      by apply elem_of_fetch_postings. }
  rewrite doc_score_gated by done. split; [done|]. split.
  - unfold matched_terms. apply filter_iff_elem_of.
    intros t Ht. by apply Hmatch.
  - intros Hfull. apply gated_score_complete. f_equal.
    apply matched_terms_all. intros t Ht. apply Hmatch; auto.
Qed.

Lemma filter_scored {A} (f : A → R) (s : R) (l : list A) :
  (filter (λ ds : A * R, ds.2 = s) ((λ d, (d, f d)) <$> l)).*1
  = filter (λ d, f d = s) l.
Proof.
  induction l as [|d l IH]; [done|].
  rewrite fmap_cons, !filter_cons. cbn [snd].
  destruct (decide (f d = s)); [|apply IH].
  rewrite fmap_cons. cbn [fst]. f_equal. apply IH.
Qed.

Lemma adjacent_of_StronglySorted {A} (rel : A → A → Prop) l i a b :
  StronglySorted rel l → l !! i = Some a → l !! S i = Some b → rel a b.
Proof.
  intros Hsorted. revert i. induction Hsorted as [|x l Hsorted IH Hall]; intros i Ha Hb.
  - done.
  - destruct i as [|i]; simpl in *.
    + injection Ha as ->. rewrite Forall_forall in Hall. apply Hall.
      by eapply list_elem_of_lookup_2.
    + by eapply IH.
Qed.

Lemma StronglySorted_omap {A B} (relA : A → A → Prop) (relB : B → B → Prop)
    (f : A → option B) l :
  (∀ a1 a2 b1 b2, relA a1 a2 → f a1 = Some b1 → f a2 = Some b2 → relB b1 b2) →
  StronglySorted relA l → StronglySorted relB (omap f l).
Proof.
  intros Hf. induction 1 as [|a l Hsorted IH Hall]; simpl; [constructor|].
  destruct (f a) as [b|] eqn:Hfa; [|done].
  constructor; [done|]. apply Forall_forall.
  intros b' (a' & Ha' & Hfa')%list_elem_of_omap.
  rewrite Forall_forall in Hall. eauto.
Qed.

Lemma StronglySorted_take {A} (rel : A → A → Prop) n l :
  StronglySorted rel l → StronglySorted rel (take n l).
Proof.
  intros Hsorted. rewrite <- (take_drop n l) in Hsorted.
  by apply StronglySorted_app_1_l in Hsorted.
Qed.

(** C5, amended: the result list, and the ranking it is cut from, are in
    descending order of score: each entry's score is at least the next
    one's.  Candidates with equal scores keep the order in which the
    candidate set was iterated; the doc-id plays no part in the order. *)
Theorem search_sorted_by_score (query : string) (top_k : Z) :
  (∀ i (a b : string * R),
     search query top_k !! i = Some a → search query top_k !! S i = Some b →
     (b.2 <= a.2)%R)
  ∧ (∀ i (a b : nat * R),
       sorted_docs query !! i = Some a → sorted_docs query !! S i = Some b →
       (b.2 <= a.2)%R)
  ∧ ∃ candidate_docs : gset nat,
      (∀ d, d ∈ candidate_docs ↔ ∃ s, (d, s) ∈ sorted_docs query)
      ∧ ∀ s, (filter (λ ds : nat * R, ds.2 = s) (sorted_docs query)).*1
             = filter (λ d, doc_score (M3SearchEngine._process_query stem query)
                              (fetch_postings (M3SearchEngine._process_query stem query)) d
                            = s)
                      (set_iter candidate_docs).
Proof using set_iter_spec.
  destruct (sorted_docs_shape query) as [candidate_docs Hshape].
  assert (Hsorted : StronglySorted (λ a b : nat * R, (b.2 <= a.2)%R) (sorted_docs query)).
  { rewrite Hshape. apply py_sorted_sorted.
    - intros a b c ??. lra.
    - intros y z Hlt%bool_decide_eq_true. lra.
    - intros y z Hlt%bool_decide_eq_false. lra. }
  split; [|split].
  - intros i a b. apply (adjacent_of_StronglySorted (λ a b : string * R, (b.2 <= a.2)%R)).
    unfold M3SearchEngine.search.
    apply (StronglySorted_omap (λ a b : nat * R, (b.2 <= a.2)%R)).
    + intros [d1 s1] [d2 s2] b1 b2 Hle Hb1 Hb2. simpl in *.
      destruct (id_to_url !! d1), (id_to_url !! d2); simpl in *; try done.
      injection Hb1 as <-. injection Hb2 as <-. done.
    + unfold py_slice_to. case_decide; by apply StronglySorted_take.
  - intros i a b. by apply (adjacent_of_StronglySorted (λ a b : nat * R, (b.2 <= a.2)%R)).
  - exists candidate_docs. split.
    + intros d. rewrite <- set_iter_spec. split.
      * intros Hd. eexists. rewrite Hshape, elem_of_py_sorted.
        apply list_elem_of_fmap. by exists d.
      * intros [s Hs]. rewrite Hshape, elem_of_py_sorted in Hs.
        by apply list_elem_of_fmap in Hs as (d' & [= -> _] & Hd').
    + intros s. rewrite Hshape, py_sorted_filter; [apply filter_scored|].
      intros x y -> Hy. apply bool_decide_eq_false. rewrite Hy. lra.
Qed.

End SearchProps.

(** ** The sample index *)

Lemma slot_order_spec (X : gset nat) d : d ∈ slot_order X ↔ d ∈ X.
Proof. unfold slot_order. by rewrite elem_of_py_sorted, elem_of_elements. Qed.

(** [sorted_docs] once the early returns are passed. *)
Lemma sorted_docs_eval stem set_iter _get_postings total_docs query
    query_terms first rest candidate_docs doc_ids :
  M3SearchEngine._process_query stem query = query_terms →
  query_terms ≠ [] →
  py_sorted (λ y x : string * gmap nat Posting, bool_decide (size y.2 < size x.2))
            (M3SearchEngine.fetch_postings _get_postings query_terms) = first :: rest →
  M3SearchEngine.intersect_postings (dom first.2) rest = candidate_docs →
  candidate_docs ≠ ∅ →
  set_iter candidate_docs = doc_ids →
  M3SearchEngine.sorted_docs stem set_iter _get_postings total_docs query
  = py_sorted (λ y x : nat * R, bool_decide (x.2 < y.2)%R)
      ((λ d, (d, M3SearchEngine.doc_score _get_postings total_docs query_terms
                   (M3SearchEngine.fetch_postings _get_postings query_terms) d))
         <$> doc_ids).
Proof.
  intros Hq Hne Hsorted Hcand Hnonempty Hiter. unfold M3SearchEngine.sorted_docs.
  rewrite Hq. destruct query_terms as [|t query_terms]; [done|].
  rewrite Hsorted. destruct first as [first_term first_postings]. simpl in Hcand.
  rewrite Hcand, decide_False by done. by rewrite Hiter.
Qed.

Lemma py_sorted_tie (d1 d2 : nat) (s : R) :
  py_sorted (λ y x : nat * R, bool_decide (x.2 < y.2)%R) [(d1, s); (d2, s)]
  = [(d1, s); (d2, s)].
Proof.
  unfold py_sorted. simpl. rewrite bool_decide_eq_false_2; [done|lra].
Qed.

Lemma gated_score_same_postings postings N query_terms d d' :
  (∀ t, t ∈ query_terms → postings t !! d = postings t !! d') →
  gated_score postings N query_terms d = gated_score postings N query_terms d'.
Proof.
  intros Hsame. unfold gated_score.
  assert (Hm : matched_terms postings query_terms d
               = matched_terms postings query_terms d').
  { apply filter_iff_elem_of. intros t Ht. by rewrite (Hsame t Ht). }
  rewrite <- Hm. do 2 f_equal.
  apply Forall_fmap_ext, Forall_forall. intros t Ht.
  apply list_elem_of_filter in Ht as [_ Ht].
  unfold term_weight. by rewrite (Hsame t Ht).
Qed.

Example pets_query :
  M3SearchEngine._process_query stem_unchanged "cat" = ["cat"]
  ∧ M3SearchEngine._process_query stem_unchanged "cat zzz" = ["cat"; "zzz"]
  ∧ M3SearchEngine._process_query stem_unchanged "Cat, CAT!" = ["cat"].
Proof. repeat split; vm_compute; reflexivity. Qed.

Lemma pets_sorted_docs query query_terms :
  M3SearchEngine._process_query stem_unchanged query = query_terms →
  query_terms ≠ [] →
  M3SearchEngine.fetch_postings pets_postings query_terms
  = [("cat", pets_postings "cat")] →
  M3SearchEngine.sorted_docs stem_unchanged slot_order pets_postings 9 query
  = [(8, gated_score pets_postings 9 query_terms 1);
     (1, gated_score pets_postings 9 query_terms 1)].
Proof.
  intros Hq Hne Hfetch.
  rewrite (sorted_docs_eval _ _ _ _ _ query_terms ("cat", pets_postings "cat") []
             (dom (pets_postings "cat")) [8; 1] Hq Hne).
  - simpl. rewrite !doc_score_gated by done.
    rewrite (gated_score_same_postings _ _ _ 8 1); [apply py_sorted_tie|].
    intros t Ht. destruct (decide (t = "cat")) as [->|Hcat]; [by vm_compute|].
    unfold pets_postings, pets_index. by rewrite lookup_singleton_ne.
  - by rewrite Hfetch.
  - done.
  - by vm_compute.
  - by vm_compute.
Qed.

Lemma pets_fetch :
  M3SearchEngine.fetch_postings pets_postings ["cat"] = [("cat", pets_postings "cat")]
  ∧ M3SearchEngine.fetch_postings pets_postings ["cat"; "zzz"]
    = [("cat", pets_postings "cat")].
Proof. split; vm_compute; reflexivity. Qed.

Lemma pets_sorted_docs_cat :
  M3SearchEngine.sorted_docs stem_unchanged slot_order pets_postings 9 "cat"
  = [(8, pets_score); (1, pets_score)].
Proof. apply pets_sorted_docs; [by vm_compute|done|apply pets_fetch]. Qed.

Lemma pets_search (urls : gmap nat string) query (s : R) :
  urls !! 8 = Some "http://a/8" → urls !! 1 = Some "http://a/1" →
  M3SearchEngine.sorted_docs stem_unchanged slot_order pets_postings 9 query
  = [(8, s); (1, s)] →
  M3SearchEngine.search stem_unchanged slot_order pets_postings urls 9 query 10
  = [("http://a/8", s); ("http://a/1", s)].
Proof.
  intros H8 H1 Hsorted. unfold M3SearchEngine.search. rewrite Hsorted.
  change (py_slice_to [(8, s); (1, s)] 10) with [(8, s); (1, s)].
  simpl. by rewrite H8, H1.
Qed.



Lemma pets_weight_pos : (0 < term_weight pets_postings 9 1 "cat")%R.
Proof.
  unfold term_weight.
  replace (pets_postings "cat" !! 1) with (Some (mkPosting 1 false)) by (by vm_compute).
  replace (size (pets_postings "cat")) with 2 by (by vm_compute).
  unfold boost, tf_weight, idf. simpl. rewrite ln_1.
  assert (0 < ln ((1 + 1 + 1 + 1 + 1 + 1 + 1 + 1 + 1 + 1) / (1 + 1 + 1)))%R; [|lra].
  rewrite <- ln_1. apply ln_increasing; lra.
Qed.

(** C2, counterexample: for the query "cat zzz" the term "zzz" is dropped,
    document 1 matches q' = 1 of q = 2 query terms, and its score carries
    no bonus and is divided by sqrt(2): it is not
    1.15 · (1/sqrt(1)) · Σ. *)
Lemma dropped_term_score :
  (1, pets_score_dropped) ∈
    M3SearchEngine.sorted_docs stem_unchanged slot_order pets_postings 9 "cat zzz"
  ∧ matched_terms pets_postings ["cat"; "zzz"] 1 = ["cat"]
  ∧ pets_score_dropped ≠ spec_score pets_postings 9 ["cat"; "zzz"] 1.
Proof.
  split; [|split; [by vm_compute|]].
  - rewrite (pets_sorted_docs "cat zzz" ["cat"; "zzz"]);
      [right; by left|by vm_compute|done|apply pets_fetch].
  - unfold pets_score_dropped, gated_score, spec_score.
    replace (matched_terms pets_postings ["cat"; "zzz"] 1) with ["cat"] by (by vm_compute).
    rewrite decide_False by (simpl; lia). pose proof pets_weight_pos as Hw.
    simpl. rewrite sqrt_1.
    set (w := term_weight pets_postings 9 1 "cat") in *.
    assert (1 < sqrt (1 + 1))%R as Hsqrt.
    { rewrite <- sqrt_1 at 1. apply sqrt_lt_1; lra. }
    assert (0 < / sqrt (1 + 1) < 1)%R as Hinv.
    { split; [apply Rinv_0_lt_compat; lra|].
      pose proof (Rinv_1_lt_contravar 1 (sqrt (1 + 1))) as Hlt.
      rewrite Rinv_1 in Hlt. apply Hlt; lra. }
    unfold Rdiv. intros Heq. nra.
Qed.

(** C5, counterexample: documents 1 and 8 have the same score for the
    query "cat", and document 8 is ranked first. *)
Lemma equal_scores_descending_ids :
  M3SearchEngine.sorted_docs stem_unchanged slot_order pets_postings 9 "cat"
  = [(8, pets_score); (1, pets_score)]
  ∧ M3SearchEngine.search stem_unchanged slot_order pets_postings pets_urls 9 "cat" 10
    = [("http://a/8", pets_score); ("http://a/1", pets_score)].
Proof.
  split; [apply pets_sorted_docs_cat|].
  apply pets_search; [by vm_compute|by vm_compute|apply pets_sorted_docs_cat].
Qed.

Lemma search_score_witness :
  (∀ (X : gset nat) d, d ∈ slot_order X ↔ d ∈ X)
  ∧ 9 ≠ 0
  ∧ (1, pets_score) ∈
      M3SearchEngine.sorted_docs stem_unchanged slot_order pets_postings 9 "cat"
  ∧ pets_score
    = gated_score pets_postings 9 (M3SearchEngine._process_query stem_unchanged "cat") 1.
Proof.
  assert (HN : 9 ≠ 0) by lia.
  assert (Hin : (1, pets_score) ∈
    M3SearchEngine.sorted_docs stem_unchanged slot_order pets_postings 9 "cat").
  { rewrite pets_sorted_docs_cat. right. by left. }
  split; [exact slot_order_spec|]. split; [exact HN|]. split; [exact Hin|].
  exact (proj1 (search_score stem_unchanged slot_order pets_postings 9 slot_order_spec
                  "cat" 1 pets_score HN Hin)).
Defined.

Lemma search_sorted_by_score_witness :
  (∀ (X : gset nat) d, d ∈ slot_order X ↔ d ∈ X)
  ∧ ∀ i (a b : string * R),
      M3SearchEngine.search stem_unchanged slot_order pets_postings pets_urls 9 "cat" 10
        !! i = Some a →
      M3SearchEngine.search stem_unchanged slot_order pets_postings pets_urls 9 "cat" 10
        !! S i = Some b →
      (b.2 <= a.2)%R.
Proof.
  split; [exact slot_order_spec|].
  exact (proj1 (search_sorted_by_score stem_unchanged slot_order pets_postings pets_urls 9
                  slot_order_spec "cat" 10)).
Defined.

(** ** Projection to URLs *)

Lemma length_omap_filter {A B} (f : A → option B) (l : list A) :
  length (omap f l) + length (filter (λ x, f x = None) l) = length l.
Proof.
  induction l as [|x l IH]; [done|].
  rewrite filter_cons. cbn [omap list_omap]. destruct (f x) eqn:Hx.
  - rewrite decide_False by done. simpl in *. lia.
  - rewrite decide_True by done. simpl in *. lia.
Qed.

(** C9: for a count top_k ≥ 0, [search] returns at most top_k pairs.  The
    ranking is cut to its first top_k entries before the doc-ids are
    resolved: the result is made of those entries that have a URL, so its
    length is top_k (or the length of the ranking, if shorter) minus the
    number of entries without a URL among them.  In the sample index with
    the mapping that lacks document 8, top_k = 1 returns nothing although
    document 1 is scored and has a URL. *)
Theorem search_top_k (stem : string → string) (set_iter : gset nat → list nat)
    (_get_postings : string → gmap nat Posting) (id_to_url : gmap nat string)
    (total_docs : nat) (query : string) (top_k : Z) :
  (0 ≤ top_k)%Z →
  let results := M3SearchEngine.search stem set_iter _get_postings id_to_url total_docs
                   query top_k in
  let top := take (Z.to_nat top_k)
               (M3SearchEngine.sorted_docs stem set_iter _get_postings total_docs query) in
  length results ≤ Z.to_nat top_k
  ∧ (∀ url s, (url, s) ∈ results ↔ ∃ d, (d, s) ∈ top ∧ id_to_url !! d = Some url)
  ∧ length results + length (filter (λ ds : nat * R, id_to_url !! ds.1 = None) top)
    = length top
  ∧ (M3SearchEngine.search stem_unchanged slot_order pets_postings pets_urls_short 9
       "cat" 1 = []
     ∧ (1, pets_score) ∈
         M3SearchEngine.sorted_docs stem_unchanged slot_order pets_postings 9 "cat"
     ∧ pets_urls_short !! 1 = Some "http://a/1").
Proof.
  intros Hk results top.
  assert (Hslice : py_slice_to
            (M3SearchEngine.sorted_docs stem set_iter _get_postings total_docs query)
            top_k = top).
  { unfold py_slice_to. by rewrite decide_True. }
  assert (Hlen : length results
                 + length (filter (λ ds : nat * R, id_to_url !! ds.1 = None) top)
                 = length top).
  { subst results. unfold M3SearchEngine.search. rewrite Hslice.
    rewrite <- (length_omap_filter
      (λ ds : nat * R, (λ url, (url, ds.2)) <$> id_to_url !! ds.1) top).
    f_equal. f_equal. apply list_filter_iff. intros [d s]. simpl.
    by destruct (id_to_url !! d). }
  split; [|split; [|split; [done|]]].
  - assert (length top ≤ Z.to_nat top_k); [|lia].
    subst top. rewrite length_take. lia.
  - intros url s. subst results. rewrite elem_of_search. by rewrite Hslice.
  - split; [|split].
    + unfold M3SearchEngine.search. rewrite pets_sorted_docs_cat.
      change (py_slice_to [(8, pets_score); (1, pets_score)] 1) with [(8, pets_score)].
      simpl. by replace (pets_urls_short !! 8) with (@None string) by (by vm_compute).
    + rewrite pets_sorted_docs_cat. right. by left.
    + by vm_compute.
Qed.

Lemma search_top_k_witness :
  (0 ≤ 1)%Z
  ∧ length (M3SearchEngine.search stem_unchanged slot_order pets_postings pets_urls 9
              "cat" 1) ≤ Z.to_nat 1.
Proof.
  assert (Hk : (0 ≤ 1)%Z) by lia. split; [exact Hk|].
  exact (proj1 (search_top_k stem_unchanged slot_order pets_postings pets_urls 9
                  "cat" 1 Hk)).
Defined.

(** ** Start-up and the posting reader *)

Lemma items_get_is_Some {V} (items : list (string * V)) key :
  is_Some (items_get items key) ↔ key ∈ items.*1.
Proof.
  rewrite <- not_eq_None_Some, items_get_None.
  destruct (decide (key ∈ items.*1)); tauto.
Qed.

Section ReaderProps.

Variable re_search : string → string → option (N * string).
Variable json_loads : string → option Json.

Local Abbreviation _get_postings_from_disk :=
  (Reader._get_postings_from_disk re_search json_loads).
Local Abbreviation _extract_term_from_json :=
  (Reader._extract_term_from_json re_search json_loads).
Local Abbreviation reachable := (Reader.reachable re_search json_loads).
Local Abbreviation cache_from_index := (cache_from_index re_search json_loads).

Lemma convert_postings_keys items postings postings' :
  Reader.convert_postings items postings = Ok postings' →
  Forall (λ key, is_Ok (py_int key)) items.*1.
Proof.
  revert postings. induction items as [|[k v] items IH]; intros postings Hc.
  - constructor.
  - cbn [Reader.convert_postings] in Hc. apply bind_Ok in Hc as (doc_id & Hk & Hc).
    rewrite fmap_cons. constructor; [by exists doc_id|by eapply IH].
Qed.

(** A read that returns has found a posting list, or hands back the empty
    mapping and the engine as it was. *)
Lemma read_postings_found self term content postings self' :
  Reader.read_postings re_search json_loads self term content = Ok (postings, self') →
  (postings = ∅ ∧ self' = self)
  ∨ (found_postings (_extract_term_from_json term content)
     ∧ ∀ t, t ∈ (Reader.postings_cache self').*1 →
            t ∈ (Reader.postings_cache self).*1 ∨ t = term).
Proof.
  unfold Reader.read_postings. intros Hread.
  apply bind_Ok in Hread as (term_data & Hextract & Hread).
  destruct (truthy term_data) eqn:Htruthy; [|injection Hread as <- <-; by left].
  apply bind_Ok in Hread as (items & Hitems & Hread).
  apply bind_Ok in Hread as (ps & Hconvert & Hread).
  apply bind_Ok in Hread as (cache & Hevict & Hread).
  injection Hread as <- <-. right. split.
  - destruct term_data as [[| | | | |members]|]; try done.
    simpl in Hitems, Htruthy. injection Hitems as <-.
    exists members. split; [done|]. split; [by apply bool_decide_eq_true in Htruthy|].
    by eapply convert_postings_keys.
  - intros t. simpl. rewrite fmap_app, elem_of_app.
    intros [Ht|Ht%list_elem_of_singleton]; [left|by right].
    case_decide.
    + destruct (Reader.postings_cache self) as [|? ?]; [done|].
      injection Hevict as <-. rewrite fmap_cons. by right.
    + by injection Hevict as <-.
Qed.

Lemma lookup_cache d self term :
  cache_from_index d self → cache_from_index d (_get_postings_from_disk d self term).2.
Proof.
  intros Hcache. unfold Reader._get_postings_from_disk.
  destruct (items_get _ term); [done|].
  destruct (index_file d) as [content|] eqn:Hfile; [|done].
  destruct (Reader.read_postings _ _ _ _ _) as [[postings self']|e] eqn:Hread; [|done].
  apply read_postings_found in Hread as [[_ ->]|[Hfound Hkeys]]; [done|].
  intros t [Ht| ->]%Hkeys; [by apply Hcache|]. by exists content.
Qed.

Lemma reachable_cache d self : reachable d self → cache_from_index d self.
Proof.
  induction 1 as [self Hinit|self term Hreach IH].
  - unfold Reader.__init__ in Hinit.
    destruct (doc_mapping_file d); [|done]. inv_Ok.
    by intros t Ht%elem_of_nil.
  - by apply lookup_cache.
Qed.

(** An object with a key that [int] rejects, such as a posting record
    with its key 'tf', is no posting list. *)
Lemma record_not_found term_data members key :
  term_data = Ok (Some (JObject members)) →
  key ∈ members.*1 → py_int key = Raise ValueError →
  ¬ found_postings term_data.
Proof.
  intros -> Hkey Hint (members' & [= <-] & _ & Hall).
  rewrite Forall_forall in Hall. destruct (Hall key Hkey) as [doc_id Hdoc].
  congruence.
Qed.

(** C8, amended: at start-up a missing doc-mapping file is the fatal
    error; a missing index file is not: with a readable doc mapping the
    constructor returns an engine whatever the index file.  At lookup time,
    in every state the engine can reach, a term absent from the index gets
    the empty mapping and leaves the engine as it was: when the index file
    is missing; when the term pattern matches nowhere in the file; when
    the pattern matches below the top level, at a doc-id key, so that the
    extracted object is a posting record, with a key such as 'tf' that
    [int] rejects; and in general whenever the extraction does not yield a
    non-empty object whose keys all read as integers. *)
Theorem reader_errors (d : IndexDir) :
  (doc_mapping_file d = None → Reader.__init__ d = Raise FileNotFoundError)
  ∧ (∀ data m,
       doc_mapping_file d = Some data →
       Reader.int_keys (json_id_to_url data) ∅ = Ok m →
       ∃ self, Reader.__init__ d = Ok self
               ∧ Reader.id_to_url self = m
               ∧ Reader.total_docs self = length (json_url_to_id data)
               ∧ Reader.postings_cache self = [])
  ∧ (∀ self term,
       reachable d self →
       index_file d = None
       ∨ (∃ content, index_file d = Some content ∧ re_search term content = None)
       ∨ (∃ content members key,
            index_file d = Some content
            ∧ _extract_term_from_json term content = Ok (Some (JObject members))
            ∧ key ∈ members.*1 ∧ py_int key = Raise ValueError)
       ∨ (∃ content, index_file d = Some content
                     ∧ ¬ found_postings (_extract_term_from_json term content)) →
       _get_postings_from_disk d self term = (∅, self)).
Proof.
  split; [|split].
  - intros Hmissing. unfold Reader.__init__. by rewrite Hmissing.
  - intros data m Hdata Hkeys. unfold Reader.__init__. rewrite Hdata, Hkeys.
    simpl. by eexists.
  - intros self term Hreach%reachable_cache Habsent.
    assert (Hnone : ∀ content, index_file d = Some content →
              ¬ found_postings (_extract_term_from_json term content)).
    { intros content Hfile.
      destruct Habsent as [Hmissing|[(c & Hc & Hnowhere)|[(c & members & key & Hc & Hrecord
                                                           & Hkey & Hint)|(c & Hc & Hnot)]]].
      - congruence.
      - assert (c = content) as -> by congruence.
        unfold Reader._extract_term_from_json. rewrite Hnowhere.
        by intros (members & [=] & _).
      - assert (c = content) as -> by congruence.
        by eapply record_not_found.
      - by assert (c = content) as -> by congruence. }
    unfold Reader._get_postings_from_disk.
    destruct (items_get (Reader.postings_cache self) term) as [postings|] eqn:Hget.
    { assert (term ∈ (Reader.postings_cache self).*1) as Hin
        by (apply items_get_is_Some; by rewrite Hget).
      apply Hreach in Hin as (content & Hfile & Hfound).
      by destruct (Hnone content Hfile). }
    destruct (index_file d) as [content|] eqn:Hfile; [|done].
    destruct (Reader.read_postings _ _ _ _ _) as [[postings self']|e] eqn:Hread; [|done].
    apply read_postings_found in Hread as [[-> ->]|[Hfound _]]; [done|].
    by destruct (Hnone content eq_refl).
Qed.

End ReaderProps.

Lemma items_get_elem_of {V} (items : list (string * V)) key v :
  items_get items key = Some v → (key, v) ∈ items.
Proof.
  induction items as [|[k w] items IH]; simpl; [done|].
  case_decide; [intros [= ->]; subst; by left|]. intros ?. right. by apply IH.
Qed.

Section ReaderFunction.

Variable re_search : string → string → option (N * string).
Variable json_loads : string → option Json.
Variable d : IndexDir.

Local Abbreviation _get_postings_from_disk :=
  (Reader._get_postings_from_disk re_search json_loads).
Local Abbreviation read := (read_term re_search json_loads d).
Local Abbreviation replays := (cache_replays re_search json_loads d).

Lemma read_postings_read self term content :
  index_file d = Some content → replays self →
  match Reader.read_postings re_search json_loads self term content with
  | Ok (postings, self') => postings = read term ∧ replays self'
  | Raise _ => read term = ∅
  end.
Proof.
  intros Hfile [Hmax Hcache].
  assert (Hread : read term
    = match
        term_data ← Reader._extract_term_from_json re_search json_loads term content;
        if truthy term_data then
          items ← json_items (default JNull term_data);
          Reader.convert_postings items ∅
        else Ok ∅
      with
      | Ok postings => postings
      | Raise _ => ∅
      end).
  { unfold read_term. by rewrite Hfile. }
  unfold Reader.read_postings.
  destruct (Reader._extract_term_from_json _ _ _ _) as [term_data|e]; [|done].
  simpl in *. destruct (truthy term_data); [|done].
  destruct (json_items _) as [items|e]; [|done]. simpl in *.
  destruct (Reader.convert_postings items ∅) as [postings|e]; [|done]. simpl.
  assert (Hevict : ∃ cache,
    (if decide (Reader.cache_max_size self ≤ length (Reader.postings_cache self))
     then match Reader.postings_cache self with
          | [] => Raise StopIteration
          | _ :: cache => Ok cache
          end
     else Ok (Reader.postings_cache self)) = Ok cache
    ∧ cache ⊆ Reader.postings_cache self).
  { case_decide as Hfull; [|by eexists].
    destruct (Reader.postings_cache self) as [|entry cache]; [simpl in Hfull; lia|].
    exists cache. split; [done|]. intros x ?. by right. }
  destruct Hevict as (cache & -> & Hsub). simpl. split; [done|].
  split; [done|]. simpl. intros t ps [Hin|Hin%list_elem_of_singleton]%elem_of_app.
  - by apply Hcache, Hsub.
  - by injection Hin as -> ->.
Qed.

(** A lookup answers with what the index file holds for the term, whatever
    was looked up before, and keeps the cache a replay of the file. *)
Lemma _get_postings_from_disk_read self term :
  replays self →
  (_get_postings_from_disk d self term).1 = read term
  ∧ replays (_get_postings_from_disk d self term).2.
Proof.
  intros Hreplays. unfold Reader._get_postings_from_disk.
  destruct (items_get (Reader.postings_cache self) term) as [postings|] eqn:Hget.
  { split; [|done]. simpl. by apply Hreplays, items_get_elem_of. }
  destruct (index_file d) as [content|] eqn:Hfile.
  - pose proof (read_postings_read self term content Hfile Hreplays) as Hread.
    destruct (Reader.read_postings _ _ _ _ _) as [[postings self']|e]; [done|].
    by split.
  - split; [|done]. unfold read_term. by rewrite Hfile.
Qed.

(** In every state a run can reach, the reader is a function of the term. *)
Lemma reachable_read self term :
  Reader.reachable re_search json_loads d self →
  (_get_postings_from_disk d self term).1 = read term.
Proof.
  intros Hreach. apply _get_postings_from_disk_read.
  induction Hreach as [self Hinit|self term' Hreach IH].
  - unfold Reader.__init__ in Hinit.
    destruct (doc_mapping_file d); [|done]. inv_Ok.
    split; [simpl; lia|]. by intros t ps ?%elem_of_nil.
  - by apply _get_postings_from_disk_read.
Qed.

End ReaderFunction.

(** C8, counterexample: the directory has no index file, and the
    constructor returns an engine. *)
Lemma missing_index_file_not_fatal :
  index_file no_index_dir = None
  ∧ Reader.__init__ no_index_dir = Ok no_index_engine.
Proof. split; [done|]. vm_compute. reflexivity. Qed.

Example doc_id_extraction :
  Reader.__init__ cat_index_dir = Ok cat_engine
  ∧ Reader._extract_term_from_json doc_id_search doc_id_loads "1" cat_index_text
    = Ok (Some (JObject [("tf", JNumber 1); ("is_important", JBool false)]))
  ∧ py_int "tf" = Raise ValueError.
Proof. repeat split; vm_compute; reflexivity. Qed.

Lemma reader_errors_witness :
  Reader.reachable doc_id_search doc_id_loads cat_index_dir cat_engine
  ∧ (index_file cat_index_dir = None
     ∨ (∃ content, index_file cat_index_dir = Some content
                   ∧ doc_id_search "1" content = None)
     ∨ (∃ content members key,
          index_file cat_index_dir = Some content
          ∧ Reader._extract_term_from_json doc_id_search doc_id_loads "1" content
            = Ok (Some (JObject members))
          ∧ key ∈ members.*1 ∧ py_int key = Raise ValueError)
     ∨ (∃ content, index_file cat_index_dir = Some content
                   ∧ ¬ found_postings (Reader._extract_term_from_json doc_id_search
                                         doc_id_loads "1" content)))
  ∧ Reader._get_postings_from_disk doc_id_search doc_id_loads cat_index_dir cat_engine "1"
    = (∅, cat_engine).
Proof.
  assert (Hreach : Reader.reachable doc_id_search doc_id_loads cat_index_dir cat_engine).
  { apply Reader.reachable_init, doc_id_extraction. }
  assert (Habsent : index_file cat_index_dir = None
     ∨ (∃ content, index_file cat_index_dir = Some content
                   ∧ doc_id_search "1" content = None)
     ∨ (∃ content members key,
          index_file cat_index_dir = Some content
          ∧ Reader._extract_term_from_json doc_id_search doc_id_loads "1" content
            = Ok (Some (JObject members))
          ∧ key ∈ members.*1 ∧ py_int key = Raise ValueError)
     ∨ (∃ content, index_file cat_index_dir = Some content
                   ∧ ¬ found_postings (Reader._extract_term_from_json doc_id_search
                                         doc_id_loads "1" content))).
  { right. right. left.
    exists cat_index_text, [("tf", JNumber 1); ("is_important", JBool false)], "tf".
    split; [reflexivity|]. split; [apply doc_id_extraction|].
    split; [by left|apply doc_id_extraction]. }
  split; [exact Hreach|]. split; [exact Habsent|].
  exact (proj2 (proj2 (reader_errors doc_id_search doc_id_loads cat_index_dir))
           cat_engine "1" Hreach Habsent).
Defined.

(** * Further properties *)

(** ** The tokenizer *)

Lemma lower_token_char c : is_alnum (lower c) = true → is_token_char (lower c) = true.
Proof. destruct c as [[] [] [] [] [] [] [] []]; vm_compute; done. Qed.

Lemma lower_no_capital c : no_capital (lower c) = true.
Proof. destruct c as [[] [] [] [] [] [] [] []]; vm_compute; done. Qed.

Lemma lower_lower c : lower (lower c) = lower c.
Proof. destruct c as [[] [] [] [] [] [] [] []]; vm_compute; done. Qed.

Lemma token_char_alnum c : is_token_char c = true → is_alnum c = true ∧ lower c = c.
Proof. destruct c as [[] [] [] [] [] [] [] []]; vm_compute; done. Qed.

Lemma token_char_ascii c : is_token_char c = true → is_ascii_byte c = true.
Proof. destruct c as [[] [] [] [] [] [] [] []]; vm_compute; done. Qed.

Lemma space_not_alnum : is_alnum " "%char = false.
Proof. reflexivity. Qed.

Lemma string_app_cons c (s1 s2 : string) : String c s1 +:+ s2 = String c (s1 +:+ s2).
Proof. reflexivity. Qed.

Lemma string_app_nil_l (s : string) : EmptyString +:+ s = s.
Proof. reflexivity. Qed.

Lemma string_app_assoc (s1 s2 s3 : string) : (s1 +:+ s2) +:+ s3 = s1 +:+ (s2 +:+ s3).
Proof.
  induction s1 as [|c s1 IH]; [done|]. rewrite !string_app_cons. by f_equal.
Qed.

Lemma string_app_nil_r (s : string) : s +:+ EmptyString = s.
Proof. induction s as [|c s IH]; [done|]. rewrite string_app_cons. by f_equal. Qed.

Lemma string_forall_app P s1 s2 :
  string_forall P (s1 +:+ s2) = string_forall P s1 && string_forall P s2.
Proof.
  induction s1 as [|c s1 IH]; [done|].
  rewrite string_app_cons. simpl. by rewrite IH, andb_assoc.
Qed.

Lemma string_map_lower_lower s : string_map lower (string_map lower s) = string_map lower s.
Proof. induction s as [|c s IH]; simpl; [done|]. by rewrite lower_lower, IH. Qed.

Lemma string_map_lower_token s :
  string_forall is_token_char s = true → string_map lower s = s.
Proof.
  induction s as [|c s IH]; simpl; [done|].
  intros [Hc Hs]%andb_true_iff. apply token_char_alnum in Hc as [_ ->]. by rewrite IH.
Qed.

(** Induction along [str_lower]: the two characters that lower to ASCII
    letters, and a byte lowered on its own. *)
Lemma str_lower_cases (P : string → string → Prop) :
  P EmptyString EmptyString →
  (∀ rest, P rest (str_lower rest) →
     P (String "196"%char (String "176"%char rest))
       (String "i"%char (String "204"%char (String "135"%char (str_lower rest))))) →
  (∀ rest, P rest (str_lower rest) →
     P (String "226"%char (String "132"%char (String "170"%char rest)))
       (String "k"%char (str_lower rest))) →
  (∀ c rest, P rest (str_lower rest) → P (String c rest) (String (lower c) (str_lower rest))) →
  ∀ text, P text (str_lower text).
Proof.
  intros Hnil Hdotted Hkelvin Hbyte.
  assert (Hall : ∀ n text, String.length text ≤ n → P text (str_lower text)).
  { induction n as [|n IH]; intros text Hlen.
    { destruct text; [done|simpl in Hlen; lia]. }
    destruct text as [|c rest]; [done|]. simpl in Hlen.
    assert (P rest (str_lower rest)) as Hrest by (apply IH; lia).
    destruct rest as [|c1 rest1]; [by apply (Hbyte c EmptyString)|].
    cbn [str_lower]. simpl in Hlen.
    destruct (decide (c = "196"%char ∧ c1 = "176"%char)) as [[-> ->]|Hne].
    { apply Hdotted, IH. lia. }
    destruct rest1 as [|c2 rest2]; [by apply (Hbyte c (String c1 EmptyString))|].
    simpl in Hlen.
    destruct (decide (c = "226"%char ∧ c1 = "132"%char ∧ c2 = "170"%char))
      as [(-> & -> & ->)|Hne'].
    { apply Hkelvin, IH. lia. }
    by apply (Hbyte c (String c1 (String c2 rest2))). }
  intros text. by apply (Hall (String.length text)).
Qed.

(** Lowered text has no capital letter. *)
Lemma str_lower_no_capital text : string_forall no_capital (str_lower text) = true.
Proof.
  apply (str_lower_cases (λ _ lowered, string_forall no_capital lowered = true)).
  - done.
  - intros rest IH. by cbn [string_forall]; rewrite IH.
  - intros rest IH. by cbn [string_forall]; rewrite IH.
  - intros c rest IH. cbn [string_forall]. by rewrite lower_no_capital, IH.
Qed.

(** On ASCII text [str.lower] works character by character. *)
Lemma str_lower_ascii text :
  string_forall is_ascii_byte text = true → str_lower text = string_map lower text.
Proof.
  apply (str_lower_cases (λ text lowered,
           string_forall is_ascii_byte text = true → lowered = string_map lower text)).
  - done.
  - intros rest _ Hascii. cbn [string_forall] in Hascii. by vm_compute in Hascii.
  - intros rest _ Hascii. cbn [string_forall] in Hascii. by vm_compute in Hascii.
  - intros c rest IH Hascii. cbn [string_forall] in Hascii.
    apply andb_true_iff in Hascii as [_ Hrest]. simpl. by rewrite IH.
Qed.

Lemma flush_elem_of t run : t ∈ flush run ↔ t = run ∧ run ≠ EmptyString.
Proof.
  destruct run; simpl.
  - rewrite elem_of_nil. by split; [|intros [_ ?]].
  - rewrite list_elem_of_singleton. by split; [|intros [? _]].
Qed.

(** The runs [findall] returns from text without capitals, given the run
    in hand. *)
Lemma findall_alnum_tokens text run t :
  string_forall no_capital text = true →
  string_forall is_token_char run = true →
  t ∈ findall_alnum text run →
  t ≠ EmptyString ∧ string_forall is_token_char t = true.
Proof.
  revert run. induction text as [|c text IH]; intros run Htext Hrun; cbn [findall_alnum].
  - by intros [-> ?]%flush_elem_of.
  - cbn [string_forall] in Htext. apply andb_true_iff in Htext as [Hc Htext].
    destruct (is_alnum c) eqn:Halnum.
    + apply IH; [done|]. rewrite string_forall_app, Hrun. cbn [string_forall].
      unfold no_capital in Hc. rewrite Halnum in Hc. simpl in Hc. by rewrite Hc.
    + rewrite elem_of_app. intros [[-> ?]%flush_elem_of|Ht]; [done|].
      by apply (IH EmptyString).
Qed.

Lemma join_empty_flush run : join_empty (flush run) = run.
Proof. destruct run; simpl; [done|]. by rewrite string_app_nil_r. Qed.

Lemma join_empty_app l1 l2 : join_empty (l1 ++ l2) = join_empty l1 +:+ join_empty l2.
Proof.
  induction l1 as [|s l1 IH]; simpl; [done|]. by rewrite IH, string_app_assoc.
Qed.

Lemma findall_alnum_join text run :
  join_empty (findall_alnum text run) = run +:+ string_filter is_alnum text.
Proof.
  revert run. induction text as [|c text IH]; intros run; simpl.
  - by rewrite join_empty_flush, string_app_nil_r.
  - destruct (is_alnum c).
    + by rewrite IH, string_app_assoc.
    + by rewrite join_empty_app, join_empty_flush, (IH EmptyString).
Qed.

Lemma tokenize_findall text : tokenize text = findall_alnum (str_lower text) EmptyString.
Proof. by destruct text. Qed.

Lemma elem_of_tokenize text t :
  t ∈ tokenize text → t ≠ EmptyString ∧ string_forall is_token_char t = true.
Proof.
  rewrite tokenize_findall. by apply findall_alnum_tokens; [apply str_lower_no_capital|].
Qed.

(** X1: every token is a non-empty run of digits and lowercase letters,
    and the tokens, put end to end, are the letters and digits of the
    lowercased text in their order: only separators are lost. *)
Theorem tokenize_tokens (text : string) :
  (∀ t, t ∈ tokenize text →
        t ≠ EmptyString ∧ string_forall is_token_char t = true)
  ∧ join_empty (tokenize text) = string_filter is_alnum (str_lower text).
Proof.
  split.
  - intros t. apply elem_of_tokenize.
  - by rewrite tokenize_findall, findall_alnum_join.
Qed.

Lemma string_map_app f s1 s2 : string_map f (s1 +:+ s2) = string_map f s1 +:+ string_map f s2.
Proof.
  induction s1 as [|c s1 IH]; [done|]. rewrite string_app_cons. simpl.
  by rewrite IH.
Qed.

Lemma findall_alnum_run t rest run :
  string_forall is_token_char t = true →
  findall_alnum (t +:+ rest) run = findall_alnum rest (run +:+ t).
Proof.
  revert run. induction t as [|c t IH]; intros run Ht.
  - by rewrite string_app_nil_r.
  - simpl in Ht. apply andb_true_iff in Ht as [Hc Ht].
    rewrite string_app_cons. simpl.
    destruct (token_char_alnum c Hc) as [-> _].
    rewrite IH by done. by rewrite string_app_assoc.
Qed.

Lemma string_map_lower_join_space tokens :
  Forall (λ t, string_forall is_token_char t = true) tokens →
  string_map lower (join_space tokens) = join_space tokens.
Proof.
  induction 1 as [|t tokens Ht Hts IH]; [done|].
  destruct tokens as [|t' tokens]; [by apply string_map_lower_token|].
  cbn [join_space] in *. rewrite !string_map_app, IH.
  by rewrite (string_map_lower_token t).
Qed.

Lemma string_forall_impl (P Q : ascii → bool) s :
  (∀ c, P c = true → Q c = true) → string_forall P s = true → string_forall Q s = true.
Proof.
  intros HPQ. induction s as [|c s IH]; [done|]. cbn [string_forall].
  intros [Hc Hs]%andb_true_iff. by rewrite (HPQ c Hc), IH.
Qed.

Lemma join_space_ascii tokens :
  Forall (λ t, string_forall is_token_char t = true) tokens →
  string_forall is_ascii_byte (join_space tokens) = true.
Proof.
  induction 1 as [|t tokens Ht Hts IH]; [done|].
  apply (string_forall_impl _ _ _ token_char_ascii) in Ht.
  destruct tokens as [|t' tokens]; [done|].
  cbn [join_space] in *. rewrite !string_forall_app, Ht, IH. done.
Qed.

Lemma findall_alnum_join_space tokens :
  Forall (λ t, t ≠ EmptyString ∧ string_forall is_token_char t = true) tokens →
  findall_alnum (join_space tokens) EmptyString = tokens.
Proof.
  induction 1 as [|t tokens [Hne Ht] Hts IH]; [done|].
  destruct tokens as [|t' tokens].
  - cbn [join_space]. rewrite <- (string_app_nil_r t) at 1.
    rewrite findall_alnum_run by done. simpl. by destruct t.
  - cbn [join_space] in *. rewrite findall_alnum_run by done.
    rewrite string_app_nil_l, string_app_cons, string_app_nil_l.
    cbn [findall_alnum]. rewrite space_not_alnum, IH. by destruct t.
Qed.

(** X2: tokenizing is idempotent: the tokens of a text, written out with
    single blanks between them and tokenized again, are the same tokens in
    the same order. *)
Theorem tokenize_join_space (text : string) :
  tokenize (join_space (tokenize text)) = tokenize text.
Proof.
  assert (Htokens : Forall (λ t, string_forall is_token_char t = true) (tokenize text)).
  { apply Forall_forall. intros t Ht. by apply elem_of_tokenize in Ht as [_ ?]. }
  rewrite (tokenize_findall (join_space _)).
  rewrite str_lower_ascii by (by apply join_space_ascii).
  rewrite string_map_lower_join_space by done.
  apply findall_alnum_join_space, Forall_forall. intros t. apply elem_of_tokenize.
Qed.

(** The two characters outside ASCII that lower to ASCII letters: the
    Kelvin sign gives the token "k", the dotted capital I the token "i". *)
Example tokenize_kelvin :
  tokenize (String "226"%char (String "132"%char (String "170"%char EmptyString))) = ["k"]
  ∧ tokenize (String "196"%char (String "176"%char EmptyString)) = ["i"]
  ∧ tokenize "Cat, CAT!" = ["cat"; "cat"].
Proof. repeat split; vm_compute; reflexivity. Qed.

(** ** Query normalisation *)

Lemma elem_of_unique_tokens seen tokens t :
  t ∈ unique_tokens seen tokens ↔ t ∈ tokens ∧ t ∉ seen.
Proof.
  revert seen. induction tokens as [|token tokens IH]; intros seen; cbn [unique_tokens].
  - rewrite elem_of_nil. tauto.
  - destruct (decide (token ∈ seen)) as [Hin|Hout].
    + rewrite IH, elem_of_cons. split; [tauto|]. intros [[->|?] ?]; tauto.
    + rewrite !elem_of_cons, IH, elem_of_union, elem_of_singleton.
      split.
      * intros [->|[? ?]]; tauto.
      * intros [[->|?] ?]; [by left|].
        destruct (decide (t = token)); [by left|right; tauto].
Qed.

Lemma NoDup_unique_tokens seen tokens : NoDup (unique_tokens seen tokens).
Proof.
  revert seen. induction tokens as [|token tokens IH]; intros seen; cbn [unique_tokens].
  - constructor.
  - destruct (decide (token ∈ seen)); [apply IH|].
    constructor; [|apply IH].
    rewrite elem_of_unique_tokens, elem_of_union, elem_of_singleton. tauto.
Qed.

Lemma sublist_unique_tokens seen tokens : unique_tokens seen tokens `sublist_of` tokens.
Proof.
  revert seen. induction tokens as [|token tokens IH]; intros seen; cbn [unique_tokens].
  - constructor.
  - destruct (decide (token ∈ seen)); [apply sublist_cons, IH|apply sublist_skip, IH].
Qed.

(** X3: the query terms are the stemmed tokens of the query with the
    repetitions removed: no term occurs twice, every stemmed token is
    among them, and they stand in the order of the query. *)
Theorem process_query_distinct (stem : string → string) (query : string) :
  NoDup (M3SearchEngine._process_query stem query)
  ∧ (∀ t, t ∈ M3SearchEngine._process_query stem query ↔ t ∈ stem <$> tokenize query)
  ∧ M3SearchEngine._process_query stem query `sublist_of` (stem <$> tokenize query).
Proof.
  unfold M3SearchEngine._process_query. split; [apply NoDup_unique_tokens|].
  split; [|apply sublist_unique_tokens].
  intros t. rewrite elem_of_unique_tokens. split; [tauto|].
  intros Ht. split; [done|]. apply not_elem_of_empty.
Qed.

(** ** The weight of a term *)

Lemma ln_le_mono (x y : R) : (0 < x)%R → (x <= y)%R → (ln x <= ln y)%R.
Proof. intros Hx [Hlt| ->]; [left; by apply ln_increasing|by right]. Qed.

Lemma INR_ge_1 n : 0 < n → (1 <= INR n)%R.
Proof. intros Hn. change 1%R with (INR 1). apply le_INR. lia. Qed.

Lemma tf_weight_ge_1 tf : 0 < tf → (1 <= tf_weight tf)%R.
Proof.
  intros Htf. unfold tf_weight. rewrite decide_True by done.
  pose proof (INR_ge_1 tf Htf) as Hge.
  pose proof (ln_le_mono 1 (INR tf)) as Hln. rewrite ln_1 in Hln. lra.
Qed.

Lemma tf_weight_mono tf tf' : tf ≤ tf' → (tf_weight tf <= tf_weight tf')%R.
Proof.
  intros Hle. destruct (decide (0 < tf)) as [Htf|Htf].
  - unfold tf_weight. rewrite !decide_True by lia.
    pose proof (INR_ge_1 tf Htf). pose proof (le_INR _ _ Hle).
    pose proof (ln_le_mono (INR tf) (INR tf')). lra.
  - unfold tf_weight at 1. rewrite decide_False by done.
    destruct (decide (0 < tf')) as [Htf'|Htf'].
    + pose proof (tf_weight_ge_1 tf' Htf'). lra.
    + unfold tf_weight. rewrite decide_False by done. lra.
Qed.

Lemma idf_anti N df df' : df' ≤ df → (idf N df <= idf N df')%R.
Proof.
  intros Hle. unfold idf.
  pose proof (pos_INR N). pose proof (pos_INR df'). pose proof (le_INR _ _ Hle).
  assert (/ (INR df + 1) <= / (INR df' + 1))%R by (apply Rinv_le_contravar; lra).
  assert (0 < / (INR df + 1))%R by (apply Rinv_0_lt_compat; lra).
  pose proof (ln_le_mono ((INR N + 1) / (INR df + 1)) ((INR N + 1) / (INR df' + 1))) as Hln.
  unfold Rdiv in *.
  assert (0 < (INR N + 1) * / (INR df + 1))%R by (apply Rmult_lt_0_compat; lra).
  assert ((INR N + 1) * / (INR df + 1) <= (INR N + 1) * / (INR df' + 1))%R
    by (apply Rmult_le_compat_l; lra).
  lra.
Qed.

Lemma idf_ge_1 N df : df ≤ N → (1 <= idf N df)%R.
Proof.
  intros Hle. pose proof (idf_anti N N df Hle) as Hanti.
  assert (idf N N = 1)%R; [|lra].
  unfold idf. pose proof (pos_INR N).
  replace ((INR N + 1) / (INR N + 1))%R with 1%R by (field; lra).
  rewrite ln_1. lra.
Qed.

(** X4: a posting that counts at least one occurrence, for a term found
    in at least one and at most all of the N documents, weighs at least
    1, whether flagged important or not. *)
Theorem tf_idf_at_least_one (tf df total_docs : nat) (is_important : bool) :
  0 < tf → 0 < df → df ≤ total_docs →
  (1 <= M3SearchEngine._calculate_enhanced_tf_idf tf df total_docs is_important)%R.
Proof.
  intros Htf Hdf HN. rewrite _calculate_enhanced_tf_idf_weight by lia.
  pose proof (tf_weight_ge_1 tf Htf). pose proof (idf_ge_1 total_docs df HN).
  unfold boost. destruct is_important; nra.
Qed.

Lemma tf_idf_at_least_one_witness :
  0 < 3 ∧ 0 < 2 ∧ 2 ≤ 9
  ∧ (1 <= M3SearchEngine._calculate_enhanced_tf_idf 3 2 9 true)%R.
Proof.
  assert (Htf : 0 < 3) by lia. assert (Hdf : 0 < 2) by lia. assert (HN : 2 ≤ 9) by lia.
  split; [exact Htf|]. split; [exact Hdf|]. split; [exact HN|].
  exact (tf_idf_at_least_one 3 2 9 true Htf Hdf HN).
Defined.

(** X5: the weight does not fall when the posting counts more
    occurrences, nor when the term is in fewer documents: more frequent in
    the document and rarer in the collection never weighs less. *)
Theorem tf_idf_monotone (tf tf' df df' total_docs : nat) (is_important : bool) :
  tf ≤ tf' → 0 < df' → df' ≤ df → df ≤ total_docs →
  (M3SearchEngine._calculate_enhanced_tf_idf tf df total_docs is_important
   <= M3SearchEngine._calculate_enhanced_tf_idf tf' df' total_docs is_important)%R.
Proof.
  intros Htf Hdf' Hdf HN. rewrite !_calculate_enhanced_tf_idf_weight by lia.
  pose proof (tf_weight_mono tf tf' Htf).
  pose proof (idf_anti total_docs df df' Hdf).
  pose proof (idf_ge_1 total_docs df HN).
  assert (0 <= tf_weight tf)%R.
  { destruct (decide (0 < tf)) as [Hpos|Hzero].
    - pose proof (tf_weight_ge_1 tf Hpos). lra.
    - unfold tf_weight. rewrite decide_False by done. lra. }
  unfold boost. destruct is_important; nra.
Qed.

Lemma tf_idf_monotone_witness :
  1 ≤ 3 ∧ 0 < 1 ∧ 1 ≤ 2 ∧ 2 ≤ 9
  ∧ (M3SearchEngine._calculate_enhanced_tf_idf 1 2 9 false
     <= M3SearchEngine._calculate_enhanced_tf_idf 3 1 9 false)%R.
Proof.
  assert (Htf : 1 ≤ 3) by lia. assert (Hdf' : 0 < 1) by lia.
  assert (Hdf : 1 ≤ 2) by lia. assert (HN : 2 ≤ 9) by lia.
  split; [exact Htf|]. split; [exact Hdf'|]. split; [exact Hdf|]. split; [exact HN|].
  exact (tf_idf_monotone 1 3 2 1 9 false Htf Hdf' Hdf HN).
Defined.

(** ** Ranking: scores, completeness, query spelling *)

Lemma sum_R_ge_1 (l : list R) : l ≠ [] → Forall (λ x, 1 <= x)%R l → (1 <= sum_R l)%R.
Proof.
  intros Hne Hall. destruct Hall as [|x l Hx Hall]; [done|]. simpl.
  assert (0 <= sum_R l)%R; [|lra].
  clear Hne Hx. induction Hall as [|y l Hy Hall IH]; simpl; lra.
Qed.

Lemma py_slice_to_all {A} (l : list A) (k : Z) :
  (Z.of_nat (length l) ≤ k)%Z → py_slice_to l k = l.
Proof.
  intros Hk. unfold py_slice_to. rewrite decide_True by lia.
  apply take_ge. lia.
Qed.

Lemma tokenize_no_alnum text :
  string_filter is_alnum (str_lower text) = EmptyString → tokenize text = [].
Proof.
  intros Hnone. rewrite tokenize_findall.
  pose proof (findall_alnum_join (str_lower text) EmptyString) as Hjoin.
  rewrite Hnone in Hjoin. simpl in Hjoin.
  destruct (findall_alnum (str_lower text) EmptyString) as [|t l] eqn:Hl; [done|].
  assert (t ≠ EmptyString) as Ht.
  { eapply (findall_alnum_tokens (str_lower text) EmptyString);
      [apply str_lower_no_capital|done|]. rewrite Hl. by left. }
  cbn [join_empty foldr] in Hjoin. by destruct t.
Qed.


Section Ranking.

Variable stem : string → string.
Variable set_iter : gset nat → list nat.
Variable _get_postings : string → gmap nat Posting.
Variable id_to_url : gmap nat string.
Variable total_docs : nat.

(** Iterating over a set visits its members, each once. *)
Hypothesis set_iter_spec : ∀ (X : gset nat) d, d ∈ set_iter X ↔ d ∈ X.
Hypothesis set_iter_NoDup : ∀ X : gset nat, NoDup (set_iter X).

Local Abbreviation fetch_postings := (M3SearchEngine.fetch_postings _get_postings).
Local Abbreviation sorted_docs := (M3SearchEngine.sorted_docs stem set_iter _get_postings total_docs).
Local Abbreviation search :=
  (M3SearchEngine.search stem set_iter _get_postings id_to_url total_docs).
Local Abbreviation _process_query := (M3SearchEngine._process_query stem).

Lemma sorted_docs_matches query d :
  (∃ s, (d, s) ∈ sorted_docs query) ↔ matches_query _get_postings (_process_query query) d.
Proof using set_iter_spec.
  unfold matches_query. split.
  - intros [s (_ & Hne & Hall)%(elem_of_sorted_docs _ _ _ _ set_iter_spec)]. split.
    + destruct (fetch_postings (_process_query query)) as [|[t p] l] eqn:Hf; [done|].
      assert ((t, p) ∈ fetch_postings (_process_query query))
        as (Ht & -> & Hp)%elem_of_fetch_postings by (rewrite Hf; by left).
      by exists t.
    + intros t Ht Hp. apply elem_of_dom, (Hall (t, _get_postings t)).
      by apply elem_of_fetch_postings.
  - intros [(t & Ht & Hp) Hall]. eexists.
    apply (elem_of_sorted_docs _ _ _ _ set_iter_spec). split; [reflexivity|]. split.
    + intros Hnil.
      assert ((t, _get_postings t) ∈ fetch_postings (_process_query query)) as Hin
        by (by apply elem_of_fetch_postings).
      rewrite Hnil in Hin. by apply elem_of_nil in Hin.
    + intros [t' p'] (Ht' & -> & Hp')%elem_of_fetch_postings. simpl.
      apply elem_of_dom. by apply Hall.
Qed.

Lemma sorted_docs_NoDup query : NoDup (sorted_docs query).*1.
Proof using set_iter_spec set_iter_NoDup.
  destruct (sorted_docs_shape stem set_iter _get_postings total_docs set_iter_spec query)
    as [candidate_docs ->].
  rewrite py_sorted_Permutation, <- list_fmap_compose.
  rewrite (list_fmap_ext _ Datatypes.id (set_iter candidate_docs)) by done.
  rewrite list_fmap_id. apply set_iter_NoDup.
Qed.

(** X6: the ranking lists every matching document, and lists it once;
    when top_k is at least the length of the ranking, every matching
    document that has a URL is in the result. *)
Theorem search_complete (query : string) (top_k : Z) :
  NoDup (sorted_docs query).*1
  ∧ (∀ d, d ∈ (sorted_docs query).*1 ↔ matches_query _get_postings (_process_query query) d)
  ∧ ((Z.of_nat (length (sorted_docs query)) ≤ top_k)%Z →
     ∀ d url, matches_query _get_postings (_process_query query) d →
              id_to_url !! d = Some url →
              ∃ s, (url, s) ∈ search query top_k).
Proof using set_iter_spec set_iter_NoDup.
  split; [apply sorted_docs_NoDup|]. split.
  - intros d. rewrite <- sorted_docs_matches, list_elem_of_fmap. split.
    + intros ([d' s] & -> & Hin). by exists s.
    + intros [s Hin]. by exists (d, s).
  - intros Hk d url [s Hin]%sorted_docs_matches Hurl. exists s.
    apply elem_of_search. exists d. by rewrite py_slice_to_all.
Qed.

(** X7: in an index whose postings count at least one occurrence and
    whose posting lists are no longer than the document count, every
    result has a score of at least 1 / sqrt(q) > 0, q the number of query
    terms. *)
Theorem search_scores_positive (query : string) (top_k : Z) (url : string) (s : R) :
  (∀ t d p, _get_postings t !! d = Some p → 0 < tf p) →
  (∀ t, size (_get_postings t) ≤ total_docs) →
  (url, s) ∈ search query top_k →
  (0 < / sqrt (INR (length (_process_query query))) <= s)%R.
Proof using set_iter_spec.
  intros Htf Hdf (d & Hin%elem_of_py_slice_to & _)%elem_of_search.
  assert (matches_query _get_postings (_process_query query) d) as [(t & Ht & Hp) Hall].
  { apply sorted_docs_matches. by exists s. }
  apply (elem_of_sorted_docs _ _ _ _ set_iter_spec) in Hin as (-> & _ & _).
  set (query_terms := _process_query query) in *.
  assert (HN : total_docs ≠ 0).
  { apply map_size_non_empty_iff in Hp. specialize (Hdf t). lia. }
  rewrite doc_score_gated by done. unfold gated_score.
  set (Q' := matched_terms _get_postings query_terms d).
  assert (1 <= sum_R (term_weight _get_postings total_docs d <$> Q'))%R as Hsum.
  { apply sum_R_ge_1.
    - assert (t ∈ Q') as Hin.
      { apply list_elem_of_filter. split; [by apply Hall|done]. }
      intros Hnil. apply fmap_nil_inv in Hnil. rewrite Hnil in Hin.
      by apply elem_of_nil in Hin.
    - apply Forall_fmap, Forall_forall. intros t' [[p' Hp'] _]%list_elem_of_filter.
      simpl. unfold term_weight. rewrite Hp'.
      pose proof (tf_weight_ge_1 (tf p') (Htf _ _ _ Hp')).
      pose proof (idf_ge_1 total_docs _ (Hdf t')).
      unfold boost. destruct (is_important p'); nra. }
  assert (0 < length query_terms) as Hlen.
  { destruct query_terms; [by apply elem_of_nil in Ht|simpl; lia]. }
  assert (0 < sqrt (INR (length query_terms)))%R as Hsqrt.
  { apply sqrt_lt_R0. pose proof (INR_ge_1 _ Hlen). lra. }
  pose proof (Rinv_0_lt_compat _ Hsqrt) as Hinv.
  split; [done|]. unfold Rdiv. rewrite Rmult_1_l.
  destruct (decide (length Q' = length query_terms)); nra.
Qed.


(** X9: a query whose lowercased text has no ASCII letter or digit, the
    empty query among them, has no result.  The text counts lowercased:
    the Kelvin sign has no ASCII letter, its lowercase [k] is one. *)
Theorem search_without_terms (query : string) (top_k : Z) :
  string_filter is_alnum (str_lower query) = EmptyString → search query top_k = [].
Proof.
  intros Hq%tokenize_no_alnum.
  unfold M3SearchEngine.search, M3SearchEngine.sorted_docs, M3SearchEngine._process_query.
  rewrite Hq. simpl. unfold py_slice_to. by case_decide; rewrite take_nil.
Qed.

End Ranking.

Lemma slot_order_NoDup (X : gset nat) : NoDup (slot_order X).
Proof. unfold slot_order. rewrite py_sorted_Permutation. apply NoDup_elements. Qed.

Lemma pets_postings_other t : t ≠ "cat" → pets_postings t = ∅.
Proof. intros Ht. unfold pets_postings, pets_index. by rewrite lookup_singleton_ne. Qed.

Lemma pets_tf_positive t d p : pets_postings t !! d = Some p → 0 < tf p.
Proof.
  destruct (decide (t = "cat")) as [->|Ht].
  - unfold pets_postings, pets_index. rewrite lookup_singleton_eq. simpl.
    rewrite lookup_insert_Some, lookup_singleton_Some.
    intros [[_ <-]|[_ [_ <-]]]; simpl; lia.
  - by rewrite pets_postings_other, lookup_empty.
Qed.

Lemma pets_df_bounded t : size (pets_postings t) ≤ 9.
Proof.
  destruct (decide (t = "cat")) as [->|Ht].
  - replace (size (pets_postings "cat")) with 2 by (by vm_compute). lia.
  - rewrite pets_postings_other by done. rewrite map_size_empty. lia.
Qed.

Lemma pets_matches_cat : matches_query pets_postings ["cat"] 1.
Proof.
  split.
  - exists "cat". split; [by left|]. apply map_size_non_empty_iff.
    by replace (size (pets_postings "cat")) with 2 by (by vm_compute).
  - intros t ->%list_elem_of_singleton _.
    by replace (pets_postings "cat" !! 1) with (Some (mkPosting 1 false))
      by (by vm_compute).
Qed.

Lemma search_complete_witness :
  (∀ (X : gset nat) d, d ∈ slot_order X ↔ d ∈ X)
  ∧ (∀ X : gset nat, NoDup (slot_order X))
  ∧ (Z.of_nat (length (M3SearchEngine.sorted_docs stem_unchanged slot_order
                         pets_postings 9 "cat")) ≤ 10)%Z
  ∧ matches_query pets_postings (M3SearchEngine._process_query stem_unchanged "cat") 1
  ∧ pets_urls !! 1 = Some "http://a/1"
  ∧ ∃ s, ("http://a/1", s) ∈
           M3SearchEngine.search stem_unchanged slot_order pets_postings pets_urls 9
             "cat" 10.
Proof.
  assert (Hlen : (Z.of_nat (length (M3SearchEngine.sorted_docs stem_unchanged slot_order
                                      pets_postings 9 "cat")) ≤ 10)%Z).
  { rewrite pets_sorted_docs_cat. simpl. lia. }
  assert (Hmatch : matches_query pets_postings
                     (M3SearchEngine._process_query stem_unchanged "cat") 1).
  { replace (M3SearchEngine._process_query stem_unchanged "cat") with ["cat"]
      by (by vm_compute). apply pets_matches_cat. }
  assert (Hurl : pets_urls !! 1 = Some "http://a/1") by (by vm_compute).
  split; [exact slot_order_spec|]. split; [exact slot_order_NoDup|].
  split; [exact Hlen|]. split; [exact Hmatch|]. split; [exact Hurl|].
  exact (proj2 (proj2 (search_complete stem_unchanged slot_order pets_postings pets_urls 9
                         slot_order_spec slot_order_NoDup "cat" 10))
           Hlen 1 "http://a/1" Hmatch Hurl).
Defined.

Lemma search_scores_positive_witness :
  (∀ (X : gset nat) d, d ∈ slot_order X ↔ d ∈ X)
  ∧ (∀ t d p, pets_postings t !! d = Some p → 0 < tf p)
  ∧ (∀ t, size (pets_postings t) ≤ 9)
  ∧ ("http://a/1", pets_score) ∈
      M3SearchEngine.search stem_unchanged slot_order pets_postings pets_urls 9 "cat" 10
  ∧ (0 < / sqrt (INR (length (M3SearchEngine._process_query stem_unchanged "cat")))
     <= pets_score)%R.
Proof.
  assert (Hin : ("http://a/1", pets_score) ∈
    M3SearchEngine.search stem_unchanged slot_order pets_postings pets_urls 9 "cat" 10).
  { rewrite (pets_search pets_urls "cat" pets_score);
      [right; by left|by vm_compute|by vm_compute|apply pets_sorted_docs_cat]. }
  split; [exact slot_order_spec|]. split; [exact pets_tf_positive|].
  split; [exact pets_df_bounded|]. split; [exact Hin|].
  exact (search_scores_positive stem_unchanged slot_order pets_postings pets_urls 9
           slot_order_spec "cat" 10 "http://a/1" pets_score
           pets_tf_positive pets_df_bounded Hin).
Defined.


Lemma search_without_terms_witness :
  string_filter is_alnum (str_lower "?! -") = EmptyString
  ∧ M3SearchEngine.search stem_unchanged slot_order pets_postings pets_urls 9 "?! -" 10
    = [].
Proof.
  assert (Hq : string_filter is_alnum (str_lower "?! -") = EmptyString) by reflexivity.
  split; [exact Hq|].
  exact (search_without_terms stem_unchanged slot_order pets_postings pets_urls 9
           "?! -" 10 Hq).
Defined.

(** ** The posting cache *)

Lemma items_get_app {V} (l1 l2 : list (string * V)) key :
  items_get (l1 ++ l2) key
  = match items_get l1 key with Some v => Some v | None => items_get l2 key end.
Proof.
  induction l1 as [|[k v] l1 IH]; [done|]. cbn [app items_get].
  by destruct (decide (k = key)).
Qed.

Lemma convert_postings_non_empty items postings postings' :
  Reader.convert_postings items postings = Ok postings' →
  items ≠ [] ∨ postings ≠ ∅ → postings' ≠ ∅.
Proof.
  revert postings. induction items as [|[k v] items IH]; intros postings Hc Hne.
  - injection Hc as <-. by destruct Hne.
  - cbn [Reader.convert_postings] in Hc. apply bind_Ok in Hc as (doc_id & _ & Hc).
    apply (IH _ Hc). right. apply insert_non_empty.
Qed.

(** What [read_postings] leaves in the cache: nothing new, or the term as
    the newest entry behind the old ones, the oldest dropped when the
    cache was full. *)
Lemma read_postings_Ok re_search json_loads self term content postings self' :
  Reader.read_postings re_search json_loads self term content = Ok (postings, self') →
  (postings = ∅ ∧ self' = self)
  ∨ (postings ≠ ∅
     ∧ ∃ cache,
         self' = Reader.mk (Reader.id_to_url self) (Reader.total_docs self)
                   (Reader.df_cache self) (cache ++ [(term, postings)])
                   (Reader.cache_max_size self) (Reader.index_file_size self)
         ∧ ((Reader.cache_max_size self ≤ length (Reader.postings_cache self)
             ∧ ∃ oldest, Reader.postings_cache self = oldest :: cache)
            ∨ (length (Reader.postings_cache self) < Reader.cache_max_size self
               ∧ cache = Reader.postings_cache self))).
Proof.
  unfold Reader.read_postings. intros Hread.
  apply bind_Ok in Hread as (term_data & _ & Hread).
  destruct (truthy term_data) eqn:Htruthy; [|injection Hread as <- <-; by left].
  apply bind_Ok in Hread as (items & Hitems & Hread).
  apply bind_Ok in Hread as (ps & Hconvert & Hread).
  apply bind_Ok in Hread as (cache & Hevict & Hread).
  injection Hread as <- <-. right. split.
  - apply (convert_postings_non_empty _ _ _ Hconvert). left.
    destruct term_data as [[| | | | |members]|]; try done.
    simpl in Hitems, Htruthy. injection Hitems as <-.
    by apply bool_decide_eq_true in Htruthy.
  - exists cache. split; [done|]. case_decide as Hfull.
    + left. split; [done|].
      destruct (Reader.postings_cache self) as [|oldest rest]; [done|].
      injection Hevict as <-. by exists oldest.
    + right. injection Hevict as <-. split; [lia|done].
Qed.

Section Cache.

Variable re_search : string → string → option (N * string).
Variable json_loads : string → option Json.

Local Abbreviation _get_postings_from_disk :=
  (Reader._get_postings_from_disk re_search json_loads).
Local Abbreviation reachable := (Reader.reachable re_search json_loads).

Lemma cache_bounded_lookup d self term :
  cache_bounded self → cache_bounded (_get_postings_from_disk d self term).2.
Proof.
  intros (Hmax & Hlen & Hnodup & Hne). unfold Reader._get_postings_from_disk.
  destruct (items_get (Reader.postings_cache self) term) as [ps|] eqn:Hget; [done|].
  destruct (index_file d) as [content|]; [|done].
  destruct (Reader.read_postings _ _ _ _ _) as [[postings self']|e] eqn:Hread; [|done].
  apply read_postings_Ok in Hread as [[_ ->]|(Hps & cache & -> & Hcache)]; [done|].
  apply items_get_None in Hget. unfold cache_bounded. simpl.
  assert (length cache < 500 ∧ cache ⊆ Reader.postings_cache self
          ∧ NoDup cache.*1) as (Hlen' & Hsub & Hnodup').
  { destruct Hcache as [[_ [oldest Heq]]|[? ->]].
    - rewrite Heq in Hlen, Hnodup. simpl in Hlen. rewrite fmap_cons in Hnodup.
      apply NoDup_cons in Hnodup as [_ ?].
      split; [lia|]. split; [|done]. rewrite Heq. intros x ?. by right.
    - split; [lia|]. done. }
  split; [done|]. split; [rewrite length_app; simpl; lia|]. split.
  - rewrite fmap_app. change ([(term, postings)].*1) with [term].
    apply NoDup_app. split; [done|]. split.
    + intros t Ht ->%list_elem_of_singleton. apply Hget.
      apply list_elem_of_fmap in Ht as (x & -> & Hx).
      apply list_elem_of_fmap. exists x. split; [done|]. by apply Hsub.
    + apply NoDup_singleton.
  - intros t ps [Hin|Hin%list_elem_of_singleton]%elem_of_app.
    + by apply (Hne t), Hsub.
    + by injection Hin as -> ->.
Qed.

(** X10: in every state the engine can reach, the posting cache holds at
    most 500 terms, no term twice, and no empty posting list. *)
Theorem cache_stays_bounded (d : IndexDir) (self : Reader.t) :
  reachable d self →
  length (Reader.postings_cache self) ≤ 500
  ∧ NoDup (Reader.postings_cache self).*1
  ∧ ∀ term postings, (term, postings) ∈ Reader.postings_cache self → postings ≠ ∅.
Proof.
  intros Hreach. assert (cache_bounded self) as (_ & ? & ? & ?); [|done].
  induction Hreach as [self Hinit|self term Hreach IH].
  - unfold Reader.__init__ in Hinit. destruct (doc_mapping_file d); [|done].
    apply bind_Ok in Hinit as (? & _ & [= <-]).
    split; [done|]. split; [simpl; lia|]. split; [constructor|].
    by intros t ps ?%elem_of_nil.
  - by apply cache_bounded_lookup.
Qed.

(** X11: looking a term up a second time gives the same posting list and
    leaves the engine as the first lookup left it, in any state. *)
Theorem lookup_twice (d : IndexDir) (self : Reader.t) (term : string) :
  let first := _get_postings_from_disk d self term in
  _get_postings_from_disk d first.2 term = first.
Proof.
  intros first. assert (_get_postings_from_disk d self term = first) as Hfirst by done.
  clearbody first. unfold Reader._get_postings_from_disk in Hfirst.
  destruct (items_get (Reader.postings_cache self) term) as [ps|] eqn:Hget.
  { subst first. simpl. unfold Reader._get_postings_from_disk. by rewrite Hget. }
  destruct (index_file d) as [content|] eqn:Hfile.
  2: { subst first. simpl. unfold Reader._get_postings_from_disk. by rewrite Hget, Hfile. }
  destruct (Reader.read_postings _ _ _ _ _) as [[postings self']|e] eqn:Hread.
  2: { subst first. simpl. unfold Reader._get_postings_from_disk.
       by rewrite Hget, Hfile, Hread. }
  subst first.
  pose proof Hread as [[-> ->]|(_ & cache & -> & Hcache)]%read_postings_Ok.
  { simpl. unfold Reader._get_postings_from_disk. by rewrite Hget, Hfile, Hread. }
  simpl. unfold Reader._get_postings_from_disk. simpl.
  rewrite items_get_app.
  replace (items_get cache term) with (@None (gmap nat Json)).
  { simpl. by rewrite decide_True. }
  destruct Hcache as [[_ [[k v] Heq]]|[_ ->]]; [|done].
  rewrite Heq in Hget. simpl in Hget. by destruct (decide (k = term)).
Qed.

(** X12: the cache does not change an answer: whatever was looked up
    before, a lookup returns the posting list the freshly started engine
    returns for the term. *)
Theorem cache_transparent (d : IndexDir) (fresh self : Reader.t) (term : string) :
  Reader.__init__ d = Ok fresh → reachable d self →
  (_get_postings_from_disk d self term).1 = (_get_postings_from_disk d fresh term).1.
Proof.
  intros Hinit Hreach.
  rewrite (reachable_read re_search json_loads d self term Hreach).
  symmetry. apply reachable_read. by constructor.
Qed.

End Cache.

Example cat_lookup :
  Reader.__init__ cat_index_dir = Ok cat_engine
  ∧ Reader._get_postings_from_disk cat_search cat_loads cat_index_dir cat_engine "cat"
    = (cat_postings, cat_engine_warm).
Proof. split; vm_compute; reflexivity. Qed.

Lemma cat_engine_warm_reachable :
  Reader.reachable cat_search cat_loads cat_index_dir cat_engine_warm.
Proof.
  change cat_engine_warm with (cat_postings, cat_engine_warm).2.
  rewrite <- (proj2 cat_lookup). apply Reader.reachable_lookup, Reader.reachable_init.
  apply cat_lookup.
Qed.

Lemma cache_stays_bounded_witness :
  Reader.reachable cat_search cat_loads cat_index_dir cat_engine_warm
  ∧ length (Reader.postings_cache cat_engine_warm) ≤ 500
  ∧ NoDup (Reader.postings_cache cat_engine_warm).*1.
Proof.
  split; [exact cat_engine_warm_reachable|].
  destruct (cache_stays_bounded cat_search cat_loads cat_index_dir cat_engine_warm
              cat_engine_warm_reachable) as (Hlen & Hnodup & _).
  split; [exact Hlen | exact Hnodup].
Defined.

Lemma cache_transparent_witness :
  Reader.__init__ cat_index_dir = Ok cat_engine
  ∧ Reader.reachable cat_search cat_loads cat_index_dir cat_engine_warm
  ∧ (Reader._get_postings_from_disk cat_search cat_loads cat_index_dir
       cat_engine_warm "cat").1
    = (Reader._get_postings_from_disk cat_search cat_loads cat_index_dir
         cat_engine "cat").1.
Proof.
  split; [exact (proj1 cat_lookup)|]. split; [exact cat_engine_warm_reachable|].
  exact (cache_transparent cat_search cat_loads cat_index_dir cat_engine cat_engine_warm
           "cat" (proj1 cat_lookup) cat_engine_warm_reachable).
Defined.

(** ** The invariants of a build *)

Lemma record_document_known self url tokens important_tokens doc_id :
  DiskBasedIndexer.doc_ids self !! url = Some doc_id →
  DiskBasedIndexer.record_document self url tokens important_tokens
  = DiskBasedIndexer.mk (DiskBasedIndexer.max_docs_in_memory self)
      (post_tokens (DiskBasedIndexer.index self) doc_id tokens important_tokens)
      (DiskBasedIndexer.doc_ids self) (DiskBasedIndexer.doc_id_to_url self)
      (DiskBasedIndexer.next_doc_id self) (S (DiskBasedIndexer.docs_in_memory self))
      (DiskBasedIndexer.partial_index_count self) (DiskBasedIndexer.disk self).
Proof. intros Hurl. unfold DiskBasedIndexer.record_document. by rewrite Hurl. Qed.

Lemma record_document_new self url tokens important_tokens :
  DiskBasedIndexer.doc_ids self !! url = None →
  DiskBasedIndexer.record_document self url tokens important_tokens
  = DiskBasedIndexer.mk (DiskBasedIndexer.max_docs_in_memory self)
      (post_tokens (DiskBasedIndexer.index self) (DiskBasedIndexer.next_doc_id self)
                   tokens important_tokens)
      (<[url := DiskBasedIndexer.next_doc_id self]> (DiskBasedIndexer.doc_ids self))
      (<[DiskBasedIndexer.next_doc_id self := url]> (DiskBasedIndexer.doc_id_to_url self))
      (S (DiskBasedIndexer.next_doc_id self)) (S (DiskBasedIndexer.docs_in_memory self))
      (DiskBasedIndexer.partial_index_count self) (DiskBasedIndexer.disk self).
Proof. intros Hurl. unfold DiskBasedIndexer.record_document. by rewrite Hurl. Qed.

Lemma ids_consistent_fresh self :
  ids_consistent self →
  DiskBasedIndexer.doc_id_to_url self !! DiskBasedIndexer.next_doc_id self = None.
Proof.
  intros (_ & Hdom & _). apply eq_None_not_Some. rewrite Hdom. lia.
Qed.

Lemma ids_consistent_record self url tokens important_tokens :
  ids_consistent self →
  ids_consistent (DiskBasedIndexer.record_document self url tokens important_tokens).
Proof.
  intros Hinv. pose proof (ids_consistent_fresh self Hinv) as Hfresh.
  destruct Hinv as (Hinverse & Hdom & Hsize).
  destruct (DiskBasedIndexer.doc_ids self !! url) as [doc_id|] eqn:Hurl.
  { by rewrite (record_document_known _ _ _ _ _ Hurl). }
  rewrite (record_document_new _ _ _ _ Hurl). unfold ids_consistent. simpl.
  split; [|split].
  - intros u i. rewrite !lookup_insert_Some. split.
    + intros [[<- <-]|[Hne Hu]]; [by left|]. right.
      apply Hinverse in Hu. split; [|done]. intros <-. congruence.
    + intros [[<- <-]|[Hne Hi]]; [by left|]. right.
      apply Hinverse in Hi. split; [|done]. intros <-. congruence.
  - intros i. rewrite lookup_insert_is_Some, Hdom.
    destruct (decide (DiskBasedIndexer.next_doc_id self = i)); [|lia].
    split; [lia|]. by left.
  - rewrite map_size_insert_None by done. by rewrite Hsize.
Qed.

Lemma record_document_grows self url tokens important_tokens :
  ids_consistent self →
  let recorded := DiskBasedIndexer.record_document self url tokens important_tokens in
  DiskBasedIndexer.doc_ids self ⊆ DiskBasedIndexer.doc_ids recorded
  ∧ DiskBasedIndexer.doc_id_to_url self ⊆ DiskBasedIndexer.doc_id_to_url recorded
  ∧ DiskBasedIndexer.next_doc_id self ≤ DiskBasedIndexer.next_doc_id recorded
  ∧ ∃ doc_id,
      DiskBasedIndexer.doc_ids recorded !! url = Some doc_id
      ∧ doc_id < DiskBasedIndexer.next_doc_id recorded
      ∧ DiskBasedIndexer.index recorded
        = post_tokens (DiskBasedIndexer.index self) doc_id tokens important_tokens.
Proof.
  intros Hinv recorded. subst recorded.
  pose proof (ids_consistent_fresh self Hinv) as Hfresh.
  destruct Hinv as (Hinverse & Hdom & Hsize).
  destruct (DiskBasedIndexer.doc_ids self !! url) as [doc_id|] eqn:Hurl.
  - rewrite (record_document_known _ _ _ _ _ Hurl). simpl.
    split; [done|]. split; [done|]. split; [done|]. exists doc_id.
    split; [done|]. split; [|done]. apply Hdom. exists url. by apply Hinverse.
  - rewrite (record_document_new _ _ _ _ Hurl). simpl.
    split; [by apply insert_subseteq|]. split; [by apply insert_subseteq|].
    split; [lia|]. eexists. split; [apply lookup_insert_eq|]. split; [lia|done].
Qed.

Lemma postings_bounded_mono n n' index :
  n ≤ n' → postings_bounded n index → postings_bounded n' index.
Proof. intros Hle Hb term doc_id p Hp. destruct (Hb _ _ _ Hp). split; [lia|done]. Qed.

Lemma postings_bounded_empty n : postings_bounded n ∅.
Proof. intros term doc_id p. unfold posting_of. by rewrite lookup_empty. Qed.

Lemma postings_bounded_post_tokens n index doc_id tokens important_tokens :
  doc_id < n → postings_bounded n index →
  postings_bounded n (post_tokens index doc_id tokens important_tokens).
Proof.
  intros Hid Hb term doc_id' p. rewrite post_tokens_posting.
  case_decide as Hin; [|apply Hb]. destruct Hin as [Hin <-].
  intros [= <-]. split; [done|]. by apply document_posting_tf.
Qed.

Lemma accumulator_entries_app indexes1 indexes2 term doc_id :
  accumulator_entries (indexes1 ++ indexes2) term doc_id
  = accumulator_entries indexes1 term doc_id ++ accumulator_entries indexes2 term doc_id.
Proof. apply bind_app. Qed.

Lemma accumulator_entries_singleton index term doc_id :
  accumulator_entries [index] term doc_id = option_list (posting_of index term doc_id).
Proof. unfold accumulator_entries. simpl. apply app_nil_r. Qed.

Lemma accumulator_entries_empty term doc_id : accumulator_entries [∅] term doc_id = [].
Proof.
  rewrite accumulator_entries_singleton. unfold posting_of. by rewrite lookup_empty.
Qed.

Lemma build_inv_init d max_docs : build_inv (DiskBasedIndexer.__init__ d max_docs) [].
Proof.
  split; [|split].
  - split; [|split]; simpl.
    + intros url i. by rewrite !lookup_empty.
    + intros i. rewrite lookup_empty. split; [by intros [? ?]|lia].
    + apply map_size_empty.
  - split; [done|]. eexists. split; [reflexivity|]. simpl.
    split; [by intros i index ?|lia].
  - simpl. constructor; [apply postings_bounded_empty|constructor].
Qed.

Lemma build_inv_record self segs url tokens important_tokens :
  build_inv self segs →
  build_inv (DiskBasedIndexer.record_document self url tokens important_tokens) segs.
Proof.
  intros (Hids & (Hlen & dir & Hdir & Hfiles & Hsnaps) & Hbounded).
  destruct (record_document_fields self url tokens important_tokens)
    as (_ & _ & Hcount & Hdisk).
  destruct (record_document_grows self url tokens important_tokens Hids)
    as (Hsub1 & Hsub2 & Hnext & doc_id & _ & Hid & Hindex).
  split; [by apply ids_consistent_record|]. split.
  - split; [by rewrite Hcount|]. exists dir. rewrite Hdisk, Hcount.
    split; [done|]. split; [done|]. intros i Hi.
    destruct (Hsnaps i Hi) as (ids & urls & Hfile & Hsub1' & Hsub2').
    exists ids, urls. split; [done|]. split; by etrans.
  - apply Forall_app in Hbounded as [Hsegs Hindex'].
    apply Forall_app. split.
    + eapply Forall_impl; [exact Hsegs|]. intros index. by apply postings_bounded_mono.
    + apply Forall_singleton. rewrite Hindex.
      apply postings_bounded_post_tokens; [done|].
      rewrite Forall_singleton in Hindex'.
      by apply (postings_bounded_mono (DiskBasedIndexer.next_doc_id self)).
Qed.

(** A spill moves the accumulator behind the segments. *)
Lemma build_inv_offload self segs :
  build_inv self segs →
  ∃ self' segs',
    DiskBasedIndexer._offload_to_disk self = Ok self'
    ∧ build_inv self' segs'
    ∧ DiskBasedIndexer.index self' = ∅
    ∧ DiskBasedIndexer.doc_ids self' = DiskBasedIndexer.doc_ids self
    ∧ DiskBasedIndexer.doc_id_to_url self' = DiskBasedIndexer.doc_id_to_url self
    ∧ DiskBasedIndexer.next_doc_id self' = DiskBasedIndexer.next_doc_id self
    ∧ DiskBasedIndexer.max_docs_in_memory self' = DiskBasedIndexer.max_docs_in_memory self
    ∧ ∀ term doc_id,
        accumulator_entries (segs' ++ [DiskBasedIndexer.index self']) term doc_id
        = accumulator_entries (segs ++ [DiskBasedIndexer.index self]) term doc_id.
Proof.
  intros (Hids & (Hlen & dir & Hdir & Hfiles & Hsnaps) & Hbounded).
  unfold DiskBasedIndexer._offload_to_disk. case_decide as Hsize.
  { exists self, segs. apply map_size_empty_iff in Hsize.
    split; [done|]. split; [|by rewrite Hsize].
    split; [done|]. split; [|done]. split; [done|]. by exists dir. }
  rewrite Hdir. eexists _, (segs ++ [DiskBasedIndexer.index self]).
  split; [reflexivity|]. simpl. split; [|split; [done|]].
  - split; [done|]. split.
    + split; [rewrite length_app; simpl; lia|]. eexists. split; [reflexivity|]. simpl.
      split.
      * intros i index Hi.
        destruct (decide (i = DiskBasedIndexer.partial_index_count self)) as [->|Hne].
        -- rewrite lookup_insert_eq. rewrite lookup_app_r, Hlen, Nat.sub_diag in Hi by lia.
           by injection Hi as <-.
        -- rewrite lookup_insert_ne by (by intros ?%(inj _)).
           apply Hfiles. apply lookup_lt_Some in Hi as Hlt.
           rewrite length_app in Hlt. simpl in Hlt.
           rewrite lookup_app_l in Hi by lia. done.
      * intros i Hi.
        destruct (decide (i = DiskBasedIndexer.partial_index_count self)) as [->|Hne].
        -- rewrite lookup_insert_eq. by eexists _, _.
        -- rewrite lookup_insert_ne by (by intros ?%(inj _)). apply Hsnaps. lia.
    + simpl. apply Forall_app. split; [done|].
      apply Forall_singleton, postings_bounded_empty.
  - repeat (split; [done|]). intros term doc_id.
    by rewrite (accumulator_entries_app (segs ++ _)), accumulator_entries_empty, app_nil_r.
Qed.

Lemma build_inv_add_document self segs url tokens important_tokens :
  build_inv self segs →
  let recorded := DiskBasedIndexer.record_document self url tokens important_tokens in
  ∃ self' segs',
    DiskBasedIndexer.add_document self url tokens important_tokens = Ok self'
    ∧ build_inv self' segs'
    ∧ DiskBasedIndexer.doc_ids self' = DiskBasedIndexer.doc_ids recorded
    ∧ DiskBasedIndexer.doc_id_to_url self' = DiskBasedIndexer.doc_id_to_url recorded
    ∧ DiskBasedIndexer.next_doc_id self' = DiskBasedIndexer.next_doc_id recorded
    ∧ DiskBasedIndexer.max_docs_in_memory self' = DiskBasedIndexer.max_docs_in_memory self
    ∧ ∀ term doc_id,
        accumulator_entries (segs' ++ [DiskBasedIndexer.index self']) term doc_id
        = accumulator_entries (segs ++ [DiskBasedIndexer.index recorded]) term doc_id.
Proof.
  intros Hinv recorded.
  pose proof (build_inv_record self segs url tokens important_tokens Hinv) as Hrec.
  fold recorded in Hrec.
  destruct (record_document_fields self url tokens important_tokens) as (Hmax & _).
  fold recorded in Hmax.
  unfold DiskBasedIndexer.add_document. fold recorded. case_decide.
  - destruct (build_inv_offload recorded segs Hrec)
      as (self' & segs' & Hoff & Hinv' & _ & ? & ? & ? & Hmax' & ?).
    exists self', segs'. rewrite Hmax' , Hmax. done.
  - by exists recorded, segs.
Qed.

Lemma record_document_dom self url tokens important_tokens u :
  is_Some (DiskBasedIndexer.doc_ids
             (DiskBasedIndexer.record_document self url tokens important_tokens) !! u)
  ↔ is_Some (DiskBasedIndexer.doc_ids self !! u) ∨ u = url.
Proof.
  destruct (DiskBasedIndexer.doc_ids self !! url) as [doc_id|] eqn:Hurl.
  - rewrite (record_document_known _ _ _ _ _ Hurl). simpl.
    split; [by left|]. intros [?| ->]; [done|by eexists].
  - rewrite (record_document_new _ _ _ _ Hurl). simpl.
    rewrite lookup_insert_is_Some. split.
    + intros [<-|[_ ?]]; [by right|by left].
    + intros [?| ->]; [|by left]. destruct (decide (url = u)); [by left|by right].
Qed.

Lemma add_documents_app self docs1 docs2 :
  DiskBasedIndexer.add_documents self (docs1 ++ docs2)
  = DiskBasedIndexer.add_documents self docs1
      ≫= λ self, DiskBasedIndexer.add_documents self docs2.
Proof.
  revert self. induction docs1 as [|[[url tokens] important_tokens] docs1 IH]; intros self.
  - done.
  - simpl. destruct (DiskBasedIndexer.add_document _ _ _ _) as [self1|e]; [|done].
    simpl. apply IH.
Qed.

Lemma build_inv_add_documents docs self segs :
  build_inv self segs →
  ∃ self' segs',
    DiskBasedIndexer.add_documents self docs = Ok self'
    ∧ build_inv self' segs'
    ∧ (∀ url, is_Some (DiskBasedIndexer.doc_ids self' !! url)
              ↔ is_Some (DiskBasedIndexer.doc_ids self !! url) ∨ url ∈ docs.*1.*1)
    ∧ DiskBasedIndexer.doc_ids self ⊆ DiskBasedIndexer.doc_ids self'
    ∧ DiskBasedIndexer.doc_id_to_url self ⊆ DiskBasedIndexer.doc_id_to_url self'.
Proof.
  revert self segs.
  induction docs as [|[[url tokens] important_tokens] docs IH]; intros self segs Hinv.
  - exists self, segs. split; [done|]. split; [done|]. split; [|done].
    intros url. rewrite elem_of_nil. tauto.
  - destruct (build_inv_add_document self segs url tokens important_tokens Hinv)
      as (self1 & segs1 & Hadd & Hinv1 & Hids1 & Hurls1 & _).
    destruct (IH self1 segs1 Hinv1) as (self' & segs' & Hadds & Hinv' & Hdom & Hsub1 & Hsub2).
    destruct (record_document_grows self url tokens important_tokens (proj1 Hinv))
      as (Hgrow1 & Hgrow2 & _).
    exists self', segs'. simpl. rewrite Hadd. simpl.
    split; [done|]. split; [done|]. split; [|split].
    + intros u. rewrite Hdom, Hids1, record_document_dom, elem_of_cons. tauto.
    + etrans; [exact Hgrow1|]. by rewrite <- Hids1.
    + etrans; [exact Hgrow2|]. by rewrite <- Hurls1.
Qed.

(** ** Segment files read back *)

Lemma select_entries_absent {V B} (l : list (string * V)) key (f : V → list B) :
  key ∉ l.*1 → (l ≫= λ kv, if decide (kv.1 = key) then f kv.2 else []) = [].
Proof.
  induction l as [|[k v] l IH]; [done|]. rewrite fmap_cons, not_elem_of_cons.
  intros [Hne Hnotin]. rewrite bind_cons. simpl.
  rewrite decide_False by done. by apply IH.
Qed.

Lemma select_entries {V B} (l : list (string * V)) key (f : V → list B) :
  NoDup l.*1 →
  (l ≫= λ kv, if decide (kv.1 = key) then f kv.2 else [])
  = from_option f [] (items_get l key).
Proof.
  induction l as [|[k v] l IH]; [done|]. rewrite fmap_cons.
  intros [Hk Hnodup]%NoDup_cons. rewrite bind_cons. simpl.
  destruct (decide (k = key)) as [->|Hne].
  - rewrite select_entries_absent by done. apply app_nil_r.
  - by apply IH.
Qed.

Lemma postings_entries_json_postings (postings : gmap nat Posting) doc_id :
  postings_entries (json_postings postings) doc_id = option_list (postings !! doc_id).
Proof.
  unfold json_postings. rewrite <- (list_to_map_to_list postings) at 2.
  pose proof (NoDup_fst_map_to_list postings) as Hnodup.
  induction (map_to_list postings) as [|[d p] l IH]; [done|].
  rewrite fmap_cons in Hnodup. apply NoDup_cons in Hnodup as [Hd Hnodup].
  rewrite fmap_cons, postings_entries_cons, IH by done.
  unfold postings_entries. simpl. rewrite py_int_str.
  destruct (decide (d = doc_id)) as [->|Hne].
  - rewrite lookup_insert_eq. by rewrite not_elem_of_list_to_map_1.
  - by rewrite lookup_insert_ne.
Qed.

Lemma segment_entries_json_index index term doc_id :
  segment_entries (json_index index) term doc_id
  = option_list (posting_of index term doc_id).
Proof.
  unfold segment_entries.
  rewrite (select_entries (json_index index) term (λ ps, postings_entries ps doc_id)).
  - pose proof (items_get_map_to_list Datatypes.id json_postings index term) as Hterm.
    unfold Datatypes.id in Hterm. unfold json_index. rewrite Hterm.
    unfold posting_of. destruct (index !! term) as [postings|]; simpl; [|done].
    apply postings_entries_json_postings.
  - unfold json_index. rewrite <- list_fmap_compose.
    rewrite (list_fmap_ext _ fst (map_to_list index)) by done.
    apply NoDup_fst_map_to_list.
Qed.

Lemma segments_entries_json_index segs term doc_id :
  segments_entries (json_index <$> segs) term doc_id = accumulator_entries segs term doc_id.
Proof.
  unfold segments_entries, accumulator_entries.
  induction segs as [|index segs IH]; [done|].
  by rewrite fmap_cons, !bind_cons, IH, segment_entries_json_index.
Qed.

Lemma spilled_written self segs : spilled self segs → segments_written self.
Proof.
  intros (Hlen & dir & Hdir & Hfiles & Hsnaps). exists dir. split; [done|].
  intros i Hi. split.
  - destruct (lookup_lt_is_Some_2 segs i) as [index Hindex]; [lia|].
    exists index. by apply Hfiles.
  - destruct (Hsnaps i Hi) as (ids & urls & Hfile & _). by exists ids, urls.
Qed.

(** The merger reads the spilled accumulators back, oldest first. *)
Lemma merge_loop_spilled self segs :
  spilled self segs →
  ∃ merged_index,
    merge_loop (DiskBasedIndexer.disk self)
               (seq 0 (DiskBasedIndexer.partial_index_count self)) ∅ = Ok merged_index
    ∧ ∀ term doc_id,
        posting_of merged_index term doc_id
        = fold_entries None (accumulator_entries segs term doc_id).
Proof.
  intros Hspilled.
  destruct (merge_loop_written self _ ∅ (spilled_written _ _ Hspilled) (seq_below _))
    as [merged_index Hmerge].
  exists merged_index. split; [done|].
  destruct (merge_loop_posting _ _ _ _ Hmerge) as (segments & Hload & Hpost).
  destruct Hspilled as (Hlen & dir & Hdir & Hfiles & _).
  assert (segments = json_index <$> segs) as ->.
  { apply list_eq. intros i. rewrite list_lookup_fmap.
    destruct (segs !! i) as [index|] eqn:Hindex; simpl.
    - assert (seq 0 (DiskBasedIndexer.partial_index_count self) !! i = Some i) as Hi.
      { apply lookup_seq. split; [done|]. apply lookup_lt_Some in Hindex. lia. }
      destruct (Forall2_lookup_l _ _ _ _ _ Hload Hi) as (data & -> & Hdata).
      unfold load_partial_index in Hdata. rewrite Hdir, (Hfiles _ _ Hindex) in Hdata.
      by injection Hdata as <-.
    - apply lookup_ge_None. apply lookup_ge_None in Hindex.
      apply Forall2_length in Hload. rewrite length_seq in Hload. lia. }
  intros term doc_id. rewrite Hpost, segments_entries_json_index.
  unfold posting_of. by rewrite lookup_empty.
Qed.

(** ** Doc mappings read back *)

Lemma foldl_insert_list_to_map `{Countable K} {V} (l : list (K * V)) (m : gmap K V) :
  NoDup l.*1 → foldl (λ m kv, <[kv.1 := kv.2]> m) m l = list_to_map l ∪ m.
Proof.
  revert m. induction l as [|[k v] l IH]; intros m Hnodup.
  - simpl. by rewrite (left_id_L ∅ (∪)).
  - rewrite fmap_cons in Hnodup. apply NoDup_cons in Hnodup as [Hk Hnodup].
    simpl. rewrite IH by done. rewrite <- insert_union_l.
    by rewrite insert_union_r by (by apply not_elem_of_list_to_map_1).
Qed.

Lemma foldl_insert_map_to_list `{Countable K} {V} (other m : gmap K V) :
  foldl (λ m kv, <[kv.1 := kv.2]> m) m (map_to_list other) = other ∪ m.
Proof.
  rewrite foldl_insert_list_to_map by apply NoDup_fst_map_to_list.
  by rewrite list_to_map_to_list.
Qed.

Lemma foldl_int_keys (l : list (nat * string)) (m : gmap nat string) :
  foldl (λ r kv, m ← r; k ← py_int kv.1; Ok (<[k := kv.2]> m)) (Ok m)
        ((λ kv, (py_str kv.1, kv.2)) <$> l)
  = Ok (foldl (λ m kv, <[kv.1 := kv.2]> m) m l).
Proof.
  revert m. induction l as [|[d url] l IH]; intros m; [done|].
  cbn [fmap list_fmap foldl]. simpl. rewrite py_int_str. simpl. apply IH.
Qed.

Lemma int_keys_json (l : list (nat * string)) (m : gmap nat string) :
  Reader.int_keys ((λ kv, (py_str kv.1, kv.2)) <$> l) m
  = Ok (foldl (λ m kv, <[kv.1 := kv.2]> m) m l).
Proof.
  revert m. induction l as [|[d url] l IH]; intros m; [done|].
  cbn [fmap list_fmap Reader.int_keys]. simpl. rewrite py_int_str. simpl. apply IH.
Qed.

Lemma update_from_snapshot_json d (acc : gmap string nat * gmap nat string) i dir ids urls :
  partial_dir d = Some dir →
  partial_mapping_files dir !! partial_mapping_name i = Some (json_mapping ids urls) →
  update_from_snapshot d acc i = Ok (ids ∪ acc.1, urls ∪ acc.2).
Proof.
  intros Hdir Hfile. unfold update_from_snapshot. rewrite Hdir. simpl. rewrite Hfile.
  simpl. rewrite foldl_int_keys. simpl.
  by rewrite !foldl_insert_map_to_list.
Qed.

Lemma collect_snapshots_spilled self segs ordinals (acc : gmap string nat * gmap nat string) :
  spilled self segs →
  Forall (λ i, i < DiskBasedIndexer.partial_index_count self) ordinals →
  acc.1 ⊆ DiskBasedIndexer.doc_ids self →
  acc.2 ⊆ DiskBasedIndexer.doc_id_to_url self →
  ∃ all,
    collect_snapshots (DiskBasedIndexer.disk self) ordinals acc = Ok all
    ∧ all.1 ⊆ DiskBasedIndexer.doc_ids self
    ∧ all.2 ⊆ DiskBasedIndexer.doc_id_to_url self.
Proof.
  intros (Hlen & dir & Hdir & _ & Hsnaps) Hall. revert acc.
  induction Hall as [|i ordinals Hi Hall IH]; intros acc Hacc1 Hacc2.
  - by exists acc.
  - destruct (Hsnaps i Hi) as (ids & urls & Hfile & Hsub1 & Hsub2).
    simpl. rewrite (update_from_snapshot_json _ _ _ _ _ _ Hdir Hfile). simpl.
    apply IH; simpl; by apply map_union_least.
Qed.

(** ** [finalize] *)

Lemma union_subseteq_r_eq `{Countable K} {V} (m other : gmap K V) :
  other ⊆ m → m ∪ other = m.
Proof.
  intros Hsub. apply map_eq. intros k. rewrite lookup_union.
  destruct (m !! k) as [v|] eqn:Hm, (other !! k) as [w|] eqn:Ho; simpl; try done.
  by rewrite (lookup_weaken _ _ _ _ Ho Hsub) in Hm.
Qed.

Lemma fold_entries_singleton p : fold_entries None [p] = Some p.
Proof. by destruct p as [n []]. Qed.

Lemma inner_nonempty_empty : inner_nonempty ∅.
Proof. intros term postings. by rewrite lookup_empty. Qed.

Lemma inner_nonempty_set_posting index term doc_id p :
  inner_nonempty index → inner_nonempty (set_posting index term doc_id p).
Proof.
  intros Hinner t postings. unfold set_posting. rewrite lookup_insert_Some.
  intros [[_ <-]|[_ Ht]]; [apply insert_non_empty|by apply (Hinner t)].
Qed.

Lemma merge_postings_inner_nonempty term postings merged_index merged_index' :
  merge_postings term merged_index postings = Ok merged_index' →
  inner_nonempty merged_index → inner_nonempty merged_index'.
Proof.
  revert merged_index. induction postings as [|entry postings IH]; intros merged_index Hm Hinner.
  - by injection Hm as <-.
  - simpl in Hm. apply bind_Ok in Hm as (m1 & Hentry & Hm).
    apply (IH _ Hm). unfold merge_entry in Hentry.
    apply bind_Ok in Hentry as (doc_id & _ & [= <-]).
    by apply inner_nonempty_set_posting.
Qed.

Lemma merge_partial_index_inner_nonempty partial_index merged_index merged_index' :
  merge_partial_index merged_index partial_index = Ok merged_index' →
  inner_nonempty merged_index → inner_nonempty merged_index'.
Proof.
  revert merged_index.
  induction partial_index as [|[t postings] partial_index IH]; intros merged_index Hm Hinner.
  - by injection Hm as <-.
  - simpl in Hm. apply bind_Ok in Hm as (m1 & Hpostings & Hm).
    apply (IH _ Hm). by eapply merge_postings_inner_nonempty.
Qed.

Lemma merge_loop_inner_nonempty d ordinals merged_index merged_index' :
  merge_loop d ordinals merged_index = Ok merged_index' →
  inner_nonempty merged_index → inner_nonempty merged_index'.
Proof.
  revert merged_index. induction ordinals as [|i ordinals IH]; intros merged_index Hm Hinner.
  - by injection Hm as <-.
  - simpl in Hm. apply bind_Ok in Hm as (data & _ & Hm).
    apply bind_Ok in Hm as (m1 & Hpartial & Hm).
    apply (IH _ Hm). by eapply merge_partial_index_inner_nonempty.
Qed.

(** What [finalize] writes: the doc mapping is the one in memory, and the
    final index holds for a term and a document the postings of the
    spilled accumulators and of the one in memory, merged in that order. *)
Lemma finalize_index_dict self segs :
  build_inv self segs →
  ∃ final index_dict,
    DiskBasedIndexer.finalize self = Ok final
    ∧ partial_dir (DiskBasedIndexer.disk final) = None
    ∧ inverted_index_json (DiskBasedIndexer.disk final) = Some (json_index index_dict)
    ∧ inner_nonempty index_dict
    ∧ doc_mapping_json (DiskBasedIndexer.disk final)
      = Some (json_mapping (DiskBasedIndexer.doc_ids self)
                           (DiskBasedIndexer.doc_id_to_url self))
    ∧ DiskBasedIndexer.doc_ids final = DiskBasedIndexer.doc_ids self
    ∧ DiskBasedIndexer.doc_id_to_url final = DiskBasedIndexer.doc_id_to_url self
    ∧ DiskBasedIndexer.next_doc_id final = DiskBasedIndexer.next_doc_id self
    ∧ ∀ term doc_id,
        posting_of index_dict term doc_id
        = fold_entries None
            (accumulator_entries (segs ++ [DiskBasedIndexer.index self]) term doc_id).
Proof.
  intros Hinv. unfold DiskBasedIndexer.finalize.
  assert (Hoff : ∃ self1 segs1,
    (if decide (0 < size (DiskBasedIndexer.index self))
     then DiskBasedIndexer._offload_to_disk self else Ok self) = Ok self1
    ∧ spilled self1 segs1
    ∧ DiskBasedIndexer.index self1 = ∅
    ∧ DiskBasedIndexer.doc_ids self1 = DiskBasedIndexer.doc_ids self
    ∧ DiskBasedIndexer.doc_id_to_url self1 = DiskBasedIndexer.doc_id_to_url self
    ∧ DiskBasedIndexer.next_doc_id self1 = DiskBasedIndexer.next_doc_id self
    ∧ ∀ term doc_id,
        accumulator_entries segs1 term doc_id
        = accumulator_entries (segs ++ [DiskBasedIndexer.index self]) term doc_id).
  { case_decide as Hsize.
    - destruct (build_inv_offload self segs Hinv)
        as (self1 & segs1 & Hoff & Hinv1 & Hempty & ? & ? & ? & _ & Hentries).
      exists self1, segs1. split; [done|]. split; [apply Hinv1|].
      repeat (split; [done|]). intros term doc_id.
      rewrite <- Hentries, Hempty.
      by rewrite accumulator_entries_app, accumulator_entries_empty, app_nil_r.
    - exists self, segs. split; [done|]. split; [apply Hinv|].
      assert (DiskBasedIndexer.index self = ∅) as Hempty
        by (apply map_size_empty_iff; lia).
      repeat (split; [done|]). intros term doc_id.
      by rewrite Hempty, accumulator_entries_app, accumulator_entries_empty, app_nil_r. }
  destruct Hoff as (self1 & segs1 & -> & Hspilled & Hempty & Hids & Hurls & Hnext & Hentries).
  simpl.
  assert (Hmerge : ∃ index_dict,
    DiskBasedIndexer._merge_partial_indexes self1
    = Ok (DiskBasedIndexer._save_final_index_from_dict self1 index_dict)
    ∧ inner_nonempty index_dict
    ∧ ∀ term doc_id,
        posting_of index_dict term doc_id
        = fold_entries None (accumulator_entries segs1 term doc_id)).
  { unfold DiskBasedIndexer._merge_partial_indexes.
    destruct (decide (DiskBasedIndexer.partial_index_count self1 = 0)) as [Hzero|Hzero].
    - exists (DiskBasedIndexer.index self1). split; [done|].
      split; [rewrite Hempty; apply inner_nonempty_empty|]. intros term doc_id.
      destruct Hspilled as (Hlen & _). rewrite Hzero in Hlen.
      apply nil_length_inv in Hlen. subst segs1. rewrite Hempty.
      unfold posting_of. by rewrite lookup_empty.
    - destruct (merge_loop_spilled self1 segs1 Hspilled) as (merged_index & Hloop & Hpost).
      pose proof (merge_loop_inner_nonempty _ _ _ _ Hloop inner_nonempty_empty).
      rewrite Hloop. by exists merged_index. }
  destruct Hmerge as (index_dict & -> & Hinner & Hpost). simpl.
  set (self2 := DiskBasedIndexer._save_final_index_from_dict self1 index_dict).
  assert (spilled self2 segs1) as Hspilled2.
  { destruct Hspilled as (Hlen & dir & Hdir & Hfiles & Hsnaps).
    split; [done|]. by exists dir. }
  unfold DiskBasedIndexer._save_doc_mappings.
  destruct (collect_snapshots_spilled self2 segs1 _ (∅, ∅) Hspilled2 (seq_below _))
    as (all & -> & Hall1 & Hall2); [apply map_empty_subseteq..|].
  simpl. unfold dict_update.
  rewrite !union_subseteq_r_eq by done.
  eexists _, _. split; [reflexivity|]. simpl.
  split; [done|]. split; [done|]. split; [done|]. split; [by rewrite Hids, Hurls|].
  repeat (split; [done|]). intros term doc_id.
  by rewrite Hpost, Hentries.
Qed.

Lemma finalize_entries self segs :
  build_inv self segs →
  ∃ final final_index,
    DiskBasedIndexer.finalize self = Ok final
    ∧ partial_dir (DiskBasedIndexer.disk final) = None
    ∧ inverted_index_json (DiskBasedIndexer.disk final) = Some final_index
    ∧ doc_mapping_json (DiskBasedIndexer.disk final)
      = Some (json_mapping (DiskBasedIndexer.doc_ids self)
                           (DiskBasedIndexer.doc_id_to_url self))
    ∧ DiskBasedIndexer.doc_ids final = DiskBasedIndexer.doc_ids self
    ∧ DiskBasedIndexer.doc_id_to_url final = DiskBasedIndexer.doc_id_to_url self
    ∧ DiskBasedIndexer.next_doc_id final = DiskBasedIndexer.next_doc_id self
    ∧ ∀ term doc_id,
        segment_posting final_index term doc_id
        = fold_entries None
            (accumulator_entries (segs ++ [DiskBasedIndexer.index self]) term doc_id).
Proof.
  intros Hinv.
  destruct (finalize_index_dict self segs Hinv)
    as (final & index_dict & Hfinal & ? & ? & _ & ? & ? & ? & ? & Hpost).
  exists final, (json_index index_dict). repeat (split; [done|]).
  intros term doc_id. by rewrite segment_posting_json_index.
Qed.

Lemma items_get_map_to_list_id `{Countable K} {V} (g : K → string) `{!Inj (=) (=) g}
    (m : gmap K V) k :
  items_get ((λ kv, (g kv.1, kv.2)) <$> map_to_list m) (g k) = m !! k.
Proof.
  pose proof (items_get_map_to_list g Datatypes.id m k) as Hget.
  unfold Datatypes.id in Hget. rewrite Hget. by destruct (m !! k).
Qed.

Lemma items_get_url_to_id (doc_ids : gmap string nat) (doc_id_to_url : gmap nat string) url :
  items_get (json_url_to_id (json_mapping doc_ids doc_id_to_url)) url = doc_ids !! url.
Proof.
  simpl. rewrite <- (items_get_map_to_list_id Datatypes.id doc_ids url).
  unfold Datatypes.id. f_equal.
  rewrite <- (list_fmap_id (map_to_list doc_ids)) at 1.
  apply list_fmap_ext. by intros i [k v].
Qed.

Lemma items_get_id_to_url (doc_ids : gmap string nat) (doc_id_to_url : gmap nat string) i :
  items_get (json_id_to_url (json_mapping doc_ids doc_id_to_url)) (py_str i)
  = doc_id_to_url !! i.
Proof. simpl. apply (items_get_map_to_list_id py_str). Qed.

Lemma fold_entries_tf entries p :
  Forall (λ q, 1 ≤ tf q) entries → fold_entries None entries = Some p → 1 ≤ tf p.
Proof.
  intros Hall. rewrite fold_entries_coalesce.
  destruct Hall as [|q entries Hq Hall]; [done|].
  intros [= <-]. simpl. lia.
Qed.

Lemma accumulator_entries_bounded n indexes term doc_id q :
  Forall (postings_bounded n) indexes →
  q ∈ accumulator_entries indexes term doc_id → doc_id < n ∧ 1 ≤ tf q.
Proof.
  intros Hall (index & Hq & Hindex)%list_elem_of_bind.
  rewrite Forall_forall in Hall. apply (Hall index Hindex term doc_id).
  destruct (posting_of index term doc_id) as [p|]; simpl in Hq.
  - by apply list_elem_of_singleton in Hq as ->.
  - by apply elem_of_nil in Hq.
Qed.

(** X13: a build numbers its documents by URL: every URL added is in the
    URL-to-id mapping, the two mappings are inverse to one another, the
    ids are the numbers below the reported document count, and that count
    is the number of distinct URLs, pages without tokens included. *)
Theorem build_doc_ids (d : Disk) (T : nat)
    (docs : list (string * list string * list string)) :
  ∃ built,
    DiskBasedIndexer.add_documents (DiskBasedIndexer.__init__ d T) docs = Ok built
    ∧ (∀ url, is_Some (DiskBasedIndexer.doc_ids built !! url) ↔ url ∈ docs.*1.*1)
    ∧ (∀ url i, DiskBasedIndexer.doc_ids built !! url = Some i
                ↔ DiskBasedIndexer.doc_id_to_url built !! i = Some url)
    ∧ (∀ i, is_Some (DiskBasedIndexer.doc_id_to_url built !! i)
            ↔ i < DiskBasedIndexer.get_num_documents built)
    ∧ DiskBasedIndexer.get_num_documents built
      = size (list_to_set docs.*1.*1 : gset string).
Proof.
  destruct (build_inv_add_documents docs _ [] (build_inv_init d T))
    as (built & segs & Hbuilt & ((Hinverse & Hdom & Hsize) & _) & Hurls & _).
  assert (Hseen : ∀ url, is_Some (DiskBasedIndexer.doc_ids built !! url) ↔ url ∈ docs.*1.*1).
  { intros url. rewrite Hurls. simpl. rewrite lookup_empty.
    split; [intros [[? ?]|?]; done|by right]. }
  assert (Hnum : DiskBasedIndexer.get_num_documents built
                 = DiskBasedIndexer.next_doc_id built).
  { unfold DiskBasedIndexer.get_num_documents. by case_decide. }
  exists built. split; [done|]. split; [done|]. split; [done|].
  rewrite Hnum. split; [done|].
  rewrite <- Hsize, <- (size_dom (D := gset string)). f_equal.
  apply set_eq. intros url. by rewrite elem_of_dom, Hseen, elem_of_list_to_set.
Qed.

(** X14: a URL keeps the id it was given: the mappings of a build are
    part of the mappings of every build that goes on from it. *)
Theorem doc_ids_stable (d : Disk) (T : nat)
    (docs more : list (string * list string * list string)) :
  ∃ built extended,
    DiskBasedIndexer.add_documents (DiskBasedIndexer.__init__ d T) docs = Ok built
    ∧ DiskBasedIndexer.add_documents (DiskBasedIndexer.__init__ d T) (docs ++ more)
      = Ok extended
    ∧ DiskBasedIndexer.doc_ids built ⊆ DiskBasedIndexer.doc_ids extended
    ∧ DiskBasedIndexer.doc_id_to_url built ⊆ DiskBasedIndexer.doc_id_to_url extended.
Proof.
  destruct (build_inv_add_documents docs _ [] (build_inv_init d T))
    as (built & segs & Hbuilt & Hinv & _).
  destruct (build_inv_add_documents more built segs Hinv)
    as (extended & segs' & Hextended & _ & _ & Hsub1 & Hsub2).
  exists built, extended. split; [done|]. split; [|done].
  rewrite add_documents_app, Hbuilt. done.
Qed.

(** X15: the doc mapping [finalize] writes is the builder's own, and the
    query engine started on it has the builder's id-to-URL mapping and
    counts as many documents as distinct URLs were added. *)
Theorem build_then_load (d : Disk) (T : nat)
    (docs : list (string * list string * list string)) (text : option string) :
  ∃ built final,
    DiskBasedIndexer.add_documents (DiskBasedIndexer.__init__ d T) docs = Ok built
    ∧ DiskBasedIndexer.finalize built = Ok final
    ∧ doc_mapping_json (DiskBasedIndexer.disk final)
      = Some (json_mapping (DiskBasedIndexer.doc_ids built)
                           (DiskBasedIndexer.doc_id_to_url built))
    ∧ Reader.__init__ (mkIndexDir text (doc_mapping_json (DiskBasedIndexer.disk final)))
      = Ok (Reader.mk (DiskBasedIndexer.doc_id_to_url built)
                      (size (list_to_set docs.*1.*1 : gset string)) ∅ [] 500
                      (default 0 (String.length <$> text))).
Proof.
  destruct (build_inv_add_documents docs _ [] (build_inv_init d T))
    as (built & segs & Hbuilt & Hinv & Hurls & _).
  destruct (finalize_entries built segs Hinv)
    as (final & final_index & Hfinal & _ & _ & Hmapping & _).
  exists built, final. split; [done|]. split; [done|]. split; [done|].
  rewrite Hmapping. unfold Reader.__init__. simpl.
  rewrite int_keys_json, foldl_insert_map_to_list, (right_id_L ∅ (∪)). simpl.
  rewrite length_map_to_list. do 2 f_equal.
  rewrite <- (size_dom (D := gset string)). f_equal.
  apply set_eq. intros url. rewrite elem_of_dom, Hurls, elem_of_list_to_set. simpl.
  rewrite lookup_empty. split; [intros [[? ?]|?]; done|by right].
Qed.

(** X16: the final index refers only to documents of the doc mapping and
    counts at least one occurrence: every posting of the final index has
    tf ≥ 1, and its doc-id has a URL in the final doc mapping, one of the
    URLs added, which the mapping sends back to that doc-id. *)
Theorem final_index_sound (d : Disk) (T : nat)
    (docs : list (string * list string * list string)) :
  ∃ built final final_index mapping,
    DiskBasedIndexer.add_documents (DiskBasedIndexer.__init__ d T) docs = Ok built
    ∧ DiskBasedIndexer.finalize built = Ok final
    ∧ inverted_index_json (DiskBasedIndexer.disk final) = Some final_index
    ∧ doc_mapping_json (DiskBasedIndexer.disk final) = Some mapping
    ∧ ∀ term doc_id p,
        segment_posting final_index term doc_id = Some p →
        1 ≤ tf p
        ∧ ∃ url, items_get (json_id_to_url mapping) (py_str doc_id) = Some url
                 ∧ items_get (json_url_to_id mapping) url = Some doc_id
                 ∧ url ∈ docs.*1.*1.
Proof.
  destruct (build_inv_add_documents docs _ [] (build_inv_init d T))
    as (built & segs & Hbuilt & Hinv & Hurls & _).
  destruct (finalize_entries built segs Hinv)
    as (final & final_index & Hfinal & _ & Hindex & Hmapping & _ & _ & _ & Hpost).
  exists built, final, final_index,
    (json_mapping (DiskBasedIndexer.doc_ids built) (DiskBasedIndexer.doc_id_to_url built)).
  repeat (split; [done|]).
  intros term doc_id p. rewrite Hpost. intros Hp.
  destruct Hinv as ((Hinverse & Hdom & _) & _ & Hbounded).
  split.
  - eapply fold_entries_tf; [|exact Hp]. apply Forall_forall. intros q Hq.
    by destruct (accumulator_entries_bounded _ _ _ _ _ Hbounded Hq).
  - destruct (accumulator_entries (segs ++ [DiskBasedIndexer.index built]) term doc_id)
      as [|q entries] eqn:Hentries; [done|].
    assert (doc_id < DiskBasedIndexer.next_doc_id built) as Hid.
    { apply (accumulator_entries_bounded _ _ term doc_id q Hbounded).
      rewrite Hentries. by left. }
    apply Hdom in Hid as [url Hurl]. exists url.
    rewrite items_get_id_to_url, items_get_url_to_id.
    split; [done|]. apply Hinverse in Hurl as Hid. split; [done|].
    assert (is_Some (DiskBasedIndexer.doc_ids built !! url)) as Hseen by (by eexists).
    apply Hurls in Hseen as [[? Hinit]|?]; [|done].
    simpl in Hinit. by rewrite lookup_empty in Hinit.
Qed.

(** ** The two builders *)

Lemma analyst_add_document_new self url tokens important_tokens :
  InvertedIndex.doc_ids self !! url = None →
  InvertedIndex.add_document self url tokens important_tokens
  = InvertedIndex.mk
      (post_tokens (InvertedIndex.index self) (InvertedIndex.next_doc_id self)
                   tokens important_tokens)
      (<[url := InvertedIndex.next_doc_id self]> (InvertedIndex.doc_ids self))
      (<[InvertedIndex.next_doc_id self := url]> (InvertedIndex.doc_id_to_url self))
      (S (InvertedIndex.next_doc_id self)).
Proof. intros Hurl. unfold InvertedIndex.add_document. by rewrite Hurl. Qed.

Lemma analyst_add_documents_snoc self docs doc :
  analyst_add_documents self (docs ++ [doc])
  = InvertedIndex.add_document (analyst_add_documents self docs) doc.1.1 doc.1.2 doc.2.
Proof. unfold analyst_add_documents. by rewrite foldl_app. Qed.

(** The in-memory builder on documents with distinct URLs: the i-th
    document gets the id i and its postings are those of its token lists. *)
Lemma analyst_build_inv docs :
  NoDup docs.*1.*1 →
  let built := analyst_add_documents InvertedIndex.__init__ docs in
  InvertedIndex.next_doc_id built = length docs
  ∧ size (InvertedIndex.doc_ids built) = length docs
  ∧ (∀ url, is_Some (InvertedIndex.doc_ids built !! url) → url ∈ docs.*1.*1)
  ∧ (∀ term i p, posting_of (InvertedIndex.index built) term i = Some p → i < length docs)
  ∧ ∀ i url tokens important_tokens,
      docs !! i = Some (url, tokens, important_tokens) →
      InvertedIndex.doc_ids built !! url = Some i
      ∧ InvertedIndex.doc_id_to_url built !! i = Some url
      ∧ ∀ term,
          posting_of (InvertedIndex.index built) term i
          = if decide (term ∈ tokens ++ important_tokens)
            then Some (document_posting tokens important_tokens term) else None.
Proof.
  induction docs as [|[[url tokens] important_tokens] docs IH] using rev_ind.
  { intros _. simpl. split; [done|]. split; [apply map_size_empty|].
    split; [intros url; rewrite lookup_empty; by intros [? ?]|].
    split; [intros term i p; unfold posting_of; by rewrite lookup_empty|].
    by intros i url tokens important_tokens ?. }
  rewrite !fmap_app. intros [Hnodup [Hnew _]]%NoDup_app.
  specialize (IH Hnodup). simpl in IH.
  destruct IH as (Hnext & Hsize & Hseen & Hbound & Hdocs).
  rewrite analyst_add_documents_snoc. cbn [fst snd].
  set (built := analyst_add_documents InvertedIndex.__init__ docs) in *.
  assert (InvertedIndex.doc_ids built !! url = None) as Hurl.
  { apply eq_None_not_Some. intros Hsome%Hseen. apply (Hnew url Hsome).
    simpl. by left. }
  rewrite (analyst_add_document_new _ _ _ _ Hurl). simpl.
  rewrite length_app, Hnext. simpl.
  split; [lia|]. split; [rewrite map_size_insert_None by done; lia|]. split; [|split].
  - intros u. rewrite lookup_insert_is_Some, elem_of_app.
    intros [<-|[_ Hu]]; [right; by left|left; by apply Hseen].
  - intros term i p. rewrite post_tokens_posting.
    case_decide as Hin; [destruct Hin as [_ <-]; lia|].
    intros Hp%Hbound. lia.
  - intros i u toks imp Hi.
    destruct (decide (i < length docs)) as [Hlt|Hge].
    + rewrite lookup_app_l in Hi by done.
      destruct (Hdocs i u toks imp Hi) as (Hu & Hi' & Hpost).
      assert (u ≠ url) as Hne by (intros ->; congruence).
      rewrite lookup_insert_ne by done. rewrite lookup_insert_ne by lia.
      split; [done|]. split; [done|]. intros term.
      rewrite post_tokens_posting, decide_False by (intros [_ ?]; lia). apply Hpost.
    + assert (i = length docs) as ->.
      { apply lookup_lt_Some in Hi. rewrite length_app in Hi. simpl in Hi. lia. }
      rewrite lookup_app_r, Nat.sub_diag in Hi by lia. injection Hi as <- <- <-.
      rewrite !lookup_insert_eq. split; [done|]. split; [done|]. intros term.
      rewrite post_tokens_posting.
      destruct (decide (term ∈ tokens ++ important_tokens)) as [Hin|Hout].
      * by rewrite decide_True.
      * rewrite decide_False by (by intros [? _]).
        destruct (posting_of (InvertedIndex.index built) term (length docs)) as [p|] eqn:Hp;
          [|done].
        apply Hbound in Hp. lia.
Qed.

(** X17: the in-memory builder on documents with distinct URLs: it
    reports as many documents as were added, the i-th document added has
    doc-id i in both mappings, and the index holds for that id exactly the
    terms of the document, each with its count over both token lists and
    its flag. *)
Theorem analyst_build_postings (docs : list (string * list string * list string)) :
  NoDup docs.*1.*1 →
  let built := analyst_add_documents InvertedIndex.__init__ docs in
  InvertedIndex.get_num_documents built = length docs
  ∧ ∀ i url tokens important_tokens,
      docs !! i = Some (url, tokens, important_tokens) →
      InvertedIndex.doc_ids built !! url = Some i
      ∧ InvertedIndex.doc_id_to_url built !! i = Some url
      ∧ ∀ term,
          posting_of (InvertedIndex.index built) term i
          = if decide (term ∈ tokens ++ important_tokens)
            then Some (document_posting tokens important_tokens term) else None.
Proof.
  intros Hnodup built.
  destruct (analyst_build_inv docs Hnodup) as (_ & Hsize & _ & _ & Hdocs).
  split; [exact Hsize | exact Hdocs].
Qed.

Lemma two_docs_NoDup : NoDup two_docs.*1.*1.
Proof. apply (bool_decide_unpack _). by vm_compute. Qed.

Lemma analyst_build_postings_witness :
  NoDup two_docs.*1.*1
  ∧ InvertedIndex.get_num_documents (analyst_add_documents InvertedIndex.__init__ two_docs)
    = length two_docs
  ∧ posting_of (InvertedIndex.index (analyst_add_documents InvertedIndex.__init__ two_docs))
      "cat" 0
    = Some (mkPosting 3 true).
Proof.
  split; [exact two_docs_NoDup|].
  destruct (analyst_build_postings two_docs two_docs_NoDup) as [Hnum Hdocs].
  split; [exact Hnum|].
  destruct (Hdocs 0 "http://a/1" ["cat"; "cat"] ["cat"] eq_refl) as (_ & _ & Hpost).
  rewrite (Hpost "cat"). reflexivity.
Defined.

Lemma accumulator_entries_fresh n segs term doc_id :
  Forall (postings_bounded n) segs → n ≤ doc_id → accumulator_entries segs term doc_id = [].
Proof.
  intros Hall Hge.
  destruct (accumulator_entries segs term doc_id) as [|q entries] eqn:Hentries; [done|].
  assert (doc_id < n); [|lia].
  apply (accumulator_entries_bounded n segs term doc_id q Hall).
  rewrite Hentries. by left.
Qed.

Lemma same_postings_add_documents docs self segs analyst :
  NoDup docs.*1.*1 →
  (∀ url, url ∈ docs.*1.*1 → DiskBasedIndexer.doc_ids self !! url = None) →
  build_inv self segs → same_postings self segs analyst →
  ∃ self' segs',
    DiskBasedIndexer.add_documents self docs = Ok self'
    ∧ build_inv self' segs'
    ∧ same_postings self' segs' (analyst_add_documents analyst docs).
Proof.
  revert self segs analyst.
  induction docs as [|[[url tokens] important_tokens] docs IH];
    intros self segs analyst Hnodup Hnew Hinv Hsame.
  { by exists self, segs. }
  rewrite !fmap_cons in Hnodup, Hnew. cbn [fst] in Hnodup, Hnew.
  apply NoDup_cons in Hnodup as [Hurl Hnodup].
  assert (DiskBasedIndexer.doc_ids self !! url = None) as Hself by (apply Hnew; by left).
  destruct Hsame as (Hids & Hurls & Hnext & Hentries).
  destruct (build_inv_add_document self segs url tokens important_tokens Hinv)
    as (self1 & segs1 & Hadd & Hinv1 & Hids1 & Hurls1 & Hnext1 & _ & Hentries1).
  rewrite (record_document_new _ _ _ _ Hself) in Hids1, Hurls1, Hnext1, Hentries1.
  simpl in Hids1, Hurls1, Hnext1, Hentries1.
  destruct (IH self1 segs1
              (InvertedIndex.add_document analyst url tokens important_tokens))
    as (self' & segs' & Hadds & Hinv' & Hsame'); [done| |done| |].
  - intros u Hu. rewrite Hids1, lookup_insert_ne by (intros ->; done).
    apply Hnew. by right.
  - rewrite analyst_add_document_new by (by rewrite <- Hids).
    split; [|split; [|split]]; simpl.
    + by rewrite Hids1, Hids, Hnext.
    + by rewrite Hurls1, Hurls, Hnext.
    + by rewrite Hnext1, Hnext.
    + intros term doc_id. rewrite Hentries1, accumulator_entries_app,
        accumulator_entries_singleton, !post_tokens_posting, <- Hnext.
      destruct Hinv as (_ & _ & Hbounded). apply Forall_app in Hbounded as [Hsegs _].
      case_decide as Hin.
      * destruct Hin as [_ <-].
        by rewrite (accumulator_entries_fresh _ _ _ _ Hsegs).
      * by rewrite <- Hentries, accumulator_entries_app, accumulator_entries_singleton.
  - exists self', segs'. simpl. rewrite Hadd. done.
Qed.

(** X18: on documents with distinct URLs the disk-based build, under any
    threshold, ends with what the in-memory builder saves: the same doc
    mapping and, for every term and document, the same posting in the
    final index. *)
Theorem disk_build_matches_memory_build (d : Disk) (T : nat)
    (docs : list (string * list string * list string)) :
  NoDup docs.*1.*1 →
  let saved :=
    analyst_save_to_disk (analyst_add_documents InvertedIndex.__init__ docs) d in
  ∃ built final final_index analyst_index,
    DiskBasedIndexer.add_documents (DiskBasedIndexer.__init__ d T) docs = Ok built
    ∧ DiskBasedIndexer.finalize built = Ok final
    ∧ inverted_index_json (DiskBasedIndexer.disk final) = Some final_index
    ∧ inverted_index_json saved = Some analyst_index
    ∧ doc_mapping_json (DiskBasedIndexer.disk final) = doc_mapping_json saved
    ∧ ∀ term doc_id,
        segment_posting final_index term doc_id
        = segment_posting analyst_index term doc_id.
Proof.
  intros Hnodup saved.
  destruct (same_postings_add_documents docs (DiskBasedIndexer.__init__ d T) []
              InvertedIndex.__init__ Hnodup)
    as (built & segs & Hbuilt & Hinv & Hids & Hurls & _ & Hentries).
  - intros url _. apply lookup_empty.
  - apply build_inv_init.
  - split; [done|]. split; [done|]. split; [done|]. intros term doc_id.
    simpl. unfold accumulator_entries, posting_of. simpl. by rewrite lookup_empty.
  - destruct (finalize_entries built segs Hinv)
      as (final & final_index & Hfinal & _ & Hindex & Hmapping & _ & _ & _ & Hpost).
    exists built, final, final_index,
      (json_index (InvertedIndex.index (analyst_add_documents InvertedIndex.__init__ docs))).
    split; [done|]. split; [done|]. split; [done|].
    split; [reflexivity|]. split.
    + subst saved. simpl. by rewrite Hmapping, Hids, Hurls.
    + intros term doc_id. rewrite Hpost, Hentries, segment_posting_json_index.
      destruct (posting_of _ term doc_id) as [p|]; [apply fold_entries_singleton|done].
Qed.

Lemma disk_build_matches_memory_build_witness :
  NoDup two_docs.*1.*1
  ∧ let saved :=
      analyst_save_to_disk (analyst_add_documents InvertedIndex.__init__ two_docs)
        empty_disk in
    ∃ built final final_index analyst_index,
      DiskBasedIndexer.add_documents (DiskBasedIndexer.__init__ empty_disk 1) two_docs
      = Ok built
      ∧ DiskBasedIndexer.finalize built = Ok final
      ∧ inverted_index_json (DiskBasedIndexer.disk final) = Some final_index
      ∧ inverted_index_json saved = Some analyst_index
      ∧ doc_mapping_json (DiskBasedIndexer.disk final) = doc_mapping_json saved
      ∧ ∀ term doc_id,
          segment_posting final_index term doc_id
          = segment_posting analyst_index term doc_id.
Proof.
  split; [exact two_docs_NoDup|].
  exact (disk_build_matches_memory_build empty_disk 1 two_docs two_docs_NoDup).
Defined.

(** ** After [finalize] *)

Lemma finalize_Ok self final :
  DiskBasedIndexer.finalize self = Ok final →
  DiskBasedIndexer.index final = ∅
  ∧ partial_dir (DiskBasedIndexer.disk final) = None
  ∧ DiskBasedIndexer.partial_index_count self
    ≤ DiskBasedIndexer.partial_index_count final.
Proof.
  unfold DiskBasedIndexer.finalize. intros Hfinal.
  apply bind_Ok in Hfinal as (self1 & Hoff & Hfinal).
  apply bind_Ok in Hfinal as (self2 & Hmerge & Hfinal).
  apply bind_Ok in Hfinal as (self3 & Hsave & [= <-]).
  assert (DiskBasedIndexer.index self1 = ∅
          ∧ DiskBasedIndexer.partial_index_count self
            ≤ DiskBasedIndexer.partial_index_count self1) as [Hempty Hcount].
  { case_decide as Hsize.
    - apply _offload_to_disk_Ok in Hoff as [[Hz _]|(_ & dir & _ & ->)]; [lia|].
      simpl. split; [done|lia].
    - injection Hoff as <-. split; [|done]. apply map_size_empty_iff. lia. }
  assert (DiskBasedIndexer.index self2 = ∅
          ∧ DiskBasedIndexer.partial_index_count self2
            = DiskBasedIndexer.partial_index_count self1) as [Hempty2 Hcount2].
  { unfold DiskBasedIndexer._merge_partial_indexes in Hmerge. case_decide.
    - by injection Hmerge as <-.
    - apply bind_Ok in Hmerge as (merged_index & _ & [= <-]). done. }
  unfold DiskBasedIndexer._save_doc_mappings in Hsave.
  apply bind_Ok in Hsave as (all & _ & [= <-]). simpl.
  split; [done|]. split; [done|]. lia.
Qed.

(** X19: [finalize] is not to be called twice: it removes the segment
    files, so once a segment has been written a second call fails with
    FileNotFoundError when the merger opens the first of them. *)
Theorem finalize_twice (self final : DiskBasedIndexer.t) :
  DiskBasedIndexer.finalize self = Ok final →
  0 < DiskBasedIndexer.partial_index_count final →
  DiskBasedIndexer.finalize final = Raise FileNotFoundError.
Proof.
  intros (Hempty & Hdir & _)%finalize_Ok Hcount.
  unfold DiskBasedIndexer.finalize. rewrite Hempty, map_size_empty.
  rewrite decide_False by lia. simpl.
  unfold DiskBasedIndexer._merge_partial_indexes. rewrite decide_False by lia.
  destruct (DiskBasedIndexer.partial_index_count final) as [|n]; [lia|].
  simpl. unfold load_partial_index. by rewrite Hdir.
Qed.

Lemma finalize_twice_witness :
  DiskBasedIndexer.finalize blank_built = Ok blank_final
  ∧ 0 < DiskBasedIndexer.partial_index_count blank_final
  ∧ DiskBasedIndexer.finalize blank_final = Raise FileNotFoundError.
Proof.
  assert (Hfinal : DiskBasedIndexer.finalize blank_built = Ok blank_final)
    by (vm_compute; reflexivity).
  assert (Hcount : 0 < DiskBasedIndexer.partial_index_count blank_final)
    by (simpl; lia).
  split; [exact Hfinal|]. split; [exact Hcount|].
  exact (finalize_twice blank_built blank_final Hfinal Hcount).
Defined.

(** X20: a builder that has been finalized takes no further spill: the
    partial-index directory is gone, and [add_document] raises
    FileNotFoundError as soon as a document with a token brings the
    counter to the threshold. *)
Theorem add_document_after_finalize (self final : DiskBasedIndexer.t) (url : string)
    (tokens important_tokens : list string) :
  DiskBasedIndexer.finalize self = Ok final →
  tokens ≠ [] ∨ important_tokens ≠ [] →
  DiskBasedIndexer.max_docs_in_memory final ≤ S (DiskBasedIndexer.docs_in_memory final) →
  DiskBasedIndexer.add_document final url tokens important_tokens
  = Raise FileNotFoundError.
Proof.
  intros (_ & Hdir & _)%finalize_Ok Hdoc Hfull.
  destruct (record_document_fields final url tokens important_tokens)
    as (Hmax & Hdocs & _ & Hdisk).
  destruct (record_document_index final url tokens important_tokens)
    as (doc_id & _ & Hindex).
  unfold DiskBasedIndexer.add_document. rewrite Hmax, Hdocs, decide_True by done.
  unfold DiskBasedIndexer._offload_to_disk. rewrite decide_False.
  - by rewrite Hdisk, Hdir.
  - rewrite Hindex. apply map_size_non_empty_iff. by apply post_tokens_nonempty.
Qed.

Lemma add_document_after_finalize_witness :
  DiskBasedIndexer.finalize readded_built = Ok readded_final
  ∧ (["b"] ≠ [] ∨ @nil string ≠ [])
  ∧ DiskBasedIndexer.max_docs_in_memory readded_final
    ≤ S (DiskBasedIndexer.docs_in_memory readded_final)
  ∧ DiskBasedIndexer.add_document readded_final "http://a/y" ["b"] []
    = Raise FileNotFoundError.
Proof.
  assert (Hfinal : DiskBasedIndexer.finalize readded_built = Ok readded_final)
    by (vm_compute; reflexivity).
  assert (Hdoc : ["b"] ≠ [] ∨ @nil string ≠ []) by (by left).
  assert (Hfull : DiskBasedIndexer.max_docs_in_memory readded_final
                  ≤ S (DiskBasedIndexer.docs_in_memory readded_final))
    by (simpl; lia).
  split; [exact Hfinal|]. split; [exact Hdoc|]. split; [exact Hfull|].
  exact (add_document_after_finalize readded_built readded_final "http://a/y" ["b"] []
           Hfinal Hdoc Hfull).
Defined.

(** ** File names, URLs and the threshold of the build script *)

Lemma partial_names_differ i j : partial_index_name i ≠ partial_mapping_name j.
Proof.
  unfold partial_index_name, partial_mapping_name. intros Heq.
  cbv beta iota delta [String.append] in Heq. discriminate Heq.
Qed.

(** X21: the spill files of different ordinals have different names, for
    ordinals of any size, and a segment file is never named like a mapping
    snapshot: no spill overwrites the file of another.  The ordinal is
    written with at least three digits and reads back as itself. *)
Theorem partial_file_names (i j : nat) :
  (partial_index_name i = partial_index_name j ↔ i = j)
  ∧ (partial_mapping_name i = partial_mapping_name j ↔ i = j)
  ∧ partial_index_name i ≠ partial_mapping_name j
  ∧ 3 ≤ String.length (fmt_03d i)
  ∧ py_int (fmt_03d i) = Ok i.
Proof.
  split; [split; [apply (inj _)|by intros ->]|].
  split; [split; [apply (inj _)|by intros ->]|].
  split; [apply partial_names_differ|].
  split; [apply fmt_03d_length | apply py_int_fmt_03d].
Qed.

Lemma has_hash_before_hash url : has_hash (before_hash url) = false.
Proof.
  induction url as [|c url IH]; [done|]. cbn [before_hash].
  destruct (decide (c = "#"%char)) as [->|Hc]; [done|]. cbn [has_hash].
  by rewrite decide_False.
Qed.

Lemma before_hash_no_hash url : has_hash url = false → before_hash url = url.
Proof.
  induction url as [|c url IH]; [done|]. cbn [has_hash before_hash].
  destruct (decide (c = "#"%char)); [done|]. intros Hurl. by rewrite IH.
Qed.

Lemma before_hash_app url fragment :
  has_hash url = false → before_hash (url +:+ String "#"%char fragment) = url.
Proof.
  induction url as [|c url IH].
  - intros _. rewrite string_app_nil_l. cbn [before_hash]. by rewrite decide_True.
  - cbn [has_hash]. destruct (decide (c = "#"%char)); [done|]. intros Hurl.
    rewrite string_app_cons. cbn [before_hash]. rewrite decide_False by done.
    by rewrite IH.
Qed.

Lemma has_hash_app url fragment : has_hash (url +:+ String "#"%char fragment) = true.
Proof.
  induction url as [|c url IH].
  - rewrite string_app_nil_l. cbn [has_hash]. by rewrite decide_True.
  - rewrite string_app_cons. cbn [has_hash]. by destruct (decide (c = "#"%char)).
Qed.

Lemma before_hash_prefix url :
  ∃ rest, url = before_hash url +:+ rest
          ∧ (rest = EmptyString ∨ ∃ fragment, rest = String "#"%char fragment).
Proof.
  induction url as [|c url (rest & Hurl & Hrest)].
  - exists EmptyString. split; [done|by left].
  - cbn [before_hash]. destruct (decide (c = "#"%char)) as [->|Hc].
    + exists (String "#"%char url). split; [done|]. right. by exists url.
    + exists rest. rewrite string_app_cons, <- Hurl. done.
Qed.

(** X22: the URL a page is indexed under is the longest prefix of its
    URL without ['#']: it contains no ['#'], stripping it again changes
    nothing, and a URL written as [u#fragment] with no ['#'] in [u] is
    indexed as [u], like [u] itself. *)
Theorem strip_fragment_prefix (url : string) :
  has_hash (strip_fragment url) = false
  ∧ strip_fragment (strip_fragment url) = strip_fragment url
  ∧ (∃ rest, url = strip_fragment url +:+ rest
             ∧ (rest = EmptyString ∨ ∃ fragment, rest = String "#"%char fragment))
  ∧ ∀ fragment, has_hash url = false →
      strip_fragment (url +:+ String "#"%char fragment) = url
      ∧ strip_fragment url = url.
Proof.
  assert (Hstrip : strip_fragment url = before_hash url).
  { unfold strip_fragment. destruct (has_hash url) eqn:Hurl; [done|].
    by rewrite before_hash_no_hash. }
  split; [rewrite Hstrip; apply has_hash_before_hash|]. split; [|split].
  - rewrite Hstrip. unfold strip_fragment. by rewrite has_hash_before_hash.
  - rewrite Hstrip. apply before_hash_prefix.
  - intros fragment Hurl. unfold strip_fragment.
    by rewrite has_hash_app, before_hash_app, Hurl.
Qed.

Lemma strip_fragment_prefix_witness :
  has_hash "http://a/x" = false
  ∧ strip_fragment ("http://a/x" +:+ String "#"%char "top") = "http://a/x"
  ∧ strip_fragment "http://a/x" = "http://a/x".
Proof.
  assert (Hurl : has_hash "http://a/x" = false) by reflexivity.
  split; [exact Hurl|].
  exact (proj2 (proj2 (proj2 (strip_fragment_prefix "http://a/x"))) "top" Hurl).
Defined.

(** X23: the threshold the build script picks is never below 300, and it
    leaves room for three full spill windows exactly when the data
    directory has at least 900 files: with fewer files, fewer than three
    spills can happen before [finalize]. *)
Theorem choose_max_docs_windows (total_files : N) :
  (300 ≤ choose_max_docs total_files)%N
  ∧ ((3 ≤ total_files / choose_max_docs total_files)%N ↔ (900 ≤ total_files)%N).
Proof.
  unfold choose_max_docs.
  assert (Hquot : ∀ k, (0 < k)%N → (k * 4 ≤ total_files)%N →
            (3 ≤ total_files / k)%N).
  { intros k Hk Hle. apply N.div_le_lower_bound; lia. }
  repeat case_decide.
  - split; [lia|]. split; [lia|]. intros _.
    destruct (N.max_spec 5000 (total_files / 10)) as [[Hlt ->]|[Hge ->]].
    + apply N.div_le_lower_bound; [lia|].
      pose proof (N.Div0.mul_div_le total_files 10). lia.
    + apply N.div_le_lower_bound; lia.
  - split; [lia|]. split; [lia|]. intros _.
    destruct (N.max_spec 3000 (total_files / 8)) as [[Hlt ->]|[Hge ->]].
    + apply N.div_le_lower_bound; [lia|].
      pose proof (N.Div0.mul_div_le total_files 8). lia.
    + apply N.div_le_lower_bound; lia.
  - split; [lia|]. split; [lia|]. intros _.
    destruct (N.max_spec 1500 (total_files / 4)) as [[Hlt ->]|[Hge ->]].
    + apply Hquot; [lia|]. pose proof (N.Div0.mul_div_le total_files 4). lia.
    + apply N.div_le_lower_bound; lia.
  - split; [lia|].
    destruct (N.max_spec 300 (total_files / 4)) as [[Hlt ->]|[Hge ->]].
    + split; [|intros ?; apply Hquot; [lia|];
                pose proof (N.Div0.mul_div_le total_files 4); lia].
      intros Hthree.
      assert (3 * (total_files / 4) ≤ total_files)%N as Hmul.
      { etrans; [|apply (N.Div0.mul_div_le total_files (total_files / 4))].
        rewrite (N.mul_comm (total_files / 4)). by apply N.mul_le_mono_r. }
      lia.
    + split.
      * intros Hthree. pose proof (N.Div0.mul_div_le total_files 300). lia.
      * intros Hfiles. apply N.div_le_lower_bound; lia.
Qed.

(** ** The terms of the final index *)

Lemma inner_nonempty_dom index term :
  inner_nonempty index →
  is_Some (index !! term) ↔ ∃ doc_id p, posting_of index term doc_id = Some p.
Proof.
  intros Hinner. unfold posting_of. split.
  - intros [postings Hterm]. rewrite Hterm. simpl.
    by apply map_choose, (Hinner term).
  - intros (doc_id & p & Hp). by destruct (index !! term).
Qed.

Lemma fold_entries_is_Some entries : is_Some (fold_entries None entries) ↔ entries ≠ [].
Proof.
  rewrite fold_entries_coalesce. destruct entries; simpl.
  - split; [by intros [? ?]|done].
  - split; [done|by eexists].
Qed.

Lemma term_posted_add_document self segs url tokens important_tokens :
  build_inv self segs →
  ∃ self' segs',
    DiskBasedIndexer.add_document self url tokens important_tokens = Ok self'
    ∧ build_inv self' segs'
    ∧ ∀ term,
        (∃ doc_id, accumulator_entries (segs' ++ [DiskBasedIndexer.index self'])
                     term doc_id ≠ [])
        ↔ (∃ doc_id, accumulator_entries (segs ++ [DiskBasedIndexer.index self])
                       term doc_id ≠ [])
          ∨ term ∈ tokens ++ important_tokens.
Proof.
  intros Hinv.
  destruct (build_inv_add_document self segs url tokens important_tokens Hinv)
    as (self' & segs' & Hadd & Hinv' & _ & _ & _ & _ & Hentries).
  destruct (record_document_grows self url tokens important_tokens (proj1 Hinv))
    as (_ & _ & _ & doc_id & _ & _ & Hindex).
  exists self', segs'. split; [done|]. split; [done|]. intros term.
  assert (Hstep : ∀ d,
    accumulator_entries (segs' ++ [DiskBasedIndexer.index self']) term d
    = accumulator_entries segs term d
      ++ option_list (if decide (term ∈ tokens ++ important_tokens ∧ doc_id = d)
                      then Some (document_posting tokens important_tokens term)
                      else posting_of (DiskBasedIndexer.index self) term d)).
  { intros d. by rewrite Hentries, Hindex, accumulator_entries_app,
      accumulator_entries_singleton, post_tokens_posting. }
  assert (Hold : ∀ d,
    accumulator_entries (segs ++ [DiskBasedIndexer.index self]) term d
    = accumulator_entries segs term d
      ++ option_list (posting_of (DiskBasedIndexer.index self) term d)).
  { intros d. by rewrite accumulator_entries_app, accumulator_entries_singleton. }
  split.
  - intros [d Hd]. rewrite Hstep in Hd.
    destruct (decide (term ∈ tokens ++ important_tokens)) as [Hin|Hout]; [by right|].
    left. exists d. rewrite Hold.
    by rewrite decide_False in Hd by (by intros [? _]).
  - intros [[d Hd]|Hin].
    + exists d. rewrite Hstep. rewrite Hold in Hd.
      destruct (decide (term ∈ tokens ++ important_tokens ∧ doc_id = d)); [|done].
      intros Hnil. apply app_eq_nil in Hnil as [_ Hnil]. discriminate Hnil.
    + exists doc_id. rewrite Hstep, decide_True by done.
      intros Hnil. apply app_eq_nil in Hnil as [_ Hnil]. discriminate Hnil.
Qed.

Lemma term_posted_add_documents docs self segs :
  build_inv self segs →
  ∃ self' segs',
    DiskBasedIndexer.add_documents self docs = Ok self'
    ∧ build_inv self' segs'
    ∧ ∀ term,
        (∃ doc_id, accumulator_entries (segs' ++ [DiskBasedIndexer.index self'])
                     term doc_id ≠ [])
        ↔ (∃ doc_id, accumulator_entries (segs ++ [DiskBasedIndexer.index self])
                       term doc_id ≠ [])
          ∨ term ∈ all_tokens docs.
Proof.
  revert self segs.
  induction docs as [|[[url tokens] important_tokens] docs IH]; intros self segs Hinv.
  - exists self, segs. split; [done|]. split; [done|]. intros term.
    unfold all_tokens. simpl. rewrite elem_of_nil. tauto.
  - destruct (term_posted_add_document self segs url tokens important_tokens Hinv)
      as (self1 & segs1 & Hadd & Hinv1 & Hterms1).
    destruct (IH self1 segs1 Hinv1) as (self' & segs' & Hadds & Hinv' & Hterms').
    exists self', segs'. split; [by cbn [DiskBasedIndexer.add_documents]; rewrite Hadd|].
    split; [done|]. intros term. rewrite Hterms', Hterms1.
    change (all_tokens ((url, tokens, important_tokens) :: docs))
      with ((tokens ++ important_tokens) ++ all_tokens docs).
    rewrite (elem_of_app (tokens ++ important_tokens)). tauto.
Qed.

Lemma json_index_keys index term :
  is_Some (items_get (json_index index) term) ↔ is_Some (index !! term).
Proof.
  pose proof (items_get_map_to_list Datatypes.id json_postings index term) as Hget.
  unfold Datatypes.id in Hget. unfold json_index. rewrite Hget.
  by rewrite fmap_is_Some.
Qed.

(** X24: the final index has an entry for exactly the terms that occur
    in some document added, among its body or its important tokens, and
    [get_num_unique_tokens] reports the number of distinct terms. *)
Theorem build_unique_tokens (d : Disk) (T : nat)
    (docs : list (string * list string * list string)) :
  ∃ built final final_index,
    DiskBasedIndexer.add_documents (DiskBasedIndexer.__init__ d T) docs = Ok built
    ∧ DiskBasedIndexer.finalize built = Ok final
    ∧ inverted_index_json (DiskBasedIndexer.disk final) = Some final_index
    ∧ (∀ term, is_Some (items_get final_index term) ↔ term ∈ all_tokens docs)
    ∧ DiskBasedIndexer.get_num_unique_tokens final
      = size (list_to_set (all_tokens docs) : gset string).
Proof.
  destruct (term_posted_add_documents docs _ [] (build_inv_init d T))
    as (built & segs & Hbuilt & Hinv & Hterms).
  destruct (finalize_index_dict built segs Hinv)
    as (final & index_dict & Hfinal & _ & Hindex & Hinner & _ & _ & _ & _ & Hpost).
  assert (Hkeys : ∀ term,
    is_Some (items_get (json_index index_dict) term) ↔ term ∈ all_tokens docs).
  { intros term. rewrite json_index_keys, (inner_nonempty_dom _ _ Hinner).
    assert (Hinit : ¬ ∃ doc_id,
      accumulator_entries
        ([] ++ [DiskBasedIndexer.index (DiskBasedIndexer.__init__ d T)]) term doc_id ≠ []).
    { intros [doc_id Hd]. apply Hd. apply accumulator_entries_empty. }
    split.
    - intros (doc_id & p & Hp).
      assert (∃ doc_id, accumulator_entries (segs ++ [DiskBasedIndexer.index built])
                          term doc_id ≠ []) as Hposted.
      { exists doc_id. apply fold_entries_is_Some. rewrite <- Hpost. by eexists. }
      apply Hterms in Hposted as [?|?]; [done|done].
    - intros Hin.
      assert (∃ doc_id, accumulator_entries (segs ++ [DiskBasedIndexer.index built])
                          term doc_id ≠ []) as [doc_id Hd]
        by (apply Hterms; by right).
      apply fold_entries_is_Some in Hd as [p Hp]. exists doc_id, p. by rewrite Hpost. }
  exists built, final, (json_index index_dict).
  split; [done|]. split; [done|]. split; [done|]. split; [done|].
  unfold DiskBasedIndexer.get_num_unique_tokens. rewrite Hindex. f_equal.
  apply set_eq. intros term.
  by rewrite !elem_of_list_to_set, <- items_get_is_Some, Hkeys.
Qed.
